(** * Custom emoji: identifier codec, loader state machine and manager

    A shallow embedding of [Telegram/SourceFiles/data/stickers/data_custom_emoji.cpp]:
    the token codec ([SerializeCustomEmojiId], [ParseCustomEmojiData]), the
    per-asset [CustomEmojiLoader] and the session-wide [CustomEmojiManager]
    (registry, batched document requests, coalesced repaints).

    Conventions.  [uint64] values are [N] (bounded by [2^64] where the bound
    matters), [crl::time] is [Z], a [QString] is a [string], the set of
    pending ids is the list of its ids in the order they were added, a
    [base::flat_map] whose iteration order is observable is its sorted
    vector of pairs, the other maps are [gmap]s.  Pointers are addresses ([nat]); calls into collaborators
    (cache, downloader, API, render targets) are recorded in a log. *)

From Stdlib Require Import ZArith NArith List String Ascii Bool Lia.
From stdpp Require Import base gmap list strings fin_maps.
Import ListNotations.

Local Open Scope N_scope.

(** ** Qt strings *)

Definition QString := string.

Definition uint64_max : N := 18446744073709551615.

(** [QChar::isSpace] on the Latin-1 range. *)
Definition isSpace (c : ascii) : bool :=
  let n := N_of_ascii c in
  (n =? 32) || ((9 <=? n) && (n <=? 13)) || (n =? 133) || (n =? 160).

Definition digitValue (c : ascii) : option N :=
  let n := N_of_ascii c in
  if (48 <=? n) && (n <=? 57) then Some (n - 48) else None.

Definition digitChar (d : N) : ascii := ascii_of_N (48 + d).

(** [QString::number(qulonglong)]: the decimal digits, most significant
    first, produced from the least significant one upwards. *)
Fixpoint number_loop (fuel : nat) (n : N) (acc : string) : string :=
  match fuel with
  | O => acc
  | S fuel' =>
      let acc' := String (digitChar (n mod 10)) acc in
      if n / 10 =? 0 then acc' else number_loop fuel' (n / 10) acc'
  end.

(** A [uint64] has at most 20 decimal digits. *)
Definition number (n : N) : QString := number_loop 20 n EmptyString.

(** [QStringView::split(sep)] with the default [Qt::KeepEmptyParts]. *)
Fixpoint split (sep : ascii) (s : string) : list string :=
  match s with
  | EmptyString => [EmptyString]
  | String c s' =>
      if Ascii.eqb c sep then EmptyString :: split sep s'
      else match split sep s' with
           | h :: t => String c h :: t
           | [] => [String c EmptyString]
           end
  end.

Fixpoint skipSpaces (s : string) : string :=
  match s with
  | String c s' => if isSpace c then skipSpaces s' else s
  | EmptyString => EmptyString
  end.

Fixpoint chopSpaces (s : string) : string :=
  match s with
  | EmptyString => EmptyString
  | String c s' =>
      match chopSpaces s' with
      | EmptyString => if isSpace c then EmptyString else String c EmptyString
      | r => String c r
      end
  end.

Definition skipPlus (s : string) : string :=
  match s with
  | String "+"%char s' => s'
  | _ => s
  end.

(** The digit loop of [strtoull] in base 10: [None] on a character that is
    not a digit and on overflow past [ULLONG_MAX]. *)
Fixpoint digitsValue (s : string) (acc : N) : option N :=
  match s with
  | EmptyString => Some acc
  | String c s' =>
      match digitValue c with
      | None => None
      | Some d =>
          let acc' := acc * 10 + d in
          if acc' <=? uint64_max then digitsValue s' acc' else None
      end
  end.

(** [QStringView::toULongLong(&ok)]: surrounding white space is dropped, one
    leading plus sign is accepted, then at least one decimal digit and
    nothing else; [None] stands for [ok == false]. *)
Definition toULongLong_ok (s : QString) : option N :=
  match skipPlus (chopSpaces (skipSpaces s)) with
  | EmptyString => None
  | t => digitsValue t 0
  end.

(** [toULongLong()] as the code calls it, without looking at [ok]: a failed
    conversion reads as 0. *)
Definition toULongLong (s : QString) : N :=
  match toULongLong_ok s with
  | Some n => n
  | None => 0
  end.

(** ** Identifier codec *)

Record CustomEmojiId := { selfId : N; id : N }.

(** The value-initialised [CustomEmojiId{}]. *)
Definition emptyId : CustomEmojiId := {| selfId := 0; id := 0 |}.

Definition SerializeCustomEmojiId (x : CustomEmojiId) : QString :=
  (number (id x) ++ String ":"%char (number (selfId x)))%string.

Definition ParseCustomEmojiData (data : QString) : CustomEmojiId :=
  match split ":"%char data with
  | [c0; c1] => {| selfId := toULongLong c1; id := toULongLong c0 |}
  | _ => emptyId
  end.

(** ** The world around the loader *)

Definition DocumentId := N.
Definition Callback := nat.

(** A nullable [Fn<...>]: [None] is the empty function object. *)
Definition Fn := option Callback.

Inductive SizeTag := Normal | Large.

(** [Storage::Cache::Key]; it tests false when both halves are zero. *)
Record CacheKey := { high : N; low : N }.

Definition emptyKey : CacheKey := {| high := 0; low := 0 |}.

Definition keyValid (k : CacheKey) : bool :=
  negb (high k =? 0) || negb (low k =? 0).

(** What the loader reads from the [Data::Session] and its documents at the
    time of a call.  A [DocumentData*] is identified with the document id:
    the session keeps one document object per id.  [cacheKeyShift tag] is
    [ChatHelpers::LottieCacheKeyShift(0x0F, LottieSizeFromTag(tag))], whose
    definition lives in another translation unit. *)
Record Session := {
  userId : N;
  sticker : DocumentId -> bool;
  bigFileBaseCacheKey : DocumentId -> CacheKey;
  mediaLoaded : DocumentId -> bool;
  bytesIsEmpty : DocumentId -> bool;
  filepathIsEmpty : DocumentId -> bool;
  cacheKeyShift : SizeTag -> N
}.

Definition SerializeDocumentId (s : Session) (document : DocumentId) : QString :=
  SerializeCustomEmojiId {| selfId := userId s; id := document |}.

(** The payload handed to a completion callback.  Both alternatives carry
    the token and the recipe [(document, tag)] of the loader factory. *)
Inductive LoadResult :=
| Cached (entityData : QString) (factory : DocumentId * SizeTag) (cache : N)
| Caching (factory : DocumentId * SizeTag) (put : CacheKey) (entityData : QString).

(** Calls that leave the loader, in program order. *)
Inductive Effect :=
| CacheGet (key : CacheKey)
| CreateMediaView (document : DocumentId)
| ResetCancelled (document : DocumentId)
| CheckStickerLarge (document : DocumentId)
| AwaitDownloaderTaskFinished (document : DocumentId)
| LifetimeDestroy
| Invoke (loaded : Callback) (result : LoadResult)
| DocumentCancel (document : DocumentId).

Module CustomEmojiLoader.

Record Process := {
  media : option DocumentId;
  loaded : Fn;
  subscribed : bool
}.

Inductive State :=
| Resolve (requested : Fn) (entityData : QString)
| Lookup (document : DocumentId) (process : option Process)
| Load (document : DocumentId) (process : option Process).

Record Loader := { _state : State; _tag : SizeTag }.

(** The outcome of a member function: the loader afterwards and the calls
    it made, or [None] when an [Expects]/[Assert] fails or an empty
    function object is invoked. *)
Definition Outcome := option (Loader * list Effect).

Definition setState (l : Loader) (st : State) : Loader :=
  {| _state := st; _tag := _tag l |}.

Definition setLoaded (p : Process) (f : Fn) : Process :=
  {| media := media p; loaded := f; subscribed := subscribed p |}.

Definition andThen (r : Outcome) (k : Loader -> Outcome) : Outcome :=
  match r with
  | None => None
  | Some (l, es) =>
      match k l with
      | None => None
      | Some (l', es') => Some (l', es ++ es')
      end
  end.

Definition emit (es : list Effect) (l : Loader) : Outcome := Some (l, es).

(** [f(result)] for a nullable function object. *)
Definition invoke (f : Fn) (result : LoadResult) (l : Loader) : Outcome :=
  match f with
  | Some cb => Some (l, [Invoke cb result])
  | None => None
  end.

Definition InitialState (owner : Session) (x : CustomEmojiId) : State :=
  let document := id x in
  if sticker owner document then Lookup document None
  else Resolve None (SerializeCustomEmojiId x).

Definition fromId (owner : Session) (x : CustomEmojiId) (tag : SizeTag) : Loader :=
  {| _state := InitialState owner x; _tag := tag |}.

Definition fromDocument (document : DocumentId) (tag : SizeTag) : Loader :=
  {| _state := Lookup document None; _tag := tag |}.

Definition resolving (l : Loader) : bool :=
  match _state l with
  | Resolve _ _ => true
  | _ => false
  end.

Definition loading (l : Loader) : bool :=
  match _state l with
  | Resolve requested _ => bool_decide (requested <> None)
  | Lookup _ process => bool_decide (process <> None)
  | Load _ process => bool_decide (process <> None)
  end.

Definition entityData (s : Session) (l : Loader) : QString :=
  match _state l with
  | Resolve _ entityData => entityData
  | Lookup document _ => SerializeDocumentId s document
  | Load document _ => SerializeDocumentId s document
  end.

Definition cacheKey (s : Session) (l : Loader) (document : DocumentId) : CacheKey :=
  let baseKey := bigFileBaseCacheKey s document in
  if keyValid baseKey then
    {| high := high baseKey;
       low := (low baseKey + cacheKeyShift s (_tag l)) mod 2 ^ 64 |}
  else emptyKey.

Definition check (s : Session) (l : Loader) : Outcome :=
  match _state l with
  | Load document (Some process) =>
      if bytesIsEmpty s document && filepathIsEmpty s document then Some (l, [])
      else
        andThen (emit [LifetimeDestroy] l) (fun l =>
          invoke (loaded process)
            (Caching (document, _tag l) (cacheKey s l document)
               (SerializeDocumentId s document))
            (setState l (Load document None)))
  | _ => None
  end.

(** The [Load] branch of [load]. *)
Definition loadDecoding (s : Session) (document : DocumentId)
    (process : option Process) (f : Fn) (l : Loader) : Outcome :=
  match process with
  | None =>
      let fresh := {| media := Some document; loaded := f; subscribed := false |} in
      andThen
        (emit [CreateMediaView document; ResetCancelled document;
               CheckStickerLarge document]
           (setState l (Load document (Some fresh))))
        (fun l =>
           if mediaLoaded s document then check s l
           else
             emit [AwaitDownloaderTaskFinished document]
               (setState l
                  (Load document
                     (Some {| media := Some document; loaded := f;
                              subscribed := true |}))))
  | Some p => Some (setState l (Load document (Some (setLoaded p f))), [])
  end.

Definition loadNoCache (s : Session) (document : DocumentId) (f : Fn)
    (l : Loader) : Outcome :=
  loadDecoding s document None f (setState l (Load document None)).

Definition startCacheLookup (s : Session) (document : DocumentId) (f : Fn)
    (l : Loader) : Outcome :=
  let key := cacheKey s l document in
  if negb (keyValid key) then loadNoCache s document f l
  else
    emit [CacheGet key]
      (setState l
         (Lookup document
            (Some {| media := None; loaded := f; subscribed := false |}))).

Definition load (s : Session) (f : Fn) (l : Loader) : Outcome :=
  match _state l with
  | Resolve _ entityData => Some (setState l (Resolve f entityData), [])
  | Lookup document None => startCacheLookup s document f l
  | Lookup document (Some p) =>
      Some (setState l (Lookup document (Some (setLoaded p f))), [])
  | Load document process => loadDecoding s document process f l
  end.

(** The reply of the disk cache, delivered through the process guard: it
    only runs while the process that asked is still there. *)
Definition lookupDone (s : Session) (result : option N) (l : Loader) : Outcome :=
  match _state l with
  | Lookup document (Some p) =>
      match result with
      | None => loadNoCache s document (loaded p) l
      | Some cache =>
          invoke (loaded p)
            (Cached (SerializeDocumentId s document) (document, _tag l) cache)
            (setState l (Lookup document (Some (setLoaded p None))))
      end
  | _ => None
  end.

Definition resolved (s : Session) (document : DocumentId) (l : Loader) : Outcome :=
  match _state l with
  | Resolve requested _ =>
      let l' := setState l (Lookup document None) in
      match requested with
      | Some cb => load s (Some cb) l'
      | None => Some (l', [])
      end
  | _ => None
  end.

Definition cancel (l : Loader) : Loader * list Effect :=
  match _state l with
  | Lookup document _ => (setState l (Lookup document None), [])
  | Load document (Some _) =>
      (setState l (Load document None), [DocumentCancel document])
  | Load document None => (l, [])
  | Resolve _ _ => (l, [])
  end.


End CustomEmojiLoader.

(** ** The set of pending ids *)

(** Modelled from the spec: the declaration of [_pendingForRequest] is in
    [data_custom_emoji.h], which is not among the sources, so the type of
    the container and the order it keeps are not in the code.  The spec
    has a pending-request set of asset ids from which the ids added most
    recently are served first: the ids, each once, in the order in which
    they were added, so that [end() - 1] designates the id added last and
    [emplace] of an id that is in the set changes nothing. *)
Definition emplace (x : N) (s : list N) : list N :=
  if bool_decide (x ∈ s) then s else s ++ [x].

Module CustomEmojiManager.

Import CustomEmojiLoader.

Definition kMaxPerRequest : nat := 100.

(** [Ui::CustomEmoji::Object]: the handle given to a render site, bound to
    the shared [Instance] at address [instance]. *)
Record Object := { instance : nat; update : Callback }.

(** An entry of the API reply; [Data::Session::processDocument] is defined
    elsewhere, what the manager uses of it is the id of the document it
    returns. *)
Record MTPDocument := { entryId : DocumentId; entrySticker : bool }.

Definition processDocument (entry : MTPDocument) (s : Session)
    : DocumentId * Session :=
  (entryId entry,
   {| userId := userId s;
      sticker := fun d => if d =? entryId entry then entrySticker entry
                          else sticker s d;
      bigFileBaseCacheKey := bigFileBaseCacheKey s;
      mediaLoaded := mediaLoaded s;
      bytesIsEmpty := bytesIsEmpty s;
      filepathIsEmpty := filepathIsEmpty s;
      cacheKeyShift := cacheKeyShift s |}).

(** The members of the class that [create] and the request path use,
    followed by the world they act on: the live loader objects by address
    (a weak pointer is dead when its address is absent), the allocation
    counter, the [request()] calls queued by [crl::on_main], the batches
    sent to the API in order, and the calls made by loaders.  The k-th
    request sent gets request id k. *)
Record Manager := {
  _owner : Session;
  _instances : gmap N nat;
  _loaders : gmap N (list nat);
  _pendingForRequest : list N;
  _requestId : nat;
  heap : gmap nat Loader;
  allocated : nat;
  posted : nat;
  sent : list (list N);
  effects : list (nat * Effect)
}.

Definition init (owner : Session) : Manager :=
  {| _owner := owner; _instances := ∅; _loaders := ∅;
     _pendingForRequest := []; _requestId := 0%nat;
     heap := ∅; allocated := 0%nat; posted := 0%nat; sent := [];
     effects := [] |}.

(** The registration of a loader that starts out resolving. *)
Definition enqueue (key : N) (a : nat) (m : Manager) : Manager :=
  let pending := emplace key (_pendingForRequest m) in
  {| _owner := _owner m;
     _instances := _instances m;
     _loaders := <[key := default [] (_loaders m !! key) ++ [a]]> (_loaders m);
     _pendingForRequest := pending;
     _requestId := _requestId m;
     heap := heap m;
     allocated := allocated m;
     posted := if Nat.eqb (_requestId m) 0 && Nat.eqb (length pending) 1
               then S (posted m) else posted m;
     sent := sent m;
     effects := effects m |}.

Definition create (data : QString) (update : Callback) (m : Manager)
    : option Object * Manager :=
  let parsed := ParseCustomEmojiData data in
  if id parsed =? 0 then (None, m)
  else
    match _instances m !! id parsed with
    | Some i => (Some {| instance := i; update := update |}, m)
    | None =>
        let a := allocated m in
        let loader := fromId (_owner m) parsed Normal in
        let m1 := if resolving loader then enqueue (id parsed) a m else m in
        (Some {| instance := a; update := update |},
         {| _owner := _owner m1;
            _instances := <[id parsed := a]> (_instances m1);
            _loaders := _loaders m1;
            _pendingForRequest := _pendingForRequest m1;
            _requestId := _requestId m1;
            heap := <[a := loader]> (heap m1);
            allocated := S a;
            posted := posted m1;
            sent := sent m1;
            effects := effects m1 |})
    end.

Definition createLoader (document : DocumentId) (tag : SizeTag) : Loader :=
  fromDocument document tag.

(** The loop of [request]: while the set is not empty and the batch is
    not full, move the last key of the set to the end of the batch.  Each
    round removes a key, so the size of the set bounds the rounds. *)
Fixpoint drain (rounds : nat) (pending ids : list N) : list N * list N :=
  match rounds with
  | O => (pending, ids)
  | S rounds' =>
      match pending with
      | [] => (pending, ids)
      | first :: _ =>
          if (length ids <? kMaxPerRequest)%nat
          then drain rounds' (removelast pending) (ids ++ [List.last pending first])
          else (pending, ids)
      end
  end.

Definition request (m : Manager) : Manager :=
  let '(pending, ids) :=
    drain (length (_pendingForRequest m)) (_pendingForRequest m) [] in
  {| _owner := _owner m;
     _instances := _instances m;
     _loaders := _loaders m;
     _pendingForRequest := pending;
     _requestId := match ids with
                   | [] => _requestId m
                   | _ => S (length (sent m))
                   end;
     heap := heap m;
     allocated := allocated m;
     posted := posted m;
     sent := match ids with
             | [] => sent m
             | _ => sent m ++ [ids]
             end;
     effects := effects m |}.

Definition requestFinished (m : Manager) : Manager :=
  let m0 :=
    {| _owner := _owner m; _instances := _instances m;
       _loaders := _loaders m;
       _pendingForRequest := _pendingForRequest m;
       _requestId := 0%nat;
       heap := heap m; allocated := allocated m; posted := posted m;
       sent := sent m; effects := effects m |} in
  match _pendingForRequest m0 with
  | [] => m0
  | _ => request m0
  end.

(** One queued [crl::on_main] call runs. *)
Definition runPosted (m : Manager) : Manager :=
  request
    {| _owner := _owner m; _instances := _instances m;
       _loaders := _loaders m;
       _pendingForRequest := _pendingForRequest m;
       _requestId := _requestId m;
       heap := heap m; allocated := allocated m; posted := Nat.pred (posted m);
       sent := sent m; effects := effects m |}.

Fixpoint forEach {A : Type} (f : A -> Manager -> option Manager)
    (xs : list A) (m : Manager) : option Manager :=
  match xs with
  | [] => Some m
  | x :: rest =>
      match f x m with
      | Some m' => forEach f rest m'
      | None => None
      end
  end.

(** [if (const auto strong = weak.get()) strong->resolved(document)]. *)
Definition resolveWeak (document : DocumentId) (weak : nat) (m : Manager)
    : option Manager :=
  match heap m !! weak with
  | None => Some m
  | Some strong =>
      match resolved (_owner m) document strong with
      | None => None
      | Some (strong', es) =>
          Some {| _owner := _owner m; _instances := _instances m;
                  _loaders := _loaders m;
                  _pendingForRequest := _pendingForRequest m;
                  _requestId := _requestId m;
                  heap := <[weak := strong']> (heap m);
                  allocated := allocated m; posted := posted m;
                  sent := sent m;
                  effects := effects m ++ map (pair weak) es |}
      end
  end.

(** The body of the loop over the reply of the API. *)
Definition processEntry (entry : MTPDocument) (m : Manager) : option Manager :=
  let '(document, owner') := processDocument entry (_owner m) in
  let taken := _loaders m !! document in
  let m1 :=
    {| _owner := owner'; _instances := _instances m;
       _loaders := delete document (_loaders m);
       _pendingForRequest := _pendingForRequest m;
       _requestId := _requestId m;
       heap := heap m; allocated := allocated m; posted := posted m;
       sent := sent m; effects := effects m |} in
  match taken with
  | Some loaders => forEach (resolveWeak document) loaders m1
  | None => Some m1
  end.

(** The two handlers of the API request. *)
Definition done (result : list MTPDocument) (m : Manager) : option Manager :=
  match forEach processEntry result m with
  | Some m' => Some (requestFinished m')
  | None => None
  end.

Definition fail (m : Manager) : option Manager := Some (requestFinished m).

(** How a request ends. *)
Inductive Reply := Done (result : list MTPDocument) | Fail.

Definition complete (r : Reply) (m : Manager) : option Manager :=
  match r with
  | Done result => done result m
  | Fail => fail m
  end.

(** [create] for each token in turn, all with the same update callback. *)
Fixpoint createAll (tokens : list QString) (update : Callback) (m : Manager)
    : Manager :=
  match tokens with
  | [] => m
  | data :: rest => createAll rest update (snd (create data update m))
  end.

(** *** Repaints

    The members behind [repaintLater]: [_repaints] is a
    [base::flat_map<crl::time, RepaintBunch>] (ascending durations),
    [_repaintTimer] is the time at which the one-shot timer will fire, if
    it is active, and [_repaintTimerScheduled] tells that the call posted by
    [scheduleRepaintTimer] has not run yet.  [repainted] lists the
    [repaint()] calls made on targets. *)
Record RepaintBunch := { when : Z; instances : list nat }.

Record RepaintRequest := { req_when : Z; req_duration : Z }.

Record Repaints := {
  _repaints : list (Z * RepaintBunch);
  _repaintNext : Z;
  _repaintTimer : option Z;
  _repaintTimerScheduled : bool;
  repainted : list nat
}.

Definition noRepaints : Repaints :=
  {| _repaints := []; _repaintNext := 0%Z; _repaintTimer := None;
     _repaintTimerScheduled := false; repainted := [] |}.

Definition touch (instance : nat) (request : RepaintRequest)
    (bunch : RepaintBunch) : RepaintBunch :=
  {| when := if (when bunch <? req_when request)%Z then req_when request
             else when bunch;
     instances := instances bunch ++ [instance] |}.

(** [_repaints[duration]], created empty when absent, then updated. *)
Fixpoint upsert (instance : nat) (request : RepaintRequest)
    (reps : list (Z * RepaintBunch)) : list (Z * RepaintBunch) :=
  let fresh := touch instance request {| when := 0%Z; instances := [] |} in
  match reps with
  | [] => [(req_duration request, fresh)]
  | (d, bunch) :: rest =>
      if (req_duration request <? d)%Z then (req_duration request, fresh) :: reps
      else if (req_duration request =? d)%Z
           then (d, touch instance request bunch) :: rest
           else (d, bunch) :: upsert instance request rest
  end.

Definition scheduleRepaintTimer (r : Repaints) : Repaints :=
  if _repaintTimerScheduled r then r
  else {| _repaints := _repaints r; _repaintNext := _repaintNext r;
          _repaintTimer := _repaintTimer r;
          _repaintTimerScheduled := true; repainted := repainted r |}.

Definition repaintLater (instance : nat) (request : RepaintRequest)
    (r : Repaints) : Repaints :=
  scheduleRepaintTimer
    {| _repaints := upsert instance request (_repaints r);
       _repaintNext := _repaintNext r;
       _repaintTimer := _repaintTimer r;
       _repaintTimerScheduled := _repaintTimerScheduled r;
       repainted := repainted r |}.

(** The erase loop of [invokeRepaints]: the bunches kept and the targets
    repainted, in order. *)
Fixpoint flush (alive : nat -> bool) (now : Z) (reps : list (Z * RepaintBunch))
    : list (Z * RepaintBunch) * list nat :=
  match reps with
  | [] => ([], [])
  | (d, bunch) :: rest =>
      let '(kept, calls) := flush alive now rest in
      if (when bunch >? now)%Z then ((d, bunch) :: kept, calls)
      else (kept, List.filter alive (instances bunch) ++ calls)
  end.

Definition invokeRepaints (alive : nat -> bool) (now : Z) (r : Repaints)
    : Repaints :=
  let '(kept, calls) := flush alive now (_repaints r) in
  scheduleRepaintTimer
    {| _repaints := kept; _repaintNext := 0%Z;
       _repaintTimer := _repaintTimer r;
       _repaintTimerScheduled := _repaintTimerScheduled r;
       repainted := repainted r ++ calls |}.

(** The scan of the posted call for the soonest due time. *)
Definition soonest (reps : list (Z * RepaintBunch)) : Z :=
  fold_left
    (fun next entry =>
       if (next =? 0)%Z || (next >? when (snd entry))%Z then when (snd entry)
       else next)
    reps 0%Z.

(** The call posted by [scheduleRepaintTimer] runs at time [now]. *)
Definition postponed (alive : nat -> bool) (now : Z) (r : Repaints) : Repaints :=
  let next := soonest (_repaints r) in
  if negb (next =? 0)%Z
     && ((_repaintNext r =? 0)%Z || (_repaintNext r >? next)%Z)
  then
    if (now >=? next)%Z then
      invokeRepaints alive now
        {| _repaints := _repaints r; _repaintNext := 0%Z;
           _repaintTimer := None; _repaintTimerScheduled := false;
           repainted := repainted r |}
    else
      {| _repaints := _repaints r; _repaintNext := next;
         _repaintTimer := Some (now + (next - now))%Z;
         _repaintTimerScheduled := false; repainted := repainted r |}
  else
    {| _repaints := _repaints r; _repaintNext := _repaintNext r;
       _repaintTimer := _repaintTimer r;
       _repaintTimerScheduled := false; repainted := repainted r |}.

(** The one-shot timer fires at time [now] and runs [invokeRepaints]. *)
Definition timerFires (alive : nat -> bool) (now : Z) (r : Repaints) : Repaints :=
  invokeRepaints alive now
    {| _repaints := _repaints r; _repaintNext := _repaintNext r;
       _repaintTimer := None;
       _repaintTimerScheduled := _repaintTimerScheduled r;
       repainted := repainted r |}.

End CustomEmojiManager.

(** * Vocabulary of the properties *)

(** Strings made of decimal digits only. *)
Fixpoint allDigits (s : string) : bool :=
  match s with
  | EmptyString => true
  | String c s' => bool_decide (is_Some (digitValue c)) && allDigits s'
  end.

(** A session that knows no document yet. *)
Definition blankSession : Session :=
  {| userId := 777000;
     sticker := fun _ => false;
     bigFileBaseCacheKey := fun _ => emptyKey;
     mediaLoaded := fun _ => false;
     bytesIsEmpty := fun _ => true;
     filepathIsEmpty := fun _ => true;
     cacheKeyShift := fun _ => 0 |}.

(** A token is malformed when it does not split into exactly two fields at
    the colons or when one of its fields fails to convert. *)
Definition malformed (data : QString) : bool :=
  negb (Nat.eqb (length (split ":" data)) 2)
  || existsb (fun field => bool_decide (toULongLong_ok field = None))
       (split ":" data).

(** Addresses stored in the registry are allocated ones and no two keys
    share an [Instance]. *)
Definition registryOk (m : CustomEmojiManager.Manager) : Prop :=
  (forall k a, CustomEmojiManager._instances m !! k = Some a ->
               (a < CustomEmojiManager.allocated m)%nat)
  /\ (forall k1 k2 a, CustomEmojiManager._instances m !! k1 = Some a ->
                      CustomEmojiManager._instances m !! k2 = Some a -> k1 = k2).

(** The fetches a log starts: a cache read or a media view to decode from. *)
Definition isFetch (e : Effect) : bool :=
  match e with
  | CacheGet _ | CreateMediaView _ => true
  | _ => false
  end.

Definition fetches (log : list Effect) : nat := length (List.filter isFetch log).

(** The callbacks a log invokes, in order. *)
Fixpoint invokedCallbacks (log : list Effect) : list Callback :=
  match log with
  | [] => []
  | Invoke cb _ :: rest => cb :: invokedCallbacks rest
  | _ :: rest => invokedCallbacks rest
  end.

(** The process in flight, if any, and the callback the loader holds. *)
Definition inFlight (l : CustomEmojiLoader.Loader) : option CustomEmojiLoader.Process :=
  match CustomEmojiLoader._state l with
  | CustomEmojiLoader.Resolve _ _ => None
  | CustomEmojiLoader.Lookup _ process => process
  | CustomEmojiLoader.Load _ process => process
  end.

Definition held (l : CustomEmojiLoader.Loader) : Fn :=
  match CustomEmojiLoader._state l with
  | CustomEmojiLoader.Resolve requested _ => requested
  | CustomEmojiLoader.Lookup _ (Some p) => CustomEmojiLoader.loaded p
  | CustomEmojiLoader.Load _ (Some p) => CustomEmojiLoader.loaded p
  | _ => None
  end.

Definition replaceCallback (f : Fn) (l : CustomEmojiLoader.Loader)
    : CustomEmojiLoader.Loader :=
  CustomEmojiLoader.setState l
    match CustomEmojiLoader._state l with
    | CustomEmojiLoader.Resolve _ entityData => CustomEmojiLoader.Resolve f entityData
    | CustomEmojiLoader.Lookup d (Some p) =>
        CustomEmojiLoader.Lookup d (Some (CustomEmojiLoader.setLoaded p f))
    | CustomEmojiLoader.Load d (Some p) =>
        CustomEmojiLoader.Load d (Some (CustomEmojiLoader.setLoaded p f))
    | st => st
    end.




(** A session in which every document is known and has a cache key. *)
Definition cachedSession : Session :=
  {| userId := 777000;
     sticker := fun _ => true;
     bigFileBaseCacheKey := fun d => {| high := 1; low := d |};
     mediaLoaded := fun _ => false;
     bytesIsEmpty := fun _ => true;
     filepathIsEmpty := fun _ => true;
     cacheKeyShift := fun _ => 240 |}.

(** The loaders waiting under a key are distinct, allocated, still resolving
    if alive, and wait under that key only. *)
Definition loadersOk (m : CustomEmojiManager.Manager) : Prop :=
  forall k ws, CustomEmojiManager._loaders m !! k = Some ws ->
    NoDup ws
    /\ (forall w l, w ∈ ws -> CustomEmojiManager.heap m !! w = Some l ->
                    CustomEmojiLoader.resolving l = true)
    /\ (forall w, w ∈ ws -> (w < CustomEmojiManager.allocated m)%nat)
    /\ (forall k' ws' w, CustomEmojiManager._loaders m !! k' = Some ws' ->
                         w ∈ ws -> w ∈ ws' -> k = k').

(** The asset ids of a list of tokens, in the order of the tokens. *)
Definition tokenIds (tokens : list QString) : list N :=
  map (fun data => id (ParseCustomEmojiData data)) tokens.

(** What C2 states: a batch holds the ids added last, newest first. *)
Definition mostRecentFirst (tokens : list QString) : list N :=
  take CustomEmojiManager.kMaxPerRequest (rev (tokenIds tokens)).


(** The members of the request queue and of the registry agree. *)
Definition sameQueue (m m' : CustomEmojiManager.Manager) : Prop :=
  CustomEmojiManager._pendingForRequest m' = CustomEmojiManager._pendingForRequest m
  /\ CustomEmojiManager._requestId m' = CustomEmojiManager._requestId m
  /\ CustomEmojiManager.sent m' = CustomEmojiManager.sent m
  /\ CustomEmojiManager.posted m' = CustomEmojiManager.posted m
  /\ CustomEmojiManager.allocated m' = CustomEmojiManager.allocated m
  /\ CustomEmojiManager._instances m' = CustomEmojiManager._instances m.


(** The minimum due time over the bunches, if there is a bunch. *)
Fixpoint minDue (reps : list (Z * CustomEmojiManager.RepaintBunch)) : option Z :=
  match reps with
  | [] => None
  | (_, bunch) :: rest =>
      match minDue rest with
      | None => Some (CustomEmojiManager.when bunch)
      | Some t => Some (Z.min (CustomEmojiManager.when bunch) t)
      end
  end.

(** C6's invariant as the claim states it. *)
Definition timerAtMinimum (r : CustomEmojiManager.Repaints) : Prop :=
  CustomEmojiManager._repaintTimer r = minDue (CustomEmojiManager._repaints r).

(** [_repaintNext] is the time the timer is set for, 0 when it is not set. *)
Definition timerConsistent (r : CustomEmojiManager.Repaints) : Prop :=
  CustomEmojiManager._repaintTimer r
  = (if (CustomEmojiManager._repaintNext r =? 0)%Z then None
     else Some (CustomEmojiManager._repaintNext r)).

Definition duePositive (reps : list (Z * CustomEmojiManager.RepaintBunch)) : Prop :=
  Forall (fun entry => (0 < CustomEmojiManager.when (snd entry))%Z) reps.

Definition elapsed (now : Z) (entry : Z * CustomEmojiManager.RepaintBunch) : bool :=
  negb (CustomEmojiManager.when (snd entry) >? now)%Z.

(** The targets registered in the bunches due by [now], with repetitions. *)
Definition registrations (now : Z) (reps : list (Z * CustomEmojiManager.RepaintBunch))
    : list nat :=
  flat_map (fun entry => CustomEmojiManager.instances (snd entry))
    (List.filter (elapsed now) reps).

Definition allAlive : nat -> bool := fun _ => true.

(** Two targets ask for repaints due at 100 and at 150; the posted pass
    runs at time 0. *)
Definition twoBunches : CustomEmojiManager.Repaints :=
  CustomEmojiManager.postponed allAlive 0
    (CustomEmojiManager.repaintLater 2
       {| CustomEmojiManager.req_when := 150; CustomEmojiManager.req_duration := 2000 |}
       (CustomEmojiManager.repaintLater 1
          {| CustomEmojiManager.req_when := 100;
             CustomEmojiManager.req_duration := 1000 |}
          CustomEmojiManager.noRepaints)).

(** One target asked for a repaint due at 100 and the pass ran at time 0. *)
Definition oneBunch : CustomEmojiManager.Repaints :=
  CustomEmojiManager.postponed allAlive 0
    (CustomEmojiManager.repaintLater 1
       {| CustomEmojiManager.req_when := 100; CustomEmojiManager.req_duration := 1000 |}
       CustomEmojiManager.noRepaints).

(** * Further model *)

(** ** The loader under all its callers

    What can happen to a loader: its owner calls [load] and [cancel], the
    manager calls [resolved], the cache replies and a download batch ends. *)
Inductive LoaderOp :=
| OpLoad (f : Fn)
| OpCancel
| OpResolved (document : DocumentId)
| OpLookupDone (result : option N)
| OpCheck.

Definition applyOp (s : Session) (op : LoaderOp) (l : CustomEmojiLoader.Loader)
    : CustomEmojiLoader.Outcome :=
  match op with
  | OpLoad f => CustomEmojiLoader.load s f l
  | OpCancel => Some (CustomEmojiLoader.cancel l)
  | OpResolved document => CustomEmojiLoader.resolved s document l
  | OpLookupDone result => CustomEmojiLoader.lookupDone s result l
  | OpCheck => CustomEmojiLoader.check s l
  end.

(** The position of a state in the order resolve, lookup, load. *)
Definition rank (l : CustomEmojiLoader.Loader) : nat :=
  match CustomEmojiLoader._state l with
  | CustomEmojiLoader.Resolve _ _ => 0
  | CustomEmojiLoader.Lookup _ _ => 1
  | CustomEmojiLoader.Load _ _ => 2
  end.

Definition documentOf (l : CustomEmojiLoader.Loader) : option DocumentId :=
  match CustomEmojiLoader._state l with
  | CustomEmojiLoader.Resolve _ _ => None
  | CustomEmojiLoader.Lookup document _ => Some document
  | CustomEmojiLoader.Load document _ => Some document
  end.

Definition resultToken (r : LoadResult) : QString :=
  match r with
  | Cached entityData _ _ => entityData
  | Caching _ _ entityData => entityData
  end.

Definition resultFactory (r : LoadResult) : DocumentId * SizeTag :=
  match r with
  | Cached _ factory _ => factory
  | Caching factory _ _ => factory
  end.

(** The cache keys a log reads. *)
Fixpoint cacheReads (log : list Effect) : list CacheKey :=
  match log with
  | [] => []
  | CacheGet key :: rest => key :: cacheReads rest
  | _ :: rest => cacheReads rest
  end.

(** The results a log delivers. *)
Fixpoint delivered (log : list Effect) : list (Callback * LoadResult) :=
  match log with
  | [] => []
  | Invoke cb r :: rest => (cb, r) :: delivered rest
  | _ :: rest => delivered rest
  end.

(** ** The manager under its events

    What can happen to a manager and the loaders of its instances: a render
    site calls [create], the posted call of [request] runs, the request in
    flight ends, the owner of a loader or one of its collaborators acts on
    it (never [resolved], which only the manager calls), an instance lets go
    of its loader, and the session changes under the manager (a download
    ends, a document becomes known).  An event that cannot happen in a
    state (no call posted, no request in flight, no such loader, a reply
    for a process that is gone) has no successor. *)
Inductive Event :=
| EvCreate (data : QString) (update : Callback)
| EvPosted
| EvReply (reply : CustomEmojiManager.Reply)
| EvLoader (a : nat) (op : LoaderOp)
| EvDestroy (a : nat)
| EvSession (s : Session).

Definition setHeap (m : CustomEmojiManager.Manager)
    (h : gmap nat CustomEmojiLoader.Loader) (es : list (nat * Effect))
    : CustomEmojiManager.Manager :=
  {| CustomEmojiManager._owner := CustomEmojiManager._owner m;
     CustomEmojiManager._instances := CustomEmojiManager._instances m;
     CustomEmojiManager._loaders := CustomEmojiManager._loaders m;
     CustomEmojiManager._pendingForRequest := CustomEmojiManager._pendingForRequest m;
     CustomEmojiManager._requestId := CustomEmojiManager._requestId m;
     CustomEmojiManager.heap := h;
     CustomEmojiManager.allocated := CustomEmojiManager.allocated m;
     CustomEmojiManager.posted := CustomEmojiManager.posted m;
     CustomEmojiManager.sent := CustomEmojiManager.sent m;
     CustomEmojiManager.effects := CustomEmojiManager.effects m ++ es |}.

Definition setOwner (m : CustomEmojiManager.Manager) (s : Session)
    : CustomEmojiManager.Manager :=
  {| CustomEmojiManager._owner := s;
     CustomEmojiManager._instances := CustomEmojiManager._instances m;
     CustomEmojiManager._loaders := CustomEmojiManager._loaders m;
     CustomEmojiManager._pendingForRequest := CustomEmojiManager._pendingForRequest m;
     CustomEmojiManager._requestId := CustomEmojiManager._requestId m;
     CustomEmojiManager.heap := CustomEmojiManager.heap m;
     CustomEmojiManager.allocated := CustomEmojiManager.allocated m;
     CustomEmojiManager.posted := CustomEmojiManager.posted m;
     CustomEmojiManager.sent := CustomEmojiManager.sent m;
     CustomEmojiManager.effects := CustomEmojiManager.effects m |}.

Definition onLoader (a : nat) (op : LoaderOp) (m : CustomEmojiManager.Manager)
    : option CustomEmojiManager.Manager :=
  match op with
  | OpResolved _ => None
  | _ =>
      match CustomEmojiManager.heap m !! a with
      | None => None
      | Some l =>
          match applyOp (CustomEmojiManager._owner m) op l with
          | None => None
          | Some (l', es) =>
              Some (setHeap m (<[a := l']> (CustomEmojiManager.heap m))
                      (map (pair a) es))
          end
      end
  end.

Definition step (e : Event) (m : CustomEmojiManager.Manager)
    : option CustomEmojiManager.Manager :=
  match e with
  | EvCreate data update => Some (snd (CustomEmojiManager.create data update m))
  | EvPosted =>
      if Nat.ltb 0 (CustomEmojiManager.posted m)
      then Some (CustomEmojiManager.runPosted m) else None
  | EvReply reply =>
      if Nat.eqb (CustomEmojiManager._requestId m) 0 then None
      else CustomEmojiManager.complete reply m
  | EvLoader a op => onLoader a op m
  | EvDestroy a => Some (setHeap m (delete a (CustomEmojiManager.heap m)) [])
  | EvSession s => Some (setOwner m s)
  end.

Fixpoint run (events : list Event) (m : CustomEmojiManager.Manager)
    : option CustomEmojiManager.Manager :=
  match events with
  | [] => Some m
  | e :: rest =>
      match step e m with
      | Some m' => run rest m'
      | None => None
      end
  end.

(** All the ids the manager has queued: those sent, batch after batch, and
    those still pending. *)
Definition queued (m : CustomEmojiManager.Manager) : list N :=
  concat (CustomEmojiManager.sent m) ++ CustomEmojiManager._pendingForRequest m.

(** A batch as [request] makes them: never empty, never over the limit. *)
Definition batchOk (batch : list N) : Prop :=
  (0 < length batch <= 100)%nat.

(** The queue is in one of three states: idle and empty, one call of
    [request] posted, or one request in flight, which is the last one
    sent. *)
Definition queueState (m : CustomEmojiManager.Manager) : Prop :=
  (CustomEmojiManager.posted m <= 1)%nat
  /\ (CustomEmojiManager.posted m = 1%nat ->
      CustomEmojiManager._requestId m = 0%nat
      /\ CustomEmojiManager._pendingForRequest m <> [])
  /\ (CustomEmojiManager._requestId m = 0%nat ->
      CustomEmojiManager.posted m = 0%nat ->
      CustomEmojiManager._pendingForRequest m = [])
  /\ (CustomEmojiManager._requestId m <> 0%nat ->
      CustomEmojiManager._requestId m = length (CustomEmojiManager.sent m)).

(** What is queued is queued once, is a non-zero id of the registry and
    goes out in well-formed batches. *)
Definition queueOk (m : CustomEmojiManager.Manager) : Prop :=
  NoDup (queued m)
  /\ (forall k, k ∈ queued m ->
                k <> 0 /\ is_Some (CustomEmojiManager._instances m !! k))
  /\ Forall batchOk (CustomEmojiManager.sent m).

(** A loader waits under an id only if that id is queued, and while it is
    alive it is resolving with a token for that id. *)
Definition waitersOk (m : CustomEmojiManager.Manager) : Prop :=
  forall k ws, CustomEmojiManager._loaders m !! k = Some ws ->
    k ∈ queued m
    /\ forall w l, w ∈ ws -> CustomEmojiManager.heap m !! w = Some l ->
         exists requested entityData,
           CustomEmojiLoader._state l
           = CustomEmojiLoader.Resolve requested entityData
           /\ id (ParseCustomEmojiData entityData) = k.

(** Every loader of the second heap was in the first one, is still
    resolving with the same token if it was, and was resolving if it is. *)
Definition agedHeap (h h' : gmap nat CustomEmojiLoader.Loader) : Prop :=
  forall a l', h' !! a = Some l' ->
    exists l, h !! a = Some l
      /\ (forall requested ed,
            CustomEmojiLoader._state l = CustomEmojiLoader.Resolve requested ed ->
            exists requested',
              CustomEmojiLoader._state l'
              = CustomEmojiLoader.Resolve requested' ed)
      /\ (CustomEmojiLoader.resolving l' = true ->
          CustomEmojiLoader.resolving l = true).

(** No loader that is alive and still resolving is forgotten: it waits
    under some id. *)
Definition resolvingListed (m : CustomEmojiManager.Manager) : Prop :=
  forall a l, CustomEmojiManager.heap m !! a = Some l ->
    CustomEmojiLoader.resolving l = true ->
    exists k ws, CustomEmojiManager._loaders m !! k = Some ws /\ a ∈ ws.

Definition managerInv (m : CustomEmojiManager.Manager) : Prop :=
  loadersOk m /\ registryOk m /\ queueState m /\ queueOk m /\ waitersOk m
  /\ resolvingListed m.

(** A short life of a manager: two assets are asked for, the owner of the
    first loader asks for its result, the posted request goes out, the
    second instance goes away and the reply names the first asset. *)
Definition sampleEvents : list Event :=
  [EvCreate "5:7" 1%nat; EvCreate "9:7" 2%nat;
   EvLoader 0 (OpLoad (Some 3%nat)); EvPosted; EvDestroy 1;
   EvReply (CustomEmojiManager.Done
              [{| CustomEmojiManager.entryId := 5;
                  CustomEmojiManager.entrySticker := true |}])].

(** The asset a loader works for: the id of its token while it resolves,
    its document afterwards. *)
Definition assetOf (l : CustomEmojiLoader.Loader) : N :=
  match CustomEmojiLoader._state l with
  | CustomEmojiLoader.Resolve _ entityData => id (ParseCustomEmojiData entityData)
  | CustomEmojiLoader.Lookup document _ => document
  | CustomEmojiLoader.Load document _ => document
  end.

(** The keys of the registry are non-zero 64-bit ids, and the loader of
    the instance under a key works for that key. *)
Definition servesOk (m : CustomEmojiManager.Manager) : Prop :=
  forall k a, CustomEmojiManager._instances m !! k = Some a ->
    0 < k <= uint64_max
    /\ forall l, CustomEmojiManager.heap m !! a = Some l -> assetOf l = k.

(** The calls one loader has made, out of the log of all of them. *)
Definition logOf (a : nat) (log : list (nat * Effect)) : list Effect :=
  map snd (List.filter (fun entry => Nat.eqb (fst entry) a) log).

Definition effectsOf (a : nat) (m : CustomEmojiManager.Manager) : list Effect :=
  logOf a (CustomEmojiManager.effects m).

(** ** The repaint members under their events

    What can happen to the repaint members of a manager: an instance asks
    for a repaint, the call posted by [scheduleRepaintTimer] runs, and the
    one-shot timer fires, at or after the time it was set for.  The last
    two find some of the targets alive.  An event that cannot happen in a
    state (no call posted, timer not set or not yet due) has no
    successor. *)
Inductive RepaintEvent :=
| RvLater (instance : nat) (request : CustomEmojiManager.RepaintRequest)
| RvPosted (alive : nat -> bool) (now : Z)
| RvTimer (alive : nat -> bool) (now : Z).

Definition repaintStep (e : RepaintEvent) (r : CustomEmojiManager.Repaints)
    : option CustomEmojiManager.Repaints :=
  match e with
  | RvLater instance request =>
      Some (CustomEmojiManager.repaintLater instance request r)
  | RvPosted alive now =>
      if CustomEmojiManager._repaintTimerScheduled r
      then Some (CustomEmojiManager.postponed alive now r) else None
  | RvTimer alive now =>
      match CustomEmojiManager._repaintTimer r with
      | Some t =>
          if (t <=? now)%Z then Some (CustomEmojiManager.timerFires alive now r)
          else None
      | None => None
      end
  end.

Fixpoint repaintRun (events : list RepaintEvent) (r : CustomEmojiManager.Repaints)
    : option CustomEmojiManager.Repaints :=
  match events with
  | [] => Some r
  | e :: rest =>
      match repaintStep e r with
      | Some r' => repaintRun rest r'
      | None => None
      end
  end.

(** Repaints are asked for at times after the epoch of [crl::time]. *)
Definition requestPositive (e : RepaintEvent) : Prop :=
  match e with
  | RvLater _ request => (0 < CustomEmojiManager.req_when request)%Z
  | _ => True
  end.

(** The target is alive whenever bunches are flushed. *)
Definition aliveIn (target : nat) (e : RepaintEvent) : Prop :=
  match e with
  | RvLater _ _ => True
  | RvPosted alive _ => alive target = true
  | RvTimer alive _ => alive target = true
  end.

(** How often a target has asked for a repaint. *)
Fixpoint asked (target : nat) (events : list RepaintEvent) : nat :=
  match events with
  | [] => 0
  | RvLater instance _ :: rest =>
      (if Nat.eqb instance target then 1 else 0) + asked target rest
  | _ :: rest => asked target rest
  end.

(** The targets registered in the bunches, with repetitions. *)
Definition registered (reps : list (Z * CustomEmojiManager.RepaintBunch))
    : list nat :=
  flat_map (fun entry => CustomEmojiManager.instances (snd entry)) reps.

(** Every bunch has a wake-up that comes no later than it is due: the
    posted call is on its way, or the timer is set for a time no later
    than the due time of any bunch. *)
Definition wakeOk (r : CustomEmojiManager.Repaints) : Prop :=
  CustomEmojiManager._repaints r <> [] ->
  CustomEmojiManager._repaintTimerScheduled r = true
  \/ exists t, CustomEmojiManager._repaintTimer r = Some t
       /\ forall entry, entry ∈ CustomEmojiManager._repaints r ->
                        (t <= CustomEmojiManager.when (snd entry))%Z.

(** Three instances ask for repaints, the posted call sets the timer and
    the timer fires. *)
Definition sampleRepaints : list RepaintEvent :=
  [RvLater 1 {| CustomEmojiManager.req_when := 100;
                CustomEmojiManager.req_duration := 1000 |};
   RvLater 2 {| CustomEmojiManager.req_when := 150;
                CustomEmojiManager.req_duration := 2000 |};
   RvPosted allAlive 10;
   RvLater 1 {| CustomEmojiManager.req_when := 140;
                CustomEmojiManager.req_duration := 1000 |};
   RvTimer allAlive 100].

(** * The moderation box (boxes/moderate_messages_box.cpp) *)

Module ModerateMessagesBox.

(** What the box reads of a message: the peer of its history, the sender
    as a user, if it is one ([from()->asUser()]), and the two suggestions
    of the item. *)
Record HistoryItem := {
  historyPeer : N;
  fromUser : option N;
  suggestBanReport : bool;
  suggestDeleteAllReport : bool
}.

Definition HistoryItemsList := list HistoryItem.

(** [base::flags<ModerateOption>] over the two bits of the enum. *)
Definition ModerateOptions := Z.

Definition Ban : ModerateOptions := Z.shiftl 1 0.

Definition DeleteAll : ModerateOptions := Z.shiftl 1 1.

(** The loop of [CalculateModerateOptions] from the item it is at; [None]
    is a [return ModerateOptions(0)] from inside the loop. *)
Fixpoint scan (peer : N) (allCanBan allCanDelete : bool)
    (items : HistoryItemsList) : option (bool * bool) :=
  match items with
  | [] => Some (allCanBan, allCanDelete)
  | item :: rest =>
      if negb allCanBan && negb allCanDelete then None
      else if negb (peer =? historyPeer item) then None
      else
        let allCanBan := if negb (suggestBanReport item) then false
                         else allCanBan in
        let allCanDelete := if negb (suggestDeleteAllReport item) then false
                            else allCanDelete in
        scan peer allCanBan allCanDelete rest
  end.

(** [None] when [Expects(!items.empty())] fails. *)
Definition CalculateModerateOptions (items : HistoryItemsList)
    : option ModerateOptions :=
  match items with
  | [] => None
  | front :: _ =>
      match scan (historyPeer front) true true items with
      | None => Some 0%Z
      | Some (allCanBan, allCanDelete) =>
          Some (Z.lor (Z.lor 0 (if allCanBan then Ban else 0))
                  (if allCanDelete then DeleteAll else 0))
      end
  end.

Definition has (options flag : ModerateOptions) : bool :=
  negb (Z.land options flag =? 0)%Z.

Definition CanCreateModerateMessagesBox (items : HistoryItemsList)
    : option bool :=
  match CalculateModerateOptions items with
  | None => None
  | Some options => Some (has options Ban || has options DeleteAll)
  end.

(** The lambda that fills [users] in [CreateModerateMessagesBox]. *)
Definition users (items : HistoryItemsList) : list N :=
  fold_left
    (fun result item =>
       match fromUser item with
       | Some user =>
           if bool_decide (user ∈ result) then result else result ++ [user]
       | None => result
       end)
    items [].

(** [controller->collectRequests]: the loop over the indices of the
    checkboxes; [users[i]] is read only where there is a checkbox. *)
Fixpoint collectFrom (i : nat) (rounds : nat) (users : list N)
    (checkboxes : list bool) (result : list N) : option (list N) :=
  match rounds with
  | O => Some result
  | S rounds' =>
      match checkboxes !! i with
      | Some true =>
          match users !! i with
          | Some user => collectFrom (S i) rounds' users checkboxes (result ++ [user])
          | None => None
          end
      | _ => collectFrom (S i) rounds' users checkboxes result
      end
  end.

Definition collectRequests (users : list N) (checkboxes : list bool)
    : option (list N) :=
  collectFrom 0 (length checkboxes) users checkboxes [].

(** What [sequentiallyRequest] asks the session at a tick: the peer of the
    box as a channel and a peer as a user, if they are such. *)
Record Peers := {
  asChannel : N -> option N;
  asUser : N -> option N
}.

(** The state behind the timer of [sequentiallyRequest]: the counter,
    whether the lifetime (and with it the timer) still exists, and the
    requests made, each for a user and a channel. *)
Record Sequence := {
  counter : nat;
  running : bool;
  requests : list (N * N)
}.

Definition kSmallDelayMs : Z := 5.

Definition start : Sequence :=
  {| counter := 0; running := true; requests := [] |}.

(** The callback of the timer. *)
Definition tick (peerId : N) (userIds : list N) (session : Peers)
    (state : Sequence) : Sequence :=
  match userIds !! counter state with
  | Some from =>
      {| counter := S (counter state);
         running := running state;
         requests :=
           match asChannel session peerId, asUser session from with
           | Some channel, Some user => requests state ++ [(user, channel)]
           | _, _ => requests state
           end |}
  | None =>
      {| counter := counter state; running := false;
         requests := requests state |}
  end.

(** The timer fires every [kSmallDelayMs] while it exists, each time with
    the session as it is then. *)
Fixpoint sequentiallyRequest (peerId : N) (userIds : list N)
    (sessions : list Peers) (state : Sequence) : Sequence :=
  match sessions with
  | [] => state
  | session :: rest =>
      if running state
      then sequentiallyRequest peerId userIds rest (tick peerId userIds session state)
      else state
  end.

(** A row of the box when there are several users ([appendList] and
    [createUsersList]): the checkbox of the row, the expand button, the
    slide wrap of the users list and the checkbox of each user.  A
    [Ui::Checkbox] and the [Button] are what [checked()] returns and
    [setChecked] sets; an event stream calls its subscriber at once. *)
Record Row := {
  checkbox : bool;
  button : bool;
  wrapToggled : bool;
  checkboxes : list bool
}.

Definition emptyRow (count : nat) : Row :=
  {| checkbox := false; button := false; wrapToggled := false;
     checkboxes := replicate count false |}.

(** What the user can do to a row: click the line of a user, the expand
    button or the overlay over the checkbox of the row; in the row of the
    ban, change a restriction. *)
Inductive Click :=
| ClickLine (i : nat)
| ClickButton
| ClickOverlay
| RestrictionsChanged.

Definition click (c : Click) (row : Row) : option Row :=
  match c with
  | ClickLine i =>
      match checkboxes row !! i with
      | Some checked =>
          let all := <[i := negb checked]> (checkboxes row) in
          Some {| checkbox := existsb (fun c => c) all;
                  button := button row;
                  wrapToggled := wrapToggled row;
                  checkboxes := all |}
      | None => None
      end
  | ClickButton =>
      Some {| checkbox := checkbox row;
              button := negb (button row);
              wrapToggled := negb (button row);
              checkboxes := checkboxes row |}
  | ClickOverlay =>
      Some {| checkbox := negb (checkbox row);
              button := button row;
              wrapToggled := wrapToggled row;
              checkboxes := map (fun _ => negb (checkbox row)) (checkboxes row) |}
  | RestrictionsChanged =>
      Some {| checkbox := true;
              button := button row;
              wrapToggled := wrapToggled row;
              checkboxes := checkboxes row |}
  end.

Fixpoint clicks (cs : list Click) (row : Row) : option Row :=
  match cs with
  | [] => Some row
  | c :: rest =>
      match click c row with
      | Some row' => clicks rest row'
      | None => None
      end
  end.

(** [handleConfirmation] with several users: the users handed to
    [sequentiallyRequest], none when the checkbox of the row is not
    checked. *)
Definition confirmed (users : list N) (row : Row) : option (list N) :=
  if checkbox row then collectRequests users (checkboxes row) else Some [].

End ModerateMessagesBox.

(** The closed form of [CalculateModerateOptions]. *)
Definition samePeer (front : ModerateMessagesBox.HistoryItem)
    (items : ModerateMessagesBox.HistoryItemsList) : bool :=
  forallb (fun item => ModerateMessagesBox.historyPeer front
                       =? ModerateMessagesBox.historyPeer item) items.

Definition allBan (items : ModerateMessagesBox.HistoryItemsList) : bool :=
  forallb ModerateMessagesBox.suggestBanReport items.

Definition allDelete (items : ModerateMessagesBox.HistoryItemsList) : bool :=
  forallb ModerateMessagesBox.suggestDeleteAllReport items.

(** The senders of the items that are users, in the order of the items. *)
Definition senders (items : ModerateMessagesBox.HistoryItemsList) : list N :=
  omap ModerateMessagesBox.fromUser items.

(** The clicks of the rows that have no restrictions to change. *)
Definition plainClick (c : ModerateMessagesBox.Click) : Prop :=
  c <> ModerateMessagesBox.RestrictionsChanged.

(** The request made at a tick for a user, if any. *)
Definition requestAt (peerId : N) (session : ModerateMessagesBox.Peers)
    (from : N) : option (N * N) :=
  match ModerateMessagesBox.asChannel session peerId,
        ModerateMessagesBox.asUser session from with
  | Some channel, Some user => Some (user, channel)
  | _, _ => None
  end.

(** A session in which every document is known, has a cache key and has
    its bytes. *)
Definition loadedSession : Session :=
  {| userId := 777000;
     sticker := fun _ => true;
     bigFileBaseCacheKey := fun d => {| high := 1; low := d |};
     mediaLoaded := fun _ => true;
     bytesIsEmpty := fun _ => false;
     filepathIsEmpty := fun _ => true;
     cacheKeyShift := fun _ => 240 |}.



(** The number that a string of decimal digits denotes, whatever its size. *)
Fixpoint decimal (s : string) (acc : N) : N :=
  match s with
  | EmptyString => acc
  | String c s' => decimal s' (acc * 10 + default 0 (digitValue c))
  end.

(** * Properties *)

(** A comparison whose outcome follows by linear arithmetic is replaced by
    that outcome. *)
Ltac decided b v :=
  replace b with v
    by (symmetry;
        first [ apply N.leb_le | apply N.leb_gt | apply N.eqb_neq | apply N.eqb_eq
              | apply Z.eqb_neq | apply Z.eqb_eq | apply Z.ltb_lt | apply Z.ltb_ge ];
        lia).

(** ** Codec *)

Example number_samples :
  number 0 = "0"%string /\ number 7 = "7"%string
  /\ number 5263765 = "5263765"%string
  /\ number uint64_max = "18446744073709551615"%string.
Proof. repeat split; reflexivity. Qed.

Example split_samples :
  split ":" "12:34" = ["12"; "34"]%string
  /\ split ":" "" = [""]%string
  /\ split ":" ":" = [""; ""]%string
  /\ split ":" "1:2:3" = ["1"; "2"; "3"]%string.
Proof. repeat split; reflexivity. Qed.

Example toULongLong_samples :
  toULongLong "123" = 123 /\ toULongLong " +42 " = 42
  /\ toULongLong "abc" = 0 /\ toULongLong "" = 0
  /\ toULongLong "-1" = 0 /\ toULongLong "12a" = 0
  /\ toULongLong "18446744073709551615" = uint64_max
  /\ toULongLong "18446744073709551616" = 0.
Proof. repeat split; reflexivity. Qed.

Section Codec.

Lemma digitValue_digitChar d : d < 10 -> digitValue (digitChar d) = Some d.
Proof.
  intros Hd. unfold digitValue, digitChar.
  rewrite N_ascii_embedding by lia.
  decided (48 <=? 48 + d) true.
  decided (48 + d <=? 57) true.
  simpl. f_equal. lia.
Qed.

Lemma digit_not_space c : is_Some (digitValue c) -> isSpace c = false.
Proof.
  unfold digitValue, isSpace. intros [d Hd].
  destruct ((48 <=? N_of_ascii c) && (N_of_ascii c <=? 57)) eqn:E; [|discriminate].
  apply andb_true_iff in E as [E1 E2].
  apply N.leb_le in E1, E2.
  repeat (apply orb_false_iff; split);
    try apply andb_false_iff; try (apply N.eqb_neq; lia).
  right. apply N.leb_gt. lia.
Qed.

Lemma digit_not_char c (x : ascii) :
  digitValue x = None -> is_Some (digitValue c) -> Ascii.eqb c x = false.
Proof.
  intros Hx [d Hd]. apply Ascii.eqb_neq. intros ->. congruence.
Qed.

Lemma allDigits_number_loop fuel n acc :
  allDigits acc = true -> allDigits (number_loop fuel n acc) = true.
Proof.
  revert n acc. induction fuel as [|fuel IH]; intros n acc Hacc; simpl; [done|].
  assert (Hd : allDigits (String (digitChar (n mod 10)) acc) = true).
  { simpl. rewrite Hacc, andb_true_r. apply bool_decide_eq_true.
    rewrite digitValue_digitChar; [by eexists|].
    apply N.mod_lt. lia. }
  destruct (n / 10 =? 0); [exact Hd|]. by apply IH.
Qed.

Lemma number_loop_nonempty fuel n acc :
  number_loop (S fuel) n acc <> EmptyString.
Proof.
  revert n acc. induction fuel as [|fuel IH]; intros n acc.
  - simpl. by destruct (n / 10 =? 0).
  - change (number_loop (S (S fuel)) n acc)
      with (if n / 10 =? 0 then String (digitChar (n mod 10)) acc
            else number_loop (S fuel) (n / 10) (String (digitChar (n mod 10)) acc)).
    destruct (n / 10 =? 0); [done|apply IH].
Qed.

Lemma digitsValue_number_loop fuel n rest :
  n < 10 ^ N.of_nat fuel -> n <= uint64_max ->
  digitsValue (number_loop fuel n rest) 0 = digitsValue rest n.
Proof.
  revert n rest. induction fuel as [|fuel IH]; intros n rest Hlt Hmax.
  - simpl in *. by replace n with 0 by lia.
  - assert (Hmod : n mod 10 < 10) by (apply N.mod_lt; lia).
    assert (Hdiv : n = 10 * (n / 10) + n mod 10) by (apply N.div_mod; lia).
    simpl number_loop. destruct (n / 10 =? 0) eqn:E.
    + apply N.eqb_eq in E. simpl. rewrite digitValue_digitChar by done.
      replace (0 * 10 + n mod 10) with n by lia.
      by decided (n <=? uint64_max) true.
    + rewrite IH.
      * simpl. rewrite digitValue_digitChar by done.
        replace (n / 10 * 10 + n mod 10) with n by lia.
        by decided (n <=? uint64_max) true.
      * rewrite Nat2N.inj_succ, N.pow_succ_r' in Hlt.
        apply N.Div0.div_lt_upper_bound. lia.
      * pose proof (N.Div0.div_le_upper_bound n 10 n) as H. lia.
Qed.

Lemma skipSpaces_digits s : allDigits s = true -> skipSpaces s = s.
Proof.
  destruct s as [|c s]; [done|]. simpl. intros H.
  apply andb_true_iff in H as [H _]. apply bool_decide_eq_true in H.
  by rewrite digit_not_space.
Qed.

Lemma chopSpaces_digits s : allDigits s = true -> chopSpaces s = s.
Proof.
  induction s as [|c s IH]; [done|]. simpl. intros H.
  apply andb_true_iff in H as [Hc Hs]. apply bool_decide_eq_true in Hc.
  rewrite (IH Hs). destruct s; [|done]. by rewrite digit_not_space.
Qed.

Lemma skipPlus_digits s : allDigits s = true -> skipPlus s = s.
Proof.
  destruct s as [|c s]; [done|]. simpl. intros H.
  apply andb_true_iff in H as [H _]. apply bool_decide_eq_true in H.
  destruct H as [d Hd].
  destruct c as [[] [] [] [] [] [] [] []]; try done.
Qed.

(** A rendered number reads back as itself. *)
Lemma toULongLong_number n : n <= uint64_max -> toULongLong (number n) = n.
Proof.
  intros Hn. unfold toULongLong, toULongLong_ok.
  assert (Hd : allDigits (number n) = true) by by apply allDigits_number_loop.
  rewrite (skipSpaces_digits _ Hd), (chopSpaces_digits _ Hd), (skipPlus_digits _ Hd).
  pose proof (number_loop_nonempty 19 n EmptyString) as Hne.
  fold (number n) in Hne.
  destruct (number n) eqn:E; [done|]. rewrite <- E.
  unfold number. rewrite digitsValue_number_loop; [done| |done].
  unfold uint64_max in Hn. simpl. lia.
Qed.

Lemma split_digits (sep : ascii) s :
  digitValue sep = None -> allDigits s = true -> split sep s = [s].
Proof.
  intros Hsep. induction s as [|c s IH]; [done|]. simpl. intros H.
  apply andb_true_iff in H as [Hc Hs]. apply bool_decide_eq_true in Hc.
  by rewrite (digit_not_char _ _ Hsep Hc), (IH Hs).
Qed.

Lemma split_digits_app (sep : ascii) s t :
  digitValue sep = None -> allDigits s = true ->
  split sep (s ++ String sep t) = s :: split sep t.
Proof.
  intros Hsep. induction s as [|c s IH]; simpl.
  - intros _. by rewrite Ascii.eqb_refl.
  - intros H. apply andb_true_iff in H as [Hc Hs]. apply bool_decide_eq_true in Hc.
    by rewrite (digit_not_char _ _ Hsep Hc), (IH Hs).
Qed.

Lemma split_serialized x :
  split ":" (SerializeCustomEmojiId x) = [number (id x); number (selfId x)].
Proof.
  unfold SerializeCustomEmojiId.
  rewrite split_digits_app; [|done|by apply allDigits_number_loop].
  rewrite split_digits; [done|done|by apply allDigits_number_loop].
Qed.

End Codec.

(** C3.  Serialising an identifier whose two fields are 64-bit values and
    parsing the token gives the identifier back. *)
Theorem C3_parse_serialize_roundtrip (x : CustomEmojiId) :
  id x <= uint64_max -> selfId x <= uint64_max ->
  ParseCustomEmojiData (SerializeCustomEmojiId x) = x.
Proof.
  intros Hid Hself. unfold ParseCustomEmojiData.
  rewrite split_serialized.
  rewrite !toULongLong_number by done. by destruct x.
Qed.

Lemma C3_roundtrip_witness :
  ParseCustomEmojiData
    (SerializeCustomEmojiId {| selfId := 777000; id := 5368324170671202286 |})
  = {| selfId := 777000; id := 5368324170671202286 |}.
Proof.
  apply C3_parse_serialize_roundtrip; unfold uint64_max; simpl; lia.
Defined.

(** ** The registry *)

Section Registry.

Import CustomEmojiLoader CustomEmojiManager.

Lemma parse_two_fields data c0 c1 :
  split ":" data = [c0; c1] ->
  ParseCustomEmojiData data = {| selfId := toULongLong c1; id := toULongLong c0 |}.
Proof. intros H. unfold ParseCustomEmojiData. by rewrite H. Qed.

Lemma parse_wrong_count data :
  length (split ":" data) <> 2%nat -> ParseCustomEmojiData data = emptyId.
Proof.
  intros H. unfold ParseCustomEmojiData.
  destruct (split ":" data) as [|c0 [|c1 [|c2 rest]]]; simpl in H; done.
Qed.

Lemma create_null data update m :
  id (ParseCustomEmojiData data) = 0 -> create data update m = (None, m).
Proof. intros H. unfold create. by rewrite H. Qed.

Lemma create_handle data update m :
  id (ParseCustomEmojiData data) <> 0 ->
  exists a, fst (create data update m) = Some {| instance := a; update := update |}
    /\ _instances (snd (create data update m)) !! id (ParseCustomEmojiData data)
       = Some a
    /\ (_instances m !! id (ParseCustomEmojiData data) = Some a
        \/ _instances m !! id (ParseCustomEmojiData data) = None
           /\ a = allocated m).
Proof.
  intros H. unfold create.
  apply N.eqb_neq in H. rewrite H.
  destruct (_instances m !! id (ParseCustomEmojiData data)) as [i|] eqn:E.
  - exists i. simpl. split; [done|]. split; [done|]. by left.
  - exists (allocated m). simpl. split; [done|]. split; [|by right].
    by rewrite lookup_insert_eq.
Qed.

Lemma enqueue_registry key a m :
  _instances (enqueue key a m) = _instances m
  /\ allocated (enqueue key a m) = allocated m
  /\ heap (enqueue key a m) = heap m
  /\ _owner (enqueue key a m) = _owner m
  /\ _requestId (enqueue key a m) = _requestId m
  /\ sent (enqueue key a m) = sent m.
Proof. done. Qed.

Lemma create_instances data update m :
  _instances (snd (create data update m)) = _instances m
  \/ _instances m !! id (ParseCustomEmojiData data) = None
     /\ _instances (snd (create data update m))
        = <[id (ParseCustomEmojiData data) := allocated m]> (_instances m)
     /\ allocated (snd (create data update m)) = S (allocated m).
Proof.
  unfold create. destruct (id (ParseCustomEmojiData data) =? 0); [by left|].
  destruct (_instances m !! id (ParseCustomEmojiData data)) eqn:E; [by left|].
  right. simpl. by destruct (resolving _).
Qed.

Lemma create_allocated data update m :
  (allocated m <= allocated (snd (create data update m)))%nat.
Proof.
  unfold create. destruct (id (ParseCustomEmojiData data) =? 0); [done|].
  destruct (_instances m !! id (ParseCustomEmojiData data)); [done|].
  simpl. lia.
Qed.

Lemma registryOk_init s : registryOk (init s).
Proof. split; intros *; simpl; by rewrite lookup_empty. Qed.

Lemma registryOk_create data update m :
  registryOk m -> registryOk (snd (create data update m)).
Proof.
  intros [Hlt Hinj].
  destruct (create_instances data update m) as [E|(Hnone & E & Ea)].
  - pose proof (create_allocated data update m).
    split; rewrite E.
    + intros k a Hk. specialize (Hlt k a Hk). lia.
    + exact Hinj.
  - split; rewrite E.
    + intros k a. rewrite Ea, lookup_insert. case_decide.
      * intros [= <-]. lia.
      * intros Hk. specialize (Hlt k a Hk). lia.
    + intros k1 k2 a. rewrite !lookup_insert.
      repeat case_decide; subst; try done.
      * intros [= <-] Hk. specialize (Hlt _ _ Hk). lia.
      * intros Hk [= <-]. specialize (Hlt _ _ Hk). lia.
      * apply Hinj.
Qed.

Lemma create_keeps data update m k a :
  _instances m !! k = Some a ->
  _instances (snd (create data update m)) !! k = Some a.
Proof.
  intros Hk. destruct (create_instances data update m) as [E|(Hnone & E & _)];
    rewrite E; [done|].
  rewrite lookup_insert_ne; [done|]. intros <-. congruence.
Qed.

Lemma registryOk_createAll tokens update m :
  registryOk m -> registryOk (createAll tokens update m).
Proof.
  revert m. induction tokens as [|data rest IH]; intros m Hm; [done|].
  simpl. apply IH. by apply registryOk_create.
Qed.

Lemma createAll_keeps tokens update m k a :
  _instances m !! k = Some a ->
  _instances (createAll tokens update m) !! k = Some a.
Proof.
  revert m. induction tokens as [|data rest IH]; intros m Hk; [done|].
  simpl. apply IH. by apply create_keeps.
Qed.

End Registry.

(** C10.  [create] returns a null handle exactly when the parsed asset id
    is zero: ["0:123"] gives null, and a token of two fields whose first
    field converts to a non-zero number gives a handle whatever its second
    field is, as ["5:abc"] and ["5:"] do. *)
Theorem C10_create_null_iff_id_zero (data : QString) (update : Callback)
    (m : CustomEmojiManager.Manager) :
  (fst (CustomEmojiManager.create data update m) = None
   <-> id (ParseCustomEmojiData data) = 0)
  /\ fst (CustomEmojiManager.create "0:123" update m) = None
  /\ (forall c0 c1, split ":" data = [c0; c1] -> toULongLong c0 <> 0 ->
        is_Some (fst (CustomEmojiManager.create data update m)))
  /\ is_Some (fst (CustomEmojiManager.create "5:abc" update m))
  /\ is_Some (fst (CustomEmojiManager.create "5:" update m)).
Proof.
  assert (Hsome : forall d, id (ParseCustomEmojiData d) <> 0 ->
            is_Some (fst (CustomEmojiManager.create d update m))).
  { intros d Hd. destruct (create_handle d update m Hd) as (a & -> & _). by eexists. }
  split; [|split; [|split; [|split]]].
  - split.
    + intros Hnull. destruct (N.eq_dec (id (ParseCustomEmojiData data)) 0) as [|Hne];
        [done|].
      destruct (Hsome _ Hne) as [o Ho]. congruence.
    + intros Hz. by rewrite create_null.
  - by rewrite create_null.
  - intros c0 c1 Hsplit Hc0. apply Hsome.
    by rewrite (parse_two_fields _ _ _ Hsplit).
  - by apply Hsome.
  - by apply Hsome.
Qed.

Lemma C10_create_witness :
  is_Some (fst (CustomEmojiManager.create "12:zz" 1%nat
                  (CustomEmojiManager.init blankSession))).
Proof.
  apply (proj1 (proj2 (proj2
           (C10_create_null_iff_id_zero "12:zz" 1%nat
              (CustomEmojiManager.init blankSession)))) "12"%string "zz"%string).
  - reflexivity.
  - vm_compute. discriminate.
Defined.

(** C4, as stated, fails: the token ["5:abc"] is malformed (its owner field
    is not a number), yet it parses to a non-empty identifier and [create]
    returns a handle for it. *)
Lemma C4_counterexample :
  ~ (forall data update m,
       malformed data = true ->
       ParseCustomEmojiData data = emptyId
       /\ fst (CustomEmojiManager.create data update m) = None).
Proof.
  intros H.
  destruct (H "5:abc"%string 1%nat (CustomEmojiManager.init blankSession)) as [Hp _];
    [reflexivity|].
  vm_compute in Hp. discriminate.
Qed.

(** C4, amended.  A token that does not split into exactly two fields parses
    to the empty identifier, a token whose asset-id field does not convert
    parses to asset id 0, and in both cases [create] returns null and leaves
    the manager as it was; a field that fails to convert reads as 0. *)
Theorem C4_malformed_tokens (data : QString) (update : Callback)
    (m : CustomEmojiManager.Manager) :
  (length (split ":" data) <> 2%nat ->
     ParseCustomEmojiData data = emptyId
     /\ CustomEmojiManager.create data update m = (None, m))
  /\ (forall c0 c1, split ":" data = [c0; c1] -> toULongLong_ok c0 = None ->
        id (ParseCustomEmojiData data) = 0
        /\ CustomEmojiManager.create data update m = (None, m))
  /\ (forall c0 c1, split ":" data = [c0; c1] -> toULongLong_ok c1 = None ->
        selfId (ParseCustomEmojiData data) = 0).
Proof.
  split; [|split].
  - intros Hn. pose proof (parse_wrong_count _ Hn) as Hp.
    split; [done|]. apply create_null. by rewrite Hp.
  - intros c0 c1 Hs Hc0.
    assert (Hz : id (ParseCustomEmojiData data) = 0).
    { rewrite (parse_two_fields _ _ _ Hs). simpl. unfold toULongLong. by rewrite Hc0. }
    split; [done|]. by apply create_null.
  - intros c0 c1 Hs Hc1.
    rewrite (parse_two_fields _ _ _ Hs). simpl. unfold toULongLong. by rewrite Hc1.
Qed.

Lemma C4_malformed_witness :
  (ParseCustomEmojiData "1:2:3" = emptyId
   /\ CustomEmojiManager.create "1:2:3" 1%nat (CustomEmojiManager.init blankSession)
      = (None, CustomEmojiManager.init blankSession))
  /\ (id (ParseCustomEmojiData "x7:9") = 0
      /\ CustomEmojiManager.create "x7:9" 1%nat (CustomEmojiManager.init blankSession)
         = (None, CustomEmojiManager.init blankSession)).
Proof.
  split.
  - apply (proj1 (C4_malformed_tokens "1:2:3" 1%nat
                    (CustomEmojiManager.init blankSession))).
    vm_compute. discriminate.
  - apply (proj1 (proj2 (C4_malformed_tokens "x7:9" 1%nat
                           (CustomEmojiManager.init blankSession)))
             "x7"%string "9"%string); reflexivity.
Defined.

(** C7, as stated, fails: ["5:1"] and ["5:2"] denote different identifiers
    (the owners differ), yet both handles are bound to one [Instance]. *)
Lemma C7_counterexample :
  ~ (forall d1 d2 u1 u2 m,
       registryOk m ->
       id (ParseCustomEmojiData d1) <> 0 -> id (ParseCustomEmojiData d2) <> 0 ->
       exists h1 h2,
         fst (CustomEmojiManager.create d1 u1 m) = Some h1
         /\ fst (CustomEmojiManager.create d2 u2
                   (snd (CustomEmojiManager.create d1 u1 m))) = Some h2
         /\ (CustomEmojiManager.instance h1 = CustomEmojiManager.instance h2
             <-> ParseCustomEmojiData d1 = ParseCustomEmojiData d2)).
Proof.
  intros H.
  destruct (H "5:1"%string "5:2"%string 1%nat 2%nat
              (CustomEmojiManager.init blankSession))
    as (h1 & h2 & E1 & E2 & Hiff).
  - apply registryOk_init.
  - vm_compute. discriminate.
  - vm_compute. discriminate.
  - vm_compute in E1. vm_compute in E2.
    injection E1 as <-. injection E2 as <-.
    destruct Hiff as [Hiff _]. specialize (Hiff eq_refl).
    vm_compute in Hiff. discriminate.
Qed.

(** C7, amended.  The registry is keyed by the asset id alone: two [create]
    calls (with any other [create] calls in between) return handles bound to
    the same [Instance] exactly when their tokens carry the same non-zero
    asset id, whatever the owner fields are. *)
Theorem C7_registry_keyed_by_asset_id (d1 d2 : QString) (u1 u2 : Callback)
    (between : list QString) (m : CustomEmojiManager.Manager) :
  registryOk m ->
  id (ParseCustomEmojiData d1) <> 0 -> id (ParseCustomEmojiData d2) <> 0 ->
  exists h1 h2,
    fst (CustomEmojiManager.create d1 u1 m) = Some h1
    /\ fst (CustomEmojiManager.create d2 u2
              (CustomEmojiManager.createAll between u1
                 (snd (CustomEmojiManager.create d1 u1 m)))) = Some h2
    /\ (CustomEmojiManager.instance h1 = CustomEmojiManager.instance h2
        <-> id (ParseCustomEmojiData d1) = id (ParseCustomEmojiData d2)).
Proof.
  intros Hok H1 H2.
  destruct (create_handle d1 u1 m H1) as (a1 & E1 & Hin1 & _).
  set (m1 := snd (CustomEmojiManager.create d1 u1 m)) in *.
  set (m2 := CustomEmojiManager.createAll between u1 m1).
  assert (Hok2 : registryOk m2).
  { apply registryOk_createAll. by apply registryOk_create. }
  assert (Hin2 : CustomEmojiManager._instances m2 !! id (ParseCustomEmojiData d1)
                 = Some a1) by by apply createAll_keeps.
  destruct (create_handle d2 u2 m2 H2) as (a2 & E2 & _ & Hcase).
  exists {| CustomEmojiManager.instance := a1; CustomEmojiManager.update := u1 |},
         {| CustomEmojiManager.instance := a2; CustomEmojiManager.update := u2 |}.
  split; [done|]. split; [done|]. simpl.
  destruct Hok2 as [Hlt Hinj]. split.
  - intros <-. destruct Hcase as [Hold|[_ Hnew]].
    + by apply (Hinj _ _ a1).
    + specialize (Hlt _ _ Hin2). lia.
  - intros Heq. rewrite <- Heq in Hcase.
    destruct Hcase as [Hold|[Hnone _]]; congruence.
Qed.

Lemma C7_registry_witness :
  exists h1 h2,
    fst (CustomEmojiManager.create "5:1" 1%nat (CustomEmojiManager.init blankSession))
    = Some h1
    /\ fst (CustomEmojiManager.create "5:2" 2%nat
              (CustomEmojiManager.createAll ["9:1"%string] 1%nat
                 (snd (CustomEmojiManager.create "5:1" 1%nat
                         (CustomEmojiManager.init blankSession))))) = Some h2
    /\ (CustomEmojiManager.instance h1 = CustomEmojiManager.instance h2
        <-> id (ParseCustomEmojiData "5:1") = id (ParseCustomEmojiData "5:2")).
Proof.
  apply (C7_registry_keyed_by_asset_id "5:1" "5:2" 1%nat 2%nat ["9:1"%string]
           (CustomEmojiManager.init blankSession)).
  - apply registryOk_init.
  - vm_compute. discriminate.
  - vm_compute. discriminate.
Defined.

(** ** The loader *)

Section Loader.

Import CustomEmojiLoader.



(** A load on a loader that already waits only replaces the callback. *)
Lemma load_in_flight s f l :
  loading l = true -> load s f l = Some (replaceCallback f l, []).
Proof.
  unfold loading, load, replaceCallback.
  destruct l as [[requested ed|d [p|]|d [p|]] tag]; simpl; try done.
Qed.





(** The first load on an idle loader. *)
Lemma load_idle s cb l :
  loading l = false ->
  exists l1 log1,
    load s (Some cb) l = Some (l1, log1)
    /\ fetches log1 = (if resolving l then 0 else 1)%nat
    /\ resolving l1 = resolving l
    /\ (invokedCallbacks log1 = [] -> loading l1 = true /\ held l1 = Some cb).
Proof.
  unfold loading, load.
  destruct l as [[requested ed|d [p|]|d [p|]] tag]; simpl; try done.
  - intros _. by eexists _, _.
  - intros _. unfold startCacheLookup.
    destruct (negb (keyValid _)); [|by eexists _, _].
    unfold loadNoCache, loadDecoding, andThen, emit. simpl.
    destruct (mediaLoaded s d); [|by eexists _, _].
    unfold check. simpl.
    destruct (bytesIsEmpty s d && filepathIsEmpty s d); simpl; by eexists _, _.
  - intros _. unfold loadDecoding, andThen, emit. simpl.
    destruct (mediaLoaded s d); [|by eexists _, _].
    unfold check. simpl.
    destruct (bytesIsEmpty s d && filepathIsEmpty s d); simpl; by eexists _, _.
Qed.

Lemma load_total s cb l : is_Some (load s (Some cb) l).
Proof.
  destruct (loading l) eqn:E.
  - rewrite load_in_flight by done. by eexists.
  - destruct (load_idle s cb l E) as (l1 & log1 & -> & _). by eexists.
Qed.


End Loader.

Section LoaderCompletion.

Import CustomEmojiLoader.





End LoaderCompletion.






(** C9.  [cancel] discards the process in flight, telling the document to
    cancel only in the decoding state; with no process in flight it changes
    nothing and tells nobody, so a second [cancel] in a row is a no-op. *)
Theorem C9_cancel_idempotent (l : CustomEmojiLoader.Loader) :
  (forall d p,
     CustomEmojiLoader._state l = CustomEmojiLoader.Lookup d (Some p) ->
     CustomEmojiLoader.cancel l
     = (CustomEmojiLoader.setState l (CustomEmojiLoader.Lookup d None), []))
  /\ (forall d p,
        CustomEmojiLoader._state l = CustomEmojiLoader.Load d (Some p) ->
        CustomEmojiLoader.cancel l
        = (CustomEmojiLoader.setState l (CustomEmojiLoader.Load d None),
           [DocumentCancel d]))
  /\ (inFlight l = None -> CustomEmojiLoader.cancel l = (l, []))
  /\ inFlight (fst (CustomEmojiLoader.cancel l)) = None
  /\ CustomEmojiLoader.cancel (fst (CustomEmojiLoader.cancel l))
     = (fst (CustomEmojiLoader.cancel l), []).
Proof.
  unfold CustomEmojiLoader.cancel, inFlight.
  destruct l as [[requested ed|d [p|]|d [p|]] tag]; simpl;
    repeat split; try done; intros; simplify_eq; done.
Qed.

Lemma C9_cancel_witness :
  CustomEmojiLoader.cancel
    {| CustomEmojiLoader._state :=
         CustomEmojiLoader.Load 7
           (Some {| CustomEmojiLoader.media := Some 7;
                    CustomEmojiLoader.loaded := Some 1%nat;
                    CustomEmojiLoader.subscribed := true |});
       CustomEmojiLoader._tag := Large |}
  = ({| CustomEmojiLoader._state := CustomEmojiLoader.Load 7 None;
        CustomEmojiLoader._tag := Large |}, [DocumentCancel 7])
  /\ CustomEmojiLoader.cancel
       {| CustomEmojiLoader._state := CustomEmojiLoader.Load 7 None;
          CustomEmojiLoader._tag := Large |}
     = ({| CustomEmojiLoader._state := CustomEmojiLoader.Load 7 None;
           CustomEmojiLoader._tag := Large |}, []).
Proof.
  split.
  - exact (proj1 (proj2 (C9_cancel_idempotent
             {| CustomEmojiLoader._state :=
                  CustomEmojiLoader.Load 7
                    (Some {| CustomEmojiLoader.media := Some 7;
                             CustomEmojiLoader.loaded := Some 1%nat;
                             CustomEmojiLoader.subscribed := true |});
                CustomEmojiLoader._tag := Large |})) 7
             {| CustomEmojiLoader.media := Some 7;
                CustomEmojiLoader.loaded := Some 1%nat;
                CustomEmojiLoader.subscribed := true |} eq_refl).
  - exact (proj1 (proj2 (proj2 (C9_cancel_idempotent
             {| CustomEmojiLoader._state := CustomEmojiLoader.Load 7 None;
                CustomEmojiLoader._tag := Large |}))) eq_refl).
Defined.

(** ** Batched requests *)

Section FlatSet.

Lemma emplace_elem x y s : y ∈ emplace x s <-> y = x \/ y ∈ s.
Proof.
  unfold emplace. case_bool_decide as Hin.
  - split; [tauto|]. by intros [->|].
  - rewrite elem_of_app, list_elem_of_singleton. tauto.
Qed.

(** An id that is new to the set goes to its end. *)
Lemma emplace_fresh x s : x ∉ s -> emplace x s = s ++ [x].
Proof. intros Hx. unfold emplace. by rewrite bool_decide_false. Qed.

Lemma emplace_perm x s : x ∉ s -> emplace x s ≡ₚ x :: s.
Proof.
  intros Hx. rewrite (emplace_fresh x s Hx). by rewrite Permutation_app_comm.
Qed.

End FlatSet.

Section Requests.

Import CustomEmojiLoader CustomEmojiManager.

Lemma rev_last_removelast (pending : list N) (d : N) :
  pending <> [] ->
  rev pending = List.last pending d :: rev (removelast pending).
Proof.
  intros Hne. rewrite (app_removelast_last d Hne) at 1.
  by rewrite rev_app_distr.
Qed.

(** The loop moves the last keys of the set, last first, until the batch
    is full or the rounds are used up. *)
Lemma drain_spec rounds pending ids :
  drain rounds pending ids
  = (rev (drop (min rounds (kMaxPerRequest - length ids)) (rev pending)),
     ids ++ take (min rounds (kMaxPerRequest - length ids)) (rev pending)).
Proof.
  revert pending ids. induction rounds as [|rounds IH]; intros pending ids.
  - rewrite Nat.min_0_l, drop_0, take_0. simpl.
    by rewrite rev_involutive, app_nil_r.
  - destruct pending as [|first rest].
    { cbn [drain rev]. by rewrite drop_nil, take_nil, app_nil_r. }
    cbn [drain]. set (pending := first :: rest).
    assert (Hne : pending <> []) by done.
    destruct (length ids <? kMaxPerRequest)%nat eqn:Hfull.
    + apply Nat.ltb_lt in Hfull. rewrite IH, length_app. simpl length.
      rewrite (rev_last_removelast pending first Hne).
      replace (min (S rounds) (kMaxPerRequest - length ids))
        with (S (min rounds (kMaxPerRequest - (length ids + 1)))) by lia.
      simpl. by rewrite <- app_assoc.
    + apply Nat.ltb_ge in Hfull.
      replace (min (S rounds) (kMaxPerRequest - length ids)) with 0%nat by lia.
      rewrite drop_0, take_0. by rewrite rev_involutive, app_nil_r.
Qed.

Lemma drain_all pending :
  drain (length pending) pending []
  = (rev (drop kMaxPerRequest (rev pending)), take kMaxPerRequest (rev pending)).
Proof.
  rewrite drain_spec. simpl length. rewrite Nat.sub_0_r.
  destruct (Nat.le_ge_cases (length pending) kMaxPerRequest) as [Hle|Hge].
  - rewrite Nat.min_l by done.
    rewrite !drop_ge, !take_ge by (rewrite length_rev; lia). done.
  - by rewrite Nat.min_r by done.
Qed.

Lemma take_rev_nonempty (pending : list N) :
  pending <> [] -> take kMaxPerRequest (rev pending) <> [].
Proof.
  intros Hne Hnil. apply (f_equal length) in Hnil.
  rewrite length_take, length_rev in Hnil. simpl in Hnil.
  destruct pending; [done|]. simpl in Hnil. unfold kMaxPerRequest in Hnil. lia.
Qed.

(** What [request] does when the set is not empty. *)
Lemma request_spec m :
  _pendingForRequest m <> [] ->
  sent (request m) = sent m ++ [take kMaxPerRequest (rev (_pendingForRequest m))]
  /\ _pendingForRequest (request m)
     = rev (drop kMaxPerRequest (rev (_pendingForRequest m)))
  /\ _requestId (request m) = S (length (sent m)).
Proof.
  intros Hne. unfold request. rewrite drain_all.
  pose proof (take_rev_nonempty _ Hne) as Hb.
  destruct (take kMaxPerRequest (rev (_pendingForRequest m))); [done|].
  by simpl.
Qed.

Lemma request_fields m :
  _loaders (request m) = _loaders m /\ heap (request m) = heap m
  /\ allocated (request m) = allocated m /\ _instances (request m) = _instances m
  /\ _owner (request m) = _owner m /\ posted (request m) = posted m.
Proof. unfold request. by destruct (drain _ _ _). Qed.

Lemma requestFinished_spec m :
  (_pendingForRequest m <> [] ->
     sent (requestFinished m)
     = sent m ++ [take kMaxPerRequest (rev (_pendingForRequest m))]
     /\ _pendingForRequest (requestFinished m)
        = rev (drop kMaxPerRequest (rev (_pendingForRequest m)))
     /\ _requestId (requestFinished m) = S (length (sent m)))
  /\ (_pendingForRequest m = [] ->
        sent (requestFinished m) = sent m
        /\ _pendingForRequest (requestFinished m) = []
        /\ _requestId (requestFinished m) = 0%nat).
Proof.
  unfold requestFinished. simpl.
  destruct (_pendingForRequest m) as [|x rest] eqn:E; split; try done.
  intros _.
  match goal with |- context [request ?m0] => pose proof (request_spec m0) as H end.
  simpl in H. by apply H.
Qed.

Lemma requestFinished_fields m :
  _loaders (requestFinished m) = _loaders m /\ heap (requestFinished m) = heap m
  /\ allocated (requestFinished m) = allocated m.
Proof.
  unfold requestFinished. simpl.
  destruct (_pendingForRequest m); [done|].
  match goal with |- context [request ?m0] =>
    destruct (request_fields m0) as (-> & -> & -> & _) end.
  done.
Qed.

End Requests.

Section Batches.

Import CustomEmojiLoader CustomEmojiManager.

Lemma batch_split (pending : list N) :
  rev (drop kMaxPerRequest (rev pending))
    ++ rev (take kMaxPerRequest (rev pending)) = pending.
Proof.
  by rewrite <- rev_app_distr, take_drop, rev_involutive.
Qed.

Lemma create_pending data update m :
  _pendingForRequest (snd (create data update m)) = _pendingForRequest m
  \/ _pendingForRequest (snd (create data update m))
     = emplace (id (ParseCustomEmojiData data)) (_pendingForRequest m).
Proof.
  unfold create. destruct (id (ParseCustomEmojiData data) =? 0); [by left|].
  destruct (_instances m !! id (ParseCustomEmojiData data)); [by left|].
  simpl. destruct (resolving _); [by right|by left].
Qed.

(** What [create] does to the queue for an id that is new to the registry
    and unknown to the session. *)
Lemma create_queues data update m :
  id (ParseCustomEmojiData data) <> 0 ->
  sticker (_owner m) (id (ParseCustomEmojiData data)) = false ->
  _instances m !! id (ParseCustomEmojiData data) = None ->
  _pendingForRequest (snd (create data update m))
  = emplace (id (ParseCustomEmojiData data)) (_pendingForRequest m)
  /\ _owner (snd (create data update m)) = _owner m
  /\ _instances (snd (create data update m))
     = <[id (ParseCustomEmojiData data) := allocated m]> (_instances m).
Proof.
  intros Hid Hst Hnone. unfold create.
  apply N.eqb_neq in Hid. rewrite Hid, Hnone.
  unfold resolving, fromId, InitialState. rewrite Hst. by simpl.
Qed.

(** New ids line up behind the pending ones in the order of the calls. *)
Lemma createAll_appends tokens update m :
  NoDup (tokenIds tokens) ->
  (forall k, k ∈ tokenIds tokens ->
     k <> 0 /\ sticker (_owner m) k = false /\ _instances m !! k = None
     /\ k ∉ _pendingForRequest m) ->
  _pendingForRequest (createAll tokens update m)
  = _pendingForRequest m ++ tokenIds tokens.
Proof.
  revert m. induction tokens as [|data rest IH]; intros m Hnd Hnew.
  - simpl. by rewrite app_nil_r.
  - simpl in Hnd. apply NoDup_cons in Hnd as [Hdata Hnd].
    destruct (Hnew (id (ParseCustomEmojiData data))) as (Hid & Hst & Hnone & Hpend);
      [by left|].
    destruct (create_queues data update m Hid Hst Hnone) as (Ep & Eo & Ei).
    change (createAll (data :: rest) update m)
      with (createAll rest update (snd (create data update m))).
    rewrite IH; [|done|].
    + rewrite Ep, (emplace_fresh _ _ Hpend), <- app_assoc. done.
    + intros j Hj. destruct (Hnew j) as (Hj0 & Hjs & Hjn & Hjp); [by right|].
      assert (j <> id (ParseCustomEmojiData data)) by (intros ->; done).
      split; [done|]. split; [by rewrite Eo|]. split.
      * by rewrite Ei, lookup_insert_ne.
      * rewrite Ep, emplace_elem. tauto.
Qed.

End Batches.

(** C2.  Every batch that [request] sends holds at most 100 ids, drained
    from the back of the pending set, where the ids stand in the order in
    which they were added: ids that are new to the manager and unknown to
    the session are added at the back, one for each [create], and the
    batch lists the ids added last, the newest first, while the ids added
    before them stay pending. *)
Theorem C2_batch_at_most_100_most_recent_first (m : CustomEmojiManager.Manager)
    (tokens : list QString) (update : Callback) :
  tokens <> [] ->
  NoDup (tokenIds tokens) ->
  (forall k, k ∈ tokenIds tokens ->
     k <> 0 /\ sticker (CustomEmojiManager._owner m) k = false
     /\ CustomEmojiManager._instances m !! k = None
     /\ k ∉ CustomEmojiManager._pendingForRequest m) ->
  let m' := CustomEmojiManager.createAll tokens update m in
  CustomEmojiManager._pendingForRequest m'
  = CustomEmojiManager._pendingForRequest m ++ tokenIds tokens
  /\ (exists batch,
        CustomEmojiManager.sent (CustomEmojiManager.request m')
        = CustomEmojiManager.sent m' ++ [batch]
        /\ batch = take CustomEmojiManager.kMaxPerRequest
                     (rev (tokenIds tokens)
                      ++ rev (CustomEmojiManager._pendingForRequest m))
        /\ (0 < length batch <= 100)%nat
        /\ length batch
           = min 100 (length (CustomEmojiManager._pendingForRequest m'))
        /\ CustomEmojiManager._pendingForRequest (CustomEmojiManager.request m')
             ++ rev batch
           = CustomEmojiManager._pendingForRequest m'
        /\ (CustomEmojiManager._pendingForRequest m = [] ->
            batch = mostRecentFirst tokens))
  /\ (forall m0,
        CustomEmojiManager._pendingForRequest m0 <> [] ->
        exists batch,
          CustomEmojiManager.sent (CustomEmojiManager.request m0)
          = CustomEmojiManager.sent m0 ++ [batch]
          /\ batch = take CustomEmojiManager.kMaxPerRequest
                       (rev (CustomEmojiManager._pendingForRequest m0))
          /\ (0 < length batch <= 100)%nat
          /\ length batch
             = min 100 (length (CustomEmojiManager._pendingForRequest m0))
          /\ CustomEmojiManager._pendingForRequest (CustomEmojiManager.request m0)
               ++ rev batch
             = CustomEmojiManager._pendingForRequest m0).
Proof.
  intros Hne Hnd Hnew m'.
  assert (Hbatch : forall m0,
            CustomEmojiManager._pendingForRequest m0 <> [] ->
            exists batch,
              CustomEmojiManager.sent (CustomEmojiManager.request m0)
              = CustomEmojiManager.sent m0 ++ [batch]
              /\ batch = take CustomEmojiManager.kMaxPerRequest
                           (rev (CustomEmojiManager._pendingForRequest m0))
              /\ (0 < length batch <= 100)%nat
              /\ length batch
                 = min 100 (length (CustomEmojiManager._pendingForRequest m0))
              /\ CustomEmojiManager._pendingForRequest
                   (CustomEmojiManager.request m0) ++ rev batch
                 = CustomEmojiManager._pendingForRequest m0).
  { intros m0 Hm0. destruct (request_spec m0 Hm0) as (Hsent & Hpend & _).
    eexists. split; [exact Hsent|]. split; [done|].
    assert (Hlen : length (take CustomEmojiManager.kMaxPerRequest
                             (rev (CustomEmojiManager._pendingForRequest m0)))
                   = min 100 (length (CustomEmojiManager._pendingForRequest m0))).
    { by rewrite length_take, length_rev. }
    split.
    { rewrite Hlen. destruct (CustomEmojiManager._pendingForRequest m0); [done|].
      simpl length. lia. }
    split; [done|]. rewrite Hpend. apply batch_split. }
  pose proof (createAll_appends tokens update m Hnd Hnew) as Hpending.
  fold m' in Hpending. split; [done|]. split; [|done].
  destruct (Hbatch m') as (batch & Hsent & Hb & Hsize & Hlen & Hrest).
  { rewrite Hpending. destruct tokens; [done|]. simpl.
    by destruct (CustomEmojiManager._pendingForRequest m). }
  exists batch. split; [done|]. split.
  { by rewrite Hb, Hpending, rev_app_distr. }
  split; [done|]. split; [done|]. split; [done|].
  intros Hnil. rewrite Hb, Hpending, Hnil. done.
Qed.

Lemma C2_batch_witness :
  exists batch,
    CustomEmojiManager.sent
      (CustomEmojiManager.request
         (CustomEmojiManager.createAll ["5:1"; "3:1"; "9:1"]%string 1%nat
            (CustomEmojiManager.init blankSession)))
    = [batch]
    /\ batch = [9; 3; 5]
    /\ batch = mostRecentFirst ["5:1"; "3:1"; "9:1"]%string.
Proof.
  destruct (C2_batch_at_most_100_most_recent_first
              (CustomEmojiManager.init blankSession)
              ["5:1"; "3:1"; "9:1"]%string 1%nat)
    as (_ & (batch & Hsent & Hbatch & _ & _ & _ & Hrecent) & _).
  - done.
  - apply (bool_decide_unpack _). vm_compute. exact I.
  - intros k Hk. split.
    + intros ->. revert Hk. apply (bool_decide_unpack _). vm_compute. exact I.
    + split; [done|]. split; [apply lookup_empty|apply not_elem_of_nil].
  - exists batch. split; [exact Hsent|]. split; [by rewrite Hbatch|].
    by apply Hrecent.
Defined.

Section Replies.

Import CustomEmojiLoader CustomEmojiManager.

Lemma sameQueue_refl m : sameQueue m m.
Proof. by repeat split. Qed.

Lemma sameQueue_trans m1 m2 m3 :
  sameQueue m1 m2 -> sameQueue m2 m3 -> sameQueue m1 m3.
Proof.
  intros (?&?&?&?&?&?) (?&?&?&?&?&?). repeat split; congruence.
Qed.

Lemma resolved_defined s d l :
  resolving l = true -> is_Some (resolved s d l).
Proof.
  unfold resolved, resolving.
  destruct l as [[[cb|] ed|d' p|d' p] tag]; simpl; try done; intros _;
    first [apply load_total|by eexists].
Qed.

Lemma resolveWeak_ok d w m :
  (forall l, heap m !! w = Some l -> resolving l = true) ->
  exists m', resolveWeak d w m = Some m'
    /\ sameQueue m m'
    /\ _loaders m' = _loaders m
    /\ (forall a, a <> w -> heap m' !! a = heap m !! a).
Proof.
  intros Hres. unfold resolveWeak.
  destruct (heap m !! w) as [l|] eqn:E.
  - destruct (resolved_defined (_owner m) d l (Hres l eq_refl)) as [[l' es] ->].
    eexists. split; [done|]. split; [by repeat split|]. split; [done|].
    intros a Ha. simpl. by rewrite lookup_insert_ne.
  - exists m. split; [done|]. split; [apply sameQueue_refl|]. done.
Qed.

Lemma forEach_resolveWeak_ok d ws m :
  NoDup ws ->
  (forall w l, w ∈ ws -> heap m !! w = Some l -> resolving l = true) ->
  exists m', forEach (resolveWeak d) ws m = Some m'
    /\ sameQueue m m'
    /\ _loaders m' = _loaders m
    /\ (forall a, a ∉ ws -> heap m' !! a = heap m !! a).
Proof.
  revert m. induction ws as [|w ws IH]; intros m Hnd Hres.
  - exists m. split; [done|]. split; [apply sameQueue_refl|]. done.
  - apply NoDup_cons in Hnd as [Hw Hnd].
    destruct (resolveWeak_ok d w m) as (m1 & E1 & Hq1 & Hl1 & Hh1).
    { intros l. apply Hres. by left. }
    destruct (IH m1 Hnd) as (m2 & E2 & Hq2 & Hl2 & Hh2).
    { intros w' l Hw'. rewrite Hh1 by (intros ->; done).
      apply Hres. by right. }
    exists m2. simpl. rewrite E1. split; [done|].
    split; [by apply (sameQueue_trans _ m1)|]. split; [congruence|].
    intros a Ha. apply not_elem_of_cons in Ha as [Hne Ha].
    by rewrite Hh2, Hh1.
Qed.

(** Taking the loaders of a document out of [_loaders] and changing only
    their objects keeps the other waiters as they were. *)
Lemma loadersOk_take d m m' :
  _loaders m' = delete d (_loaders m) ->
  allocated m' = allocated m ->
  (forall a, (forall ws, _loaders m !! d = Some ws -> a ∉ ws) ->
             heap m' !! a = heap m !! a) ->
  loadersOk m -> loadersOk m'.
Proof.
  intros Hl Ha Hh Hok k ws. rewrite Hl, lookup_delete_Some. intros [Hk Hws].
  destruct (Hok k ws Hws) as (Hnd & Hres & Hlt & Huniq).
  split; [done|]. split; [|split].
  - intros w l Hw. rewrite Hh; [by apply Hres|].
    intros ws' Hws' Hin. by destruct (Huniq d ws' w Hws' Hw Hin).
  - intros w Hw. rewrite Ha. by apply Hlt.
  - intros k' ws' w. rewrite lookup_delete_Some. intros [_ Hws']. by apply Huniq.
Qed.

Lemma processEntry_ok entry m :
  loadersOk m ->
  exists m', processEntry entry m = Some m' /\ sameQueue m m' /\ loadersOk m'.
Proof.
  intros Hok. unfold processEntry, processDocument.
  destruct (_loaders m !! entryId entry) as [ws|] eqn:E.
  - destruct (Hok _ _ E) as (Hnd & Hres & _).
    match goal with |- context [forEach _ ws ?m1] =>
      destruct (forEach_resolveWeak_ok (entryId entry) ws m1 Hnd Hres)
        as (m' & E' & Hq & Hl & Hh) end.
    exists m'. split; [done|]. split.
    + destruct Hq as (?&?&?&?&?&?). by repeat split.
    + apply (loadersOk_take (entryId entry) m); [done| |  |done].
      * by destruct Hq as (?&?&?&?&?&?).
      * intros a Ha. rewrite Hh; [done|]. by apply Ha.
  - eexists. split; [done|]. split; [by repeat split|].
    by apply (loadersOk_take (entryId entry) m).
Qed.

Lemma forEach_processEntry_ok result m :
  loadersOk m ->
  exists m', forEach processEntry result m = Some m'
    /\ sameQueue m m' /\ loadersOk m'.
Proof.
  revert m. induction result as [|entry result IH]; intros m Hok.
  - exists m. split; [done|]. split; [apply sameQueue_refl|done].
  - destruct (processEntry_ok entry m Hok) as (m1 & E1 & Hq1 & Hok1).
    destruct (IH m1 Hok1) as (m2 & E2 & Hq2 & Hok2).
    exists m2. simpl. rewrite E1. split; [done|].
    split; [by apply (sameQueue_trans _ m1)|done].
Qed.

Lemma loadersOk_ext m m' :
  _loaders m' = _loaders m -> heap m' = heap m -> allocated m' = allocated m ->
  loadersOk m -> loadersOk m'.
Proof. intros Hl Hh Ha Hok k ws. rewrite Hl, Hh, Ha. apply Hok. Qed.

Lemma loadersOk_requestFinished m : loadersOk m -> loadersOk (requestFinished m).
Proof.
  destruct (requestFinished_fields m) as (Hl & Hh & Ha).
  by apply loadersOk_ext.
Qed.

(** Chaining: however a request ends, the handler returns and, if ids are
    still pending, has sent the next batch. *)
Lemma complete_ok reply m :
  loadersOk m ->
  exists m', complete reply m = Some m'
    /\ loadersOk m'
    /\ (_pendingForRequest m <> [] ->
          sent m' = sent m ++ [take kMaxPerRequest (rev (_pendingForRequest m))]
          /\ _pendingForRequest m'
             = rev (drop kMaxPerRequest (rev (_pendingForRequest m)))
          /\ _requestId m' = S (length (sent m)))
    /\ (_pendingForRequest m = [] ->
          sent m' = sent m /\ _pendingForRequest m' = []
          /\ _requestId m' = 0%nat).
Proof.
  intros Hok. destruct reply as [result|]; simpl; unfold done, fail.
  - destruct (forEach_processEntry_ok result m Hok) as (m1 & -> & Hq & Hok1).
    exists (requestFinished m1). split; [done|].
    split; [by apply loadersOk_requestFinished|].
    destruct Hq as (Hp & _ & Hs & _).
    destruct (requestFinished_spec m1) as [H1 H2].
    rewrite Hp, Hs in H1, H2. by split.
  - exists (requestFinished m). split; [done|].
    split; [by apply loadersOk_requestFinished|].
    apply requestFinished_spec.
Qed.

End Replies.

Section Creation.

Import CustomEmojiLoader CustomEmojiManager.

Lemma loadersOk_init s : loadersOk (init s).
Proof. intros k ws. simpl. by rewrite lookup_empty. Qed.

Lemma loadersOk_default key m :
  loadersOk m ->
  NoDup (default [] (_loaders m !! key))
  /\ (forall w l, w ∈ default [] (_loaders m !! key) ->
                  heap m !! w = Some l -> resolving l = true)
  /\ (forall w, w ∈ default [] (_loaders m !! key) -> (w < allocated m)%nat)
  /\ (forall k' ws' w, _loaders m !! k' = Some ws' ->
                       w ∈ default [] (_loaders m !! key) -> w ∈ ws' -> key = k').
Proof.
  intros Hok. destruct (_loaders m !! key) as [old|] eqn:E; simpl.
  - by apply Hok.
  - split; [constructor|]. repeat split; intros *; try rewrite elem_of_nil; done.
Qed.

(** A new object at the next address leaves the waiters as they are. *)
Lemma loadersOk_allocate m m' loader :
  _loaders m' = _loaders m ->
  heap m' = <[allocated m := loader]> (heap m) ->
  allocated m' = S (allocated m) ->
  loadersOk m -> loadersOk m'.
Proof.
  intros Hl Hh Ha Hok k ws. rewrite Hl. intros Hws.
  destruct (Hok k ws Hws) as (Hnd & Hres & Hlt & Huniq).
  split; [done|]. split; [|split].
  - intros w l Hw. specialize (Hlt w Hw).
    rewrite Hh, lookup_insert_ne by lia. by apply Hres.
  - intros w Hw. specialize (Hlt w Hw). lia.
  - exact Huniq.
Qed.

Lemma loadersOk_enqueue key m m' loader :
  _loaders m' = <[key := default [] (_loaders m !! key) ++ [allocated m]]> (_loaders m) ->
  heap m' = <[allocated m := loader]> (heap m) ->
  allocated m' = S (allocated m) ->
  resolving loader = true ->
  loadersOk m -> loadersOk m'.
Proof.
  intros Hl Hh Ha Hr Hok.
  destruct (loadersOk_default key m Hok) as (Hnd0 & Hres0 & Hlt0 & Huniq0).
  intros k ws. rewrite Hl, lookup_insert. case_decide as Hk.
  - intros [= <-]. subst k. split; [|split; [|split]].
    + apply NoDup_app. split; [done|]. split; [|apply NoDup_singleton].
      intros w Hw. rewrite list_elem_of_singleton. specialize (Hlt0 w Hw). lia.
    + intros w l. rewrite elem_of_app, list_elem_of_singleton, Hh.
      intros [Hw| ->].
      * specialize (Hlt0 w Hw). rewrite lookup_insert_ne by lia. by apply Hres0.
      * rewrite lookup_insert_eq. by intros [= <-].
    + intros w. rewrite elem_of_app, list_elem_of_singleton, Ha.
      intros [Hw| ->]; [specialize (Hlt0 w Hw)|]; lia.
    + intros k' ws' w. rewrite lookup_insert. case_decide as Hk'; [done|].
      intros Hws'. destruct (Hok k' ws' Hws') as (_ & _ & Hlt' & _).
      rewrite elem_of_app, list_elem_of_singleton.
      intros [Hw| ->] Hw'; [by apply (Huniq0 k' ws' w)|].
      specialize (Hlt' _ Hw'). lia.
  - intros Hws. destruct (Hok k ws Hws) as (Hnd & Hres & Hlt & Huniq).
    split; [done|]. split; [|split].
    + intros w l Hw. specialize (Hlt w Hw).
      rewrite Hh, lookup_insert_ne by lia. by apply Hres.
    + intros w Hw. specialize (Hlt w Hw). lia.
    + intros k' ws' w. rewrite lookup_insert. case_decide as Hk'.
      * intros [= <-] Hw. rewrite elem_of_app, list_elem_of_singleton.
        intros [Hw'| ->].
        -- symmetry. subst k'. by apply (Huniq0 k ws w).
        -- specialize (Hlt _ Hw). lia.
      * apply Huniq.
Qed.

Lemma loadersOk_create data update m :
  loadersOk m -> loadersOk (snd (create data update m)).
Proof.
  intros Hok. unfold create.
  destruct (id (ParseCustomEmojiData data) =? 0); [done|].
  destruct (_instances m !! id (ParseCustomEmojiData data)); [done|].
  destruct (resolving (fromId (_owner m) (ParseCustomEmojiData data) Normal)) eqn:R.
  - by eapply (loadersOk_enqueue (id (ParseCustomEmojiData data)) m).
  - by eapply (loadersOk_allocate m).
Qed.


(** [create] for an asset that is new to the registry and not yet known
    to the session. *)
Lemma create_fresh data update m :
  id (ParseCustomEmojiData data) <> 0 ->
  sticker (_owner m) (id (ParseCustomEmojiData data)) = false ->
  _instances m !! id (ParseCustomEmojiData data) = None ->
  let m' := snd (create data update m) in
  _pendingForRequest m'
  = emplace (id (ParseCustomEmojiData data)) (_pendingForRequest m)
  /\ _requestId m' = _requestId m
  /\ sent m' = sent m
  /\ _owner m' = _owner m
  /\ _instances m' = <[id (ParseCustomEmojiData data) := allocated m]> (_instances m)
  /\ posted m'
     = (if Nat.eqb (_requestId m) 0
           && Nat.eqb (length (emplace (id (ParseCustomEmojiData data))
                                 (_pendingForRequest m))) 1
        then S (posted m) else posted m).
Proof.
  intros Hid Hst Hnone. unfold create.
  apply N.eqb_neq in Hid. rewrite Hid, Hnone.
  unfold resolving, fromId, InitialState. rewrite Hst. by simpl.
Qed.

End Creation.

Section Scenario.

Import CustomEmojiLoader CustomEmojiManager.

Lemma emplace_length x s : x ∉ s -> length (emplace x s) = S (length s).
Proof. intros Hx. by rewrite (emplace_perm x s Hx). Qed.


Lemma loadersOk_runPosted m : loadersOk m -> loadersOk (runPosted m).
Proof.
  unfold runPosted.
  match goal with |- context [request ?m0] =>
    destruct (request_fields m0) as (Hl & Hh & Ha & _) end.
  by apply loadersOk_ext.
Qed.

Lemma runPosted_spec m :
  _pendingForRequest m <> [] ->
  sent (runPosted m) = sent m ++ [take kMaxPerRequest (rev (_pendingForRequest m))]
  /\ _pendingForRequest (runPosted m)
     = rev (drop kMaxPerRequest (rev (_pendingForRequest m)))
  /\ _requestId (runPosted m) = S (length (sent m)).
Proof.
  intros Hne. unfold runPosted.
  match goal with |- context [request ?m0] => by apply (request_spec m0) end.
Qed.


Lemma emplace_nonempty x s : emplace x s <> [].
Proof.
  intros Hnil. assert (x ∈ emplace x s) as Hin by (apply emplace_elem; by left).
  rewrite Hnil in Hin. by apply elem_of_nil in Hin.
Qed.





End Scenario.




(** ** Repaints *)

Section Repainting.

Import CustomEmojiManager.

Local Open Scope Z_scope.

Lemma minDue_bounds reps t :
  minDue reps = Some t ->
  (forall entry, entry ∈ reps -> t <= when (snd entry))
  /\ (exists entry, entry ∈ reps /\ when (snd entry) = t).
Proof.
  revert t. induction reps as [|[d bunch] rest IH]; intros t; simpl; [done|].
  destruct (minDue rest) as [t'|] eqn:E.
  - intros [= <-]. destruct (IH t' eq_refl) as [Hle [e [He Het]]]. split.
    + intros entry. rewrite elem_of_cons. intros [->|Hin]; simpl; [lia|].
      specialize (Hle entry Hin). lia.
    + destruct (Z.le_ge_cases (when bunch) t').
      * exists (d, bunch). split; [by left|]. simpl. lia.
      * exists e. split; [by right|]. lia.
  - intros [= <-]. destruct rest as [|[d' b'] rest]; [|simpl in E; by destruct (minDue rest)].
    split.
    + intros entry. rewrite list_elem_of_singleton. intros ->. simpl. lia.
    + exists (d, bunch). split; [by left|done].
Qed.

Lemma minDue_positive reps t : duePositive reps -> minDue reps = Some t -> 0 < t.
Proof.
  intros Hpos Ht. destruct (minDue_bounds reps t Ht) as [_ [e [He <-]]].
  unfold duePositive in Hpos. rewrite Forall_forall in Hpos. by apply Hpos.
Qed.

Lemma minDue_none reps : minDue reps = None -> reps = [].
Proof. destruct reps as [|[d b] rest]; simpl; [done|]. by destruct (minDue rest). Qed.

(** The scan of the posted call finds the minimum due time. *)
Lemma scan_minDue reps acc :
  duePositive reps -> 0 <= acc ->
  fold_left
    (fun next entry =>
       if (next =? 0) || (next >? when (snd entry)) then when (snd entry) else next)
    reps acc
  = match minDue reps with
    | None => acc
    | Some t => if acc =? 0 then t else Z.min acc t
    end.
Proof.
  revert acc. induction reps as [|[d bunch] rest IH]; intros acc Hpos Hacc; [done|].
  apply Forall_cons in Hpos as [Hb Hpos]. simpl in Hb. simpl.
  rewrite IH; [|done|destruct ((acc =? 0) || (acc >? when bunch)); lia].
  pose proof (minDue_positive rest) as Hrest.
  destruct (minDue rest) as [t|] eqn:E.
  - specialize (Hrest t Hpos eq_refl).
    destruct (acc =? 0) eqn:E0; simpl.
    + decided (when bunch =? 0) false. done.
    + apply Z.eqb_neq in E0. destruct (acc >? when bunch) eqn:E1.
      * decided (when bunch =? 0) false.
        apply Z.gtb_lt in E1. lia.
      * decided (acc =? 0) false.
        rewrite Z.gtb_ltb in E1. apply Z.ltb_ge in E1. lia.
  - destruct (acc =? 0) eqn:E0; simpl; [done|].
    destruct (acc >? when bunch) eqn:E1.
    + apply Z.gtb_lt in E1. lia.
    + rewrite Z.gtb_ltb in E1. apply Z.ltb_ge in E1. lia.
Qed.

Lemma soonest_minDue reps :
  duePositive reps ->
  soonest reps = match minDue reps with None => 0 | Some t => t end.
Proof.
  intros Hpos. unfold soonest. rewrite scan_minDue by done.
  by destruct (minDue reps).
Qed.

(** The erase loop keeps the bunches not yet due and repaints the live
    targets of the others, bunch by bunch, in the order they were added. *)
Lemma flush_spec alive now reps :
  flush alive now reps
  = (List.filter (fun entry => negb (elapsed now entry)) reps,
     flat_map (fun entry => List.filter alive (instances (snd entry)))
       (List.filter (elapsed now) reps)).
Proof.
  induction reps as [|[d bunch] rest IH]; [done|].
  simpl. rewrite IH. unfold elapsed. simpl.
  by destruct (when bunch >? now).
Qed.

Lemma filter_duePositive (f : Z * RepaintBunch -> bool) reps :
  duePositive reps -> duePositive (List.filter f reps).
Proof.
  unfold duePositive. rewrite !Forall_forall. intros H e He.
  apply H. apply list_elem_of_In. apply list_elem_of_In in He.
  by apply List.filter_In in He as [He _].
Qed.

Lemma upsert_duePositive instance request reps :
  0 < req_when request -> duePositive reps ->
  duePositive (upsert instance request reps).
Proof.
  intros Hw. induction reps as [|[d bunch] rest IH]; intros Hpos; simpl.
  - repeat constructor. simpl. by decided (0 <? req_when request) true.
  - apply Forall_cons in Hpos as [Hb Hpos]. simpl in Hb.
    destruct (req_duration request <? d).
    + constructor; [|by constructor]. simpl.
      by decided (0 <? req_when request) true.
    + destruct (req_duration request =? d).
      * constructor; [|done]. simpl. destruct (when bunch <? req_when request); lia.
      * constructor; [done|by apply IH].
Qed.

End Repainting.

Section RepaintTimer.

Import CustomEmojiManager.

Local Open Scope Z_scope.

Lemma timerFires_spec alive now r :
  _repaints (timerFires alive now r)
  = List.filter (fun entry => negb (elapsed now entry)) (_repaints r)
  /\ repainted (timerFires alive now r)
     = repainted r
         ++ flat_map (fun entry => List.filter alive (instances (snd entry)))
              (List.filter (elapsed now) (_repaints r))
  /\ _repaintNext (timerFires alive now r) = 0
  /\ _repaintTimer (timerFires alive now r) = None
  /\ _repaintTimerScheduled (timerFires alive now r) = true.
Proof.
  unfold timerFires, invokeRepaints. simpl. rewrite flush_spec.
  unfold scheduleRepaintTimer. simpl.
  by destruct (_repaintTimerScheduled r).
Qed.

Lemma elem_of_kept now (entry : Z * RepaintBunch) reps :
  entry ∈ List.filter (fun entry => negb (elapsed now entry)) reps ->
  now < when (snd entry).
Proof.
  intros He. apply list_elem_of_In, List.filter_In in He as [_ He].
  unfold elapsed in He. rewrite negb_involutive in He. by apply Z.gtb_lt in He.
Qed.

Lemma count_occ_alive (alive : nat -> bool) (targets : list nat) (target : nat) :
  count_occ Nat.eq_dec (List.filter alive targets) target
  = if alive target then count_occ Nat.eq_dec targets target else 0%nat.
Proof.
  induction targets as [|x targets IH]; simpl; [by destruct (alive target)|].
  destruct (alive x) eqn:Ex; simpl; destruct (Nat.eq_dec x target) as [->|Hne];
    rewrite IH; try done.
  - by rewrite Ex.
  - by rewrite Ex.
Qed.

(** A live target is repainted once for each time it was registered in a
    bunch that is flushed, a dead one never. *)
Lemma repaint_counts (alive : nat -> bool) now (reps : list (Z * RepaintBunch)) target :
  count_occ Nat.eq_dec
    (flat_map (fun entry => List.filter alive (instances (snd entry)))
       (List.filter (elapsed now) reps)) target
  = if alive target then count_occ Nat.eq_dec (registrations now reps) target
    else 0%nat.
Proof.
  unfold registrations.
  induction (List.filter (elapsed now) reps) as [|entry rest IH]; simpl;
    [by destruct (alive target)|].
  rewrite !count_occ_app, IH, count_occ_alive. by destruct (alive target).
Qed.

Lemma postponed_spec alive now r :
  timerConsistent r -> duePositive (_repaints r) ->
  timerConsistent (postponed alive now r)
  /\ duePositive (_repaints (postponed alive now r))
  /\ (forall t entry,
        _repaintTimer (postponed alive now r) = Some t ->
        entry ∈ _repaints (postponed alive now r) -> t <= when (snd entry))
  /\ (forall t,
        _repaintNext r = 0 \/ t < _repaintNext r ->
        minDue (_repaints r) = Some t -> now < t ->
        _repaintTimer (postponed alive now r) = Some t
        /\ _repaints (postponed alive now r) = _repaints r)
  /\ (_repaints (postponed alive now r) <> [] ->
      _repaintTimer (postponed alive now r) = None ->
      _repaintTimerScheduled (postponed alive now r) = true
      /\ forall entry, entry ∈ _repaints (postponed alive now r) ->
                       now < when (snd entry)).
Proof.
  intros Hcons Hpos. unfold postponed. rewrite (soonest_minDue _ Hpos).
  unfold timerConsistent in Hcons.
  destruct (minDue (_repaints r)) as [t|] eqn:E.
  - pose proof (minDue_positive _ _ Hpos E) as Ht.
    destruct (minDue_bounds _ _ E) as [Hle _].
    decided (t =? 0) false.
    simpl negb. rewrite andb_true_l.
    destruct ((_repaintNext r =? 0) || (_repaintNext r >? t)) eqn:Hcond.
    + destruct (now >=? t) eqn:Hnow.
      * rewrite Z.geb_leb in Hnow. apply Z.leb_le in Hnow.
        unfold invokeRepaints, scheduleRepaintTimer. simpl.
        rewrite flush_spec. simpl.
        split; [done|]. split; [by apply filter_duePositive|].
        split; [done|]. split; [intros t0 _ [= <-] ?; lia|].
        intros _ _. split; [done|]. intros entry. apply elem_of_kept.
      * rewrite Z.geb_leb in Hnow. apply Z.leb_gt in Hnow. simpl.
        replace (now + (t - now)) with t by lia.
        split.
        { unfold timerConsistent. simpl.
          by decided (t =? 0) false. }
        split; [done|]. split.
        { intros t' entry [= <-]. apply Hle. }
        split; [|done].
        intros t' _ [= <-] _. done.
    + apply orb_false_iff in Hcond as [H0 Hgt]. simpl.
      rewrite H0 in Hcons. apply Z.eqb_neq in H0.
      rewrite Z.gtb_ltb in Hgt. apply Z.ltb_ge in Hgt.
      split; [unfold timerConsistent; simpl;
              by decided (_repaintNext r =? 0) false|].
      split; [done|]. split.
      { intros t' entry. rewrite Hcons. intros [= <-] He.
        specialize (Hle entry He). lia. }
      split; [intros t' Hnext [= <-] ?; lia|]. intros _. by rewrite Hcons.
  - apply minDue_none in E. simpl. rewrite E.
    split; [done|]. split; [constructor|]. split.
    { intros t entry _ He. by apply elem_of_nil in He. }
    split; [done|done].
Qed.

End RepaintTimer.

(** C6, as stated, fails: a bunch due at 100 has the timer set for 100; a
    second request for the same duration moves the due time of the bunch to
    200, and the next pass leaves the timer at 100, before the minimum.
    Besides, a target that asked twice for the same bunch is repainted twice
    when the bunch is flushed. *)
Lemma C6_counterexample :
  ~ (forall alive now instance request r,
       timerAtMinimum r ->
       timerAtMinimum
         (CustomEmojiManager.postponed alive now
            (CustomEmojiManager.repaintLater instance request r)))
  /\ CustomEmojiManager.repainted
       (CustomEmojiManager.timerFires allAlive 100
          (CustomEmojiManager.repaintLater 1
             {| CustomEmojiManager.req_when := 100;
                CustomEmojiManager.req_duration := 1000 |}
             oneBunch))
     = [1; 1]%nat.
Proof.
  split; [|reflexivity].
  intros H.
  specialize (H allAlive 10%Z 2%nat
                {| CustomEmojiManager.req_when := 200;
                   CustomEmojiManager.req_duration := 1000 |}
                oneBunch eq_refl).
  vm_compute in H. discriminate.
Qed.

(** C6, amended.  After a scheduling pass a wake timer that is set fires no
    later than the minimum due time over the bunches, and at exactly that
    time when the pass programs it; a timer already set for an earlier time
    is left alone, and when the pass flushes at once the bunches that remain
    are due later and a new pass is posted.  When the timer fires at [now],
    exactly the bunches due by [now] are removed and every live entry of
    theirs is repainted once, in order.  With bunches due at 100 and 150
    the timer is set for 100; firing then flushes the first bunch only and
    the next pass sets the timer for 150. *)
Theorem C6_repaint_timer_no_later_than_minimum (alive : nat -> bool) (now : Z)
    (r : CustomEmojiManager.Repaints) :
  (timerConsistent r -> duePositive (CustomEmojiManager._repaints r) ->
   let r' := CustomEmojiManager.postponed alive now r in
   timerConsistent r'
   /\ duePositive (CustomEmojiManager._repaints r')
   /\ (forall t entry,
         CustomEmojiManager._repaintTimer r' = Some t ->
         entry ∈ CustomEmojiManager._repaints r' ->
         (t <= CustomEmojiManager.when (snd entry))%Z)
   /\ (forall t,
         CustomEmojiManager._repaintNext r = 0%Z
         \/ (t < CustomEmojiManager._repaintNext r)%Z ->
         minDue (CustomEmojiManager._repaints r) = Some t -> (now < t)%Z ->
         CustomEmojiManager._repaintTimer r' = Some t
         /\ CustomEmojiManager._repaints r' = CustomEmojiManager._repaints r)
   /\ (CustomEmojiManager._repaints r' <> [] ->
       CustomEmojiManager._repaintTimer r' = None ->
       CustomEmojiManager._repaintTimerScheduled r' = true
       /\ forall entry, entry ∈ CustomEmojiManager._repaints r' ->
                        (now < CustomEmojiManager.when (snd entry))%Z))
  /\ (forall instance request,
        (0 < CustomEmojiManager.req_when request)%Z ->
        timerConsistent r -> duePositive (CustomEmojiManager._repaints r) ->
        timerConsistent (CustomEmojiManager.repaintLater instance request r)
        /\ duePositive (CustomEmojiManager._repaints
                          (CustomEmojiManager.repaintLater instance request r))
        /\ CustomEmojiManager._repaintTimerScheduled
             (CustomEmojiManager.repaintLater instance request r) = true)
  /\ (let r' := CustomEmojiManager.timerFires alive now r in
      CustomEmojiManager._repaints r'
      = List.filter (fun entry => negb (elapsed now entry))
          (CustomEmojiManager._repaints r)
      /\ CustomEmojiManager.repainted r'
         = CustomEmojiManager.repainted r
             ++ flat_map
                  (fun entry =>
                     List.filter alive (CustomEmojiManager.instances (snd entry)))
                  (List.filter (elapsed now) (CustomEmojiManager._repaints r))
      /\ (forall target,
            count_occ Nat.eq_dec
              (flat_map
                 (fun entry =>
                    List.filter alive (CustomEmojiManager.instances (snd entry)))
                 (List.filter (elapsed now) (CustomEmojiManager._repaints r)))
              target
            = if alive target
              then count_occ Nat.eq_dec
                     (registrations now (CustomEmojiManager._repaints r)) target
              else 0%nat)
      /\ CustomEmojiManager._repaintNext r' = 0%Z
      /\ CustomEmojiManager._repaintTimer r' = None
      /\ CustomEmojiManager._repaintTimerScheduled r' = true)
  /\ (CustomEmojiManager._repaints twoBunches
      = [(1000%Z, {| CustomEmojiManager.when := 100;
                     CustomEmojiManager.instances := [1%nat] |});
         (2000%Z, {| CustomEmojiManager.when := 150;
                     CustomEmojiManager.instances := [2%nat] |})]
      /\ CustomEmojiManager._repaintTimer twoBunches = Some 100%Z
      /\ CustomEmojiManager._repaints
           (CustomEmojiManager.timerFires allAlive 100 twoBunches)
         = [(2000%Z, {| CustomEmojiManager.when := 150;
                        CustomEmojiManager.instances := [2%nat] |})]
      /\ CustomEmojiManager.repainted
           (CustomEmojiManager.timerFires allAlive 100 twoBunches) = [1%nat]
      /\ CustomEmojiManager._repaintTimer
           (CustomEmojiManager.postponed allAlive 100
              (CustomEmojiManager.timerFires allAlive 100 twoBunches))
         = Some 150%Z
      /\ CustomEmojiManager._repaintNext
           (CustomEmojiManager.postponed allAlive 100
              (CustomEmojiManager.timerFires allAlive 100 twoBunches))
         = 150%Z).
Proof.
  split; [|split; [|split]].
  - intros Hcons Hpos. by apply postponed_spec.
  - intros instance request Hw Hcons Hpos.
    unfold CustomEmojiManager.repaintLater, CustomEmojiManager.scheduleRepaintTimer.
    simpl. destruct (CustomEmojiManager._repaintTimerScheduled r); simpl;
      (split; [exact Hcons|]); (split; [by apply upsert_duePositive|done]).
  - destruct (timerFires_spec alive now r) as (H1 & H2 & H3 & H4 & H5).
    split; [done|]. split; [done|]. split; [|done].
    intros target. apply repaint_counts.
  - repeat split; vm_compute; reflexivity.
Qed.

Lemma C6_repaint_timer_witness :
  CustomEmojiManager._repaintTimer
    (CustomEmojiManager.postponed allAlive 50
       (CustomEmojiManager.repaintLater 3
          {| CustomEmojiManager.req_when := 80;
             CustomEmojiManager.req_duration := 3000 |}
          (CustomEmojiManager.timerFires allAlive 40 twoBunches)))
  = Some 80%Z.
Proof.
  apply (proj1 (proj2 (proj2 (proj2
           (proj1 (C6_repaint_timer_no_later_than_minimum allAlive 50
                     (CustomEmojiManager.repaintLater 3
                        {| CustomEmojiManager.req_when := 80;
                           CustomEmojiManager.req_duration := 3000 |}
                        (CustomEmojiManager.timerFires allAlive 40 twoBunches)))
              eq_refl
              ltac:(repeat constructor)))))).
  - left. reflexivity.
  - reflexivity.
  - reflexivity.
Defined.

(** * Further properties *)

(** ** Codec, continued *)

Section CodecBounds.

Lemma digitsValue_bound s acc n :
  acc <= uint64_max -> digitsValue s acc = Some n -> n <= uint64_max.
Proof.
  revert acc. induction s as [|c s IH]; intros acc Hacc; simpl.
  - by intros [= <-].
  - destruct (digitValue c) as [d|]; [|done].
    destruct (acc * 10 + d <=? uint64_max) eqn:E; [|done].
    apply N.leb_le in E. by apply IH.
Qed.

(** Whatever the string, the conversion yields a 64-bit value. *)
Lemma toULongLong_bound s : toULongLong s <= uint64_max.
Proof.
  unfold toULongLong, toULongLong_ok.
  destruct (skipPlus (chopSpaces (skipSpaces s))) as [|c t] eqn:E;
    [unfold uint64_max; lia|].
  destruct (digitsValue (String c t) 0) as [n|] eqn:En;
    [|unfold uint64_max; lia].
  apply (digitsValue_bound (String c t) 0 n); [unfold uint64_max; lia|done].
Qed.

Lemma parse_of_serialized x :
  ParseCustomEmojiData (SerializeCustomEmojiId x)
  = {| selfId := toULongLong (number (selfId x));
       id := toULongLong (number (id x)) |}.
Proof. unfold ParseCustomEmojiData. by rewrite split_serialized. Qed.

Lemma parse_bound data :
  id (ParseCustomEmojiData data) <= uint64_max
  /\ selfId (ParseCustomEmojiData data) <= uint64_max.
Proof.
  unfold ParseCustomEmojiData.
  destruct (split ":" data) as [|c0 [|c1 [|c2 rest]]]; simpl;
    try (unfold uint64_max; lia).
  split; apply toULongLong_bound.
Qed.

Lemma parse_serialized_id s document :
  document <= uint64_max ->
  id (ParseCustomEmojiData (SerializeDocumentId s document)) = document.
Proof.
  intros Hd. unfold SerializeDocumentId. rewrite parse_of_serialized. simpl.
  by apply toULongLong_number.
Qed.

End CodecBounds.

(** X1.  Two identifiers with 64-bit fields that serialise to the same
    token are the same identifier. *)
Theorem X1_serialize_injective (x y : CustomEmojiId) :
  id x <= uint64_max -> selfId x <= uint64_max ->
  id y <= uint64_max -> selfId y <= uint64_max ->
  SerializeCustomEmojiId x = SerializeCustomEmojiId y -> x = y.
Proof.
  intros Hx1 Hx2 Hy1 Hy2 Heq.
  apply (f_equal ParseCustomEmojiData) in Heq.
  rewrite !parse_of_serialized, !toULongLong_number in Heq by done.
  destruct x, y. simpl in *. by injection Heq as -> ->.
Qed.

Lemma X1_serialize_injective_witness :
  SerializeCustomEmojiId {| selfId := 1; id := 23 |} = "23:1"
  /\ forall y, id y <= uint64_max -> selfId y <= uint64_max ->
       SerializeCustomEmojiId y = "23:1" -> y = {| selfId := 1; id := 23 |}.
Proof.
  split; [by vm_compute|]. intros y Hy1 Hy2 Hy. symmetry.
  apply X1_serialize_injective; try done; unfold uint64_max; simpl; lia.
Defined.

Section CodecOverflow.

Lemma decimal_ge s acc : acc <= decimal s acc.
Proof.
  revert acc. induction s as [|c s IH]; intros acc; simpl; [lia|].
  specialize (IH (acc * 10 + default 0 (digitValue c))). lia.
Qed.

(** The digit loop reads a string of digits exactly, up to the largest
    64-bit value, and fails beyond it. *)
Lemma digitsValue_decimal s acc :
  allDigits s = true -> acc <= uint64_max ->
  digitsValue s acc
  = (if decimal s acc <=? uint64_max then Some (decimal s acc) else None).
Proof.
  revert acc. induction s as [|c s IH]; intros acc Hs Hacc; simpl.
  - by rewrite (proj2 (N.leb_le _ _) Hacc).
  - simpl in Hs. apply andb_true_iff in Hs as [Hc Hs].
    apply bool_decide_eq_true in Hc. destruct Hc as [d Hd]. rewrite Hd. simpl.
    destruct (acc * 10 + d <=? uint64_max) eqn:E.
    + apply N.leb_le in E. by apply IH.
    + apply N.leb_gt in E. pose proof (decimal_ge s (acc * 10 + d)) as Hge.
      by rewrite (proj2 (N.leb_gt _ _)) by lia.
Qed.

Lemma toULongLong_digits s :
  allDigits s = true ->
  toULongLong s = (if decimal s 0 <=? uint64_max then decimal s 0 else 0).
Proof.
  intros Hs. unfold toULongLong, toULongLong_ok.
  rewrite (skipSpaces_digits s Hs), (chopSpaces_digits s Hs), (skipPlus_digits s Hs).
  destruct s as [|c t]; [done|].
  rewrite (digitsValue_decimal (String c t) 0 Hs) by (unfold uint64_max; lia).
  by destruct (decimal (String c t) 0 <=? uint64_max).
Qed.

End CodecOverflow.

(** X2.  A numeric field is read exactly or as 0: in a token of two
    fields of decimal digits, each field parses to the number it denotes
    when that fits in 64 bits and to 0 when it does not, since the parser
    does not look at the conversion's [ok].  So [create] returns null for
    a token whose asset id overflows, as for asset id 0, and returns a
    handle for an asset id within 64 bits whatever the owner field. *)
Theorem X2_numeric_fields_read_exactly_or_as_zero (data c0 c1 : QString)
    (update : Callback) (m : CustomEmojiManager.Manager) :
  split ":" data = [c0; c1] ->
  allDigits c0 = true -> allDigits c1 = true ->
  id (ParseCustomEmojiData data)
  = (if decimal c0 0 <=? uint64_max then decimal c0 0 else 0)
  /\ selfId (ParseCustomEmojiData data)
     = (if decimal c1 0 <=? uint64_max then decimal c1 0 else 0)
  /\ (uint64_max < decimal c0 0 ->
      CustomEmojiManager.create data update m = (None, m))
  /\ (0 < decimal c0 0 <= uint64_max ->
      is_Some (fst (CustomEmojiManager.create data update m))).
Proof.
  intros Hsplit H0 H1.
  rewrite (parse_two_fields data c0 c1 Hsplit). simpl.
  rewrite (toULongLong_digits c0 H0), (toULongLong_digits c1 H1).
  split; [done|]. split; [done|]. split.
  - intros Hover. apply create_null.
    rewrite (parse_two_fields data c0 c1 Hsplit). simpl.
    rewrite (toULongLong_digits c0 H0).
    by rewrite (proj2 (N.leb_gt _ _) Hover).
  - intros [Hpos Hfit].
    destruct (create_handle data update m) as (a & -> & _); [|by eexists].
    rewrite (parse_two_fields data c0 c1 Hsplit). simpl.
    rewrite (toULongLong_digits c0 H0).
    rewrite (proj2 (N.leb_le _ _) Hfit). lia.
Qed.

Lemma X2_numeric_fields_witness :
  id (ParseCustomEmojiData "18446744073709551621:7") = 0
  /\ selfId (ParseCustomEmojiData "18446744073709551621:7") = 7
  /\ CustomEmojiManager.create "18446744073709551621:7" 1%nat
       (CustomEmojiManager.init blankSession)
     = (None, CustomEmojiManager.init blankSession).
Proof.
  destruct (X2_numeric_fields_read_exactly_or_as_zero
              "18446744073709551621:7" "18446744073709551621" "7" 1%nat
              (CustomEmojiManager.init blankSession) eq_refl eq_refl eq_refl)
    as (Hid & Hself & Hnull & _).
  split; [exact Hid|]. split; [exact Hself|].
  apply Hnull. vm_compute. reflexivity.
Defined.

(** X3.  Parsing normalises: serialising what a token parsed to and parsing
    again gives the same identifier, for every token, malformed or not. *)
Theorem X3_parse_normalises (data : QString) :
  ParseCustomEmojiData (SerializeCustomEmojiId (ParseCustomEmojiData data))
  = ParseCustomEmojiData data.
Proof.
  destruct (parse_bound data) as [H1 H2].
  rewrite parse_of_serialized, !toULongLong_number by done.
  by destruct (ParseCustomEmojiData data).
Qed.

(** ** The loader, continued *)

(** Every case of an operation on a loader, with the session queries
    decided. *)
Ltac loader_cases :=
  cbv beta iota zeta delta
    [applyOp CustomEmojiLoader.load CustomEmojiLoader.resolved
     CustomEmojiLoader.lookupDone CustomEmojiLoader.check
     CustomEmojiLoader.cancel CustomEmojiLoader.startCacheLookup
     CustomEmojiLoader.loadNoCache CustomEmojiLoader.loadDecoding
     CustomEmojiLoader.andThen CustomEmojiLoader.emit CustomEmojiLoader.invoke
     CustomEmojiLoader.setState CustomEmojiLoader.setLoaded
     CustomEmojiLoader._state CustomEmojiLoader._tag
     CustomEmojiLoader.loaded] in *;
  repeat (case_match; simpl in *; simplify_eq; try done).

Section LoaderOps.

Import CustomEmojiLoader.

Lemma applyOp_shape s op l l' log :
  applyOp s op l = Some (l', log) ->
  (rank l <= rank l')%nat
  /\ _tag l' = _tag l
  /\ (forall d, documentOf l = Some d -> documentOf l' = Some d)
  /\ (resolving l = true -> resolving l' = false ->
      exists d, op = OpResolved d /\ documentOf l' = Some d).
Proof.
  unfold rank, documentOf, resolving.
  destruct l as [[requested ed|d [p|]|d [p|]] tag], op as [f| |d'|r|];
    intros H; loader_cases; repeat split; intros; simplify_eq; try lia;
    try done; by eexists.
Qed.

End LoaderOps.

(** X4.  A loader only moves forward: every operation leaves it in the same
    state or a later one in the order resolve, lookup, load, keeps its size
    tag and, once it has a document, its document; only [resolved] takes it
    out of the resolving state. *)
Theorem X4_loader_moves_forward (s : Session) (op : LoaderOp)
    (l l' : CustomEmojiLoader.Loader) (log : list Effect) :
  applyOp s op l = Some (l', log) ->
  (rank l <= rank l')%nat
  /\ CustomEmojiLoader._tag l' = CustomEmojiLoader._tag l
  /\ (forall d, documentOf l = Some d -> documentOf l' = Some d)
  /\ (CustomEmojiLoader.resolving l = true ->
      CustomEmojiLoader.resolving l' = false ->
      exists d, op = OpResolved d /\ documentOf l' = Some d).
Proof. apply applyOp_shape. Qed.

Lemma X4_loader_moves_forward_witness :
  (rank (CustomEmojiLoader.fromDocument 7%N Large) <= 2)%nat.
Proof.
  apply (proj1 (X4_loader_moves_forward blankSession (OpLoad (Some 1%nat))
                  (CustomEmojiLoader.fromDocument 7 Large)
                  {| CustomEmojiLoader._state :=
                       CustomEmojiLoader.Load 7
                         (Some {| CustomEmojiLoader.media := Some 7;
                                  CustomEmojiLoader.loaded := Some 1%nat;
                                  CustomEmojiLoader.subscribed := true |});
                     CustomEmojiLoader._tag := Large |}
                  [CreateMediaView 7; ResetCancelled 7; CheckStickerLarge 7;
                   AwaitDownloaderTaskFinished 7] eq_refl)).
Defined.

Section LoaderTokens.

Import CustomEmojiLoader.

Lemma entityData_kept s op l l' log :
  applyOp s op l = Some (l', log) -> resolving l' = resolving l ->
  entityData s l' = entityData s l.
Proof.
  unfold entityData, resolving.
  destruct l as [[requested ed|d [p|]|d [p|]] tag], op as [f| |d'|r|];
    intros H; loader_cases.
Qed.

Lemma entityData_resolved s d l l' log :
  resolved s d l = Some (l', log) -> entityData s l' = SerializeDocumentId s d.
Proof.
  unfold entityData.
  destruct l as [[requested ed|d0 [p|]|d0 [p|]] tag]; intros H; loader_cases.
Qed.

Lemma parse_document_token s d :
  d <= uint64_max -> userId s <= uint64_max ->
  ParseCustomEmojiData (SerializeDocumentId s d) = {| selfId := userId s; id := d |}.
Proof.
  intros Hd Hu. unfold SerializeDocumentId.
  rewrite parse_of_serialized. simpl. by rewrite !toULongLong_number.
Qed.

End LoaderTokens.

(** X5.  The token of a loader names its asset in every state: a loader
    made for an identifier reports a token that parses to the asset id,
    operations other than [resolved] leave the token as it is, and after
    [resolved] the token is the one of the document, with the user id of
    the session as owner. *)
Theorem X5_token_names_the_asset (s : Session) (x : CustomEmojiId) (tag : SizeTag) :
  id x <= uint64_max -> selfId x <= uint64_max -> userId s <= uint64_max ->
  id (ParseCustomEmojiData
        (CustomEmojiLoader.entityData s (CustomEmojiLoader.fromId s x tag)))
  = id x
  /\ (forall op l l' log,
        applyOp s op l = Some (l', log) ->
        CustomEmojiLoader.resolving l' = CustomEmojiLoader.resolving l ->
        CustomEmojiLoader.entityData s l' = CustomEmojiLoader.entityData s l)
  /\ (forall l l' log,
        CustomEmojiLoader.resolved s (id x) l = Some (l', log) ->
        ParseCustomEmojiData (CustomEmojiLoader.entityData s l')
        = {| selfId := userId s; id := id x |}).
Proof.
  intros Hid Hself Huser. split; [|split].
  - unfold CustomEmojiLoader.entityData, CustomEmojiLoader.fromId,
      CustomEmojiLoader.InitialState. simpl.
    destruct (sticker s (id x)); simpl.
    + by apply parse_serialized_id.
    + rewrite parse_of_serialized. simpl. by apply toULongLong_number.
  - apply entityData_kept.
  - intros l l' log H. rewrite (entityData_resolved _ _ _ _ _ H).
    by apply parse_document_token.
Qed.

Lemma X5_token_witness :
  id (ParseCustomEmojiData
        (CustomEmojiLoader.entityData cachedSession
           (CustomEmojiLoader.fromId cachedSession {| selfId := 5; id := 42 |} Normal)))
  = 42.
Proof.
  apply (proj1 (X5_token_names_the_asset cachedSession {| selfId := 5; id := 42 |}
                  Normal ltac:(unfold uint64_max; simpl; lia)
                  ltac:(unfold uint64_max; simpl; lia)
                  ltac:(unfold uint64_max; simpl; lia))).
Defined.



Section LoaderCache.

Import CustomEmojiLoader.

Lemma cacheKey_valid_base s l d :
  keyValid (cacheKey s l d) = true -> keyValid (bigFileBaseCacheKey s d) = true.
Proof.
  unfold cacheKey. by destruct (keyValid (bigFileBaseCacheKey s d)).
Qed.

Lemma cacheReads_of_op s op l l' log :
  applyOp s op l = Some (l', log) ->
  cacheReads log = []
  \/ exists d, documentOf l' = Some d
       /\ cacheReads log = [cacheKey s l' d]
       /\ keyValid (cacheKey s l' d) = true.
Proof.
  unfold documentOf.
  destruct l as [[requested ed|d [p|]|d [p|]] tag], op as [f| |d'|r|];
    intros H; loader_cases; try (by left);
    right; eexists; (split; [reflexivity|]); split; try reflexivity;
    by match goal with H : negb _ = false |- _ => apply negb_false_iff in H end.
Qed.

End LoaderCache.

(** X7.  The cache is read only under a valid key: an operation reads the
    cache at most once, under the key of the loader's document, and never
    when the document has no base key; then a [load] goes on to decoding. *)
Theorem X7_cache_read_needs_a_key (s : Session) (op : LoaderOp)
    (l l' : CustomEmojiLoader.Loader) (log : list Effect) :
  applyOp s op l = Some (l', log) ->
  (cacheReads log = []
   \/ exists d, documentOf l' = Some d
        /\ cacheReads log = [CustomEmojiLoader.cacheKey s l' d]
        /\ keyValid (CustomEmojiLoader.cacheKey s l' d) = true)
  /\ (forall d, documentOf l' = Some d ->
                keyValid (bigFileBaseCacheKey s d) = false ->
                cacheReads log = [])
  /\ (forall d f, CustomEmojiLoader._state l = CustomEmojiLoader.Lookup d None ->
                  op = OpLoad f ->
                  keyValid (bigFileBaseCacheKey s d) = false ->
                  rank l' = 2%nat /\ In (CreateMediaView d) log).
Proof.
  intros H. split; [by apply (cacheReads_of_op s op l)|]. split.
  - intros d Hd Hbase.
    destruct (cacheReads_of_op s op l l' log H) as [Hnone|(d' & Hd' & _ & Hkey)];
      [done|].
    rewrite Hd in Hd'. injection Hd' as <-.
    apply cacheKey_valid_base in Hkey. congruence.
  - intros d f Hst -> Hbase. unfold rank.
    destruct l as [st tag]. simpl in Hst. subst st.
    assert (Hkey : CustomEmojiLoader.cacheKey s
                     {| CustomEmojiLoader._state := CustomEmojiLoader.Lookup d None;
                        CustomEmojiLoader._tag := tag |} d = emptyKey).
    { unfold CustomEmojiLoader.cacheKey. by rewrite Hbase. }
    simpl in H. unfold CustomEmojiLoader.load, CustomEmojiLoader.startCacheLookup in H.
    simpl in H. rewrite Hkey in H. simpl in H.
    loader_cases; simpl; auto.
Qed.

Lemma X7_cache_read_witness :
  cacheReads [CreateMediaView 7; ResetCancelled 7; CheckStickerLarge 7;
              AwaitDownloaderTaskFinished 7] = [].
Proof.
  apply (proj1 (proj2 (X7_cache_read_needs_a_key blankSession (OpLoad (Some 1%nat))
                         (CustomEmojiLoader.fromDocument 7 Normal) _ _ eq_refl))
           7 eq_refl eq_refl).
Defined.



Section LoaderDelivery.

Import CustomEmojiLoader.

Lemma delivered_of_op s op l l' log :
  applyOp s op l = Some (l', log) ->
  delivered log = []
  \/ exists cb d,
       documentOf l' = Some d
       /\ (delivered log
           = [(cb, Caching (d, _tag l) (cacheKey s l' d) (SerializeDocumentId s d))]
           /\ inFlight l' = None
           \/ exists cache,
                delivered log
                = [(cb, Cached (SerializeDocumentId s d) (d, _tag l) cache)]
                /\ op = OpLookupDone (Some cache)).
Proof.
  unfold documentOf, inFlight.
  destruct l as [[requested ed|d [p|]|d [p|]] tag], op as [f| |d'|r|];
    intros H; loader_cases; try (by left);
    right; eexists _, _; (split; [reflexivity|]);
    first [by left | right; by eexists].
Qed.

End LoaderDelivery.



(** X10.  An operation hands over at most one result, and a result always
    describes the loader's document: it carries the document's token and a
    factory for that document and size tag, so that the loader the factory
    makes is idle, in the lookup state, and reports the same token. *)
Theorem X10_result_describes_the_document (s : Session) (op : LoaderOp)
    (l l' : CustomEmojiLoader.Loader) (log : list Effect) :
  applyOp s op l = Some (l', log) ->
  delivered log = []
  \/ exists cb r d,
       delivered log = [(cb, r)]
       /\ documentOf l' = Some d
       /\ resultToken r = SerializeDocumentId s d
       /\ resultFactory r = (d, CustomEmojiLoader._tag l)
       /\ CustomEmojiLoader.loading
            (CustomEmojiManager.createLoader (fst (resultFactory r))
               (snd (resultFactory r))) = false
       /\ CustomEmojiLoader.entityData s
            (CustomEmojiManager.createLoader (fst (resultFactory r))
               (snd (resultFactory r))) = resultToken r.
Proof.
  intros H.
  destruct (delivered_of_op s op l l' log H)
    as [Hnone|(cb & d & Hd & [[Hlog _]|(cache & Hlog & _)])]; [by left| |];
    right; eexists cb, _, d; (split; [exact Hlog|]); by repeat split.
Qed.

Lemma X10_result_witness :
  delivered [Invoke 2%nat (Cached (SerializeDocumentId cachedSession 7) (7, Normal) 42)]
  = []
  \/ exists cb r d,
       delivered
         [Invoke 2%nat (Cached (SerializeDocumentId cachedSession 7) (7, Normal) 42)]
       = [(cb, r)]
       /\ resultToken r = SerializeDocumentId cachedSession d.
Proof.
  destruct (X10_result_describes_the_document cachedSession (OpLookupDone (Some 42))
              {| CustomEmojiLoader._state :=
                   CustomEmojiLoader.Lookup 7
                     (Some {| CustomEmojiLoader.media := None;
                              CustomEmojiLoader.loaded := Some 2%nat;
                              CustomEmojiLoader.subscribed := false |});
                 CustomEmojiLoader._tag := Normal |} _ _ eq_refl)
    as [H|(cb & r & d & H1 & _ & H2 & _)]; [by left|].
  right. by exists cb, r, d.
Defined.



Section LoaderCacheKeys.

Import CustomEmojiLoader.

Lemma cacheKey_tag s l l' d : _tag l' = _tag l -> cacheKey s l' d = cacheKey s l d.
Proof. unfold cacheKey. by intros ->. Qed.

(** [load] on the loader a factory makes. *)
Lemma load_fresh s d tag cb :
  (keyValid (cacheKey s (CustomEmojiManager.createLoader d tag) d) = true ->
   exists l2,
     load s (Some cb) (CustomEmojiManager.createLoader d tag)
     = Some (l2, [CacheGet (cacheKey s (CustomEmojiManager.createLoader d tag) d)])
     /\ loading l2 = true /\ documentOf l2 = Some d)
  /\ (keyValid (cacheKey s (CustomEmojiManager.createLoader d tag) d) = false ->
      exists l2 log2,
        load s (Some cb) (CustomEmojiManager.createLoader d tag) = Some (l2, log2)
        /\ cacheReads log2 = [] /\ In (CreateMediaView d) log2
        /\ documentOf l2 = Some d).
Proof.
  unfold CustomEmojiManager.createLoader, fromDocument, load, startCacheLookup.
  simpl. split; intros ->; simpl.
  - eexists. split; [done|]. by unfold loading, documentOf.
  - unfold documentOf. loader_cases; eexists _, _; (split; [reflexivity|]);
      simpl; auto.
Qed.

End LoaderCacheKeys.

(** X27.  What a decode writes, a later lookup reads: when an operation
    hands over a freshly decoded result, the key under which its renderer
    will put the frames into the cache is the cache key of the loader that
    the factory of the result makes; if that key is valid, the first
    [load] of such a loader reads the cache under exactly that key and
    nothing else, and if it is not, the key is the empty one and the
    loader goes on to decode without reading the cache. *)
Theorem X27_decode_writes_where_lookup_reads (s : Session) (op : LoaderOp)
    (l l' : CustomEmojiLoader.Loader) (log : list Effect) (cb cb' : Callback)
    (factory : DocumentId * SizeTag) (put : CacheKey) (token : QString) :
  applyOp s op l = Some (l', log) ->
  delivered log = [(cb, Caching factory put token)] ->
  put = CustomEmojiLoader.cacheKey s
          (CustomEmojiManager.createLoader (fst factory) (snd factory))
          (fst factory)
  /\ (keyValid put = true ->
      exists l2,
        CustomEmojiLoader.load s (Some cb')
          (CustomEmojiManager.createLoader (fst factory) (snd factory))
        = Some (l2, [CacheGet put])
        /\ CustomEmojiLoader.loading l2 = true
        /\ documentOf l2 = Some (fst factory))
  /\ (keyValid put = false ->
      put = emptyKey
      /\ exists l2 log2,
           CustomEmojiLoader.load s (Some cb')
             (CustomEmojiManager.createLoader (fst factory) (snd factory))
           = Some (l2, log2)
           /\ cacheReads log2 = []
           /\ In (CreateMediaView (fst factory)) log2
           /\ documentOf l2 = Some (fst factory)).
Proof.
  intros Hop Hlog.
  destruct (applyOp_shape s op l l' log Hop) as (_ & Htag & _).
  destruct (delivered_of_op s op l l' log Hop)
    as [Hnil|(cb0 & d & Hdoc & [[Hd _]|(cache & Hd & _)])];
    rewrite Hlog in *; try done.
  injection Hd as -> -> -> ->. simpl.
  assert (CustomEmojiLoader.cacheKey s l' d
          = CustomEmojiLoader.cacheKey s
              (CustomEmojiManager.createLoader d (CustomEmojiLoader._tag l)) d)
    as Hkey by (by apply cacheKey_tag).
  rewrite Hkey. split; [done|].
  destruct (load_fresh s d (CustomEmojiLoader._tag l) cb') as [Hvalid Hinvalid].
  split; [done|]. intros Hbad. split; [|by apply Hinvalid].
  revert Hbad. generalize (CustomEmojiLoader.cacheKey s
    (CustomEmojiManager.createLoader d (CustomEmojiLoader._tag l)) d).
  intros [h w]. unfold keyValid, emptyKey. simpl.
  intros [E1 E2]%orb_false_iff.
  apply negb_false_iff, N.eqb_eq in E1, E2. by subst.
Qed.

Lemma X27_decode_writes_witness :
  exists l2,
    CustomEmojiLoader.load loadedSession (Some 2%nat)
      (CustomEmojiManager.createLoader 7 Large)
    = Some (l2, [CacheGet {| high := 1; low := 247 |}]).
Proof.
  destruct (X27_decode_writes_where_lookup_reads loadedSession OpCheck
              {| CustomEmojiLoader._state :=
                   CustomEmojiLoader.Load 7
                     (Some {| CustomEmojiLoader.media := Some 7;
                              CustomEmojiLoader.loaded := Some 1%nat;
                              CustomEmojiLoader.subscribed := true |});
                 CustomEmojiLoader._tag := Large |}
              _ _ 1%nat 2%nat (7, Large) {| high := 1; low := 247 |}
              (SerializeDocumentId loadedSession 7) eq_refl eq_refl)
    as (_ & Hread & _).
  destruct (Hread eq_refl) as (l2 & E & _). by exists l2.
Defined.

(** ** The manager in every reachable state *)

Section ManagerFrames.

Import CustomEmojiLoader CustomEmojiManager.

Lemma registryOk_ext m m' :
  _instances m' = _instances m -> allocated m' = allocated m ->
  registryOk m -> registryOk m'.
Proof. intros Hi Ha [H1 H2]. split; rewrite Hi; [rewrite Ha|]; done. Qed.

Lemma queueState_ext m m' :
  _pendingForRequest m' = _pendingForRequest m -> _requestId m' = _requestId m ->
  sent m' = sent m -> posted m' = posted m ->
  queueState m -> queueState m'.
Proof. unfold queueState. by intros -> -> -> ->. Qed.

Lemma queued_ext m m' :
  _pendingForRequest m' = _pendingForRequest m -> sent m' = sent m ->
  queued m' = queued m.
Proof. unfold queued. by intros -> ->. Qed.

Lemma queueOk_ext m m' :
  _pendingForRequest m' = _pendingForRequest m -> sent m' = sent m ->
  _instances m' = _instances m ->
  queueOk m -> queueOk m'.
Proof.
  intros Hp Hs Hi. unfold queueOk. by rewrite (queued_ext m m' Hp Hs), Hs, Hi.
Qed.

(** Ageing the loader objects keeps the waiters and forgets nobody. *)
Lemma loadersOk_aged m m' :
  _loaders m' = _loaders m -> allocated m' = allocated m ->
  agedHeap (heap m) (heap m') ->
  loadersOk m -> loadersOk m'.
Proof.
  intros Hl Ha Hh Hok k ws. rewrite Hl. intros Hws.
  destruct (Hok k ws Hws) as (Hnd & Hres & Hlt & Huniq).
  split; [done|]. split; [|split; [by rewrite Ha|]].
  - intros w l' Hw Hl'. destruct (Hh w l' Hl') as (l & El & Hkeep & _).
    specialize (Hres w l Hw El). unfold resolving in *.
    destruct (_state l) as [r ed| |] eqn:E; try done.
    destruct (Hkeep r ed eq_refl) as (r' & ->). done.
  - apply Huniq.
Qed.

Lemma waitersOk_aged m m' :
  _loaders m' = _loaders m -> (forall k, k ∈ queued m -> k ∈ queued m') ->
  agedHeap (heap m) (heap m') ->
  waitersOk m -> waitersOk m'.
Proof.
  intros Hl Hq Hh Hw k ws. rewrite Hl. intros Hws.
  destruct (Hw k ws Hws) as [Hk Hres]. split; [by apply Hq|].
  intros w l' Hin Hl'. destruct (Hh w l' Hl') as (l & El & Hkeep & _).
  destruct (Hres w l Hin El) as (r & ed & Hst & Hid).
  destruct (Hkeep r ed Hst) as (r' & Hst'). by exists r', ed.
Qed.

Lemma resolvingListed_aged m m' :
  _loaders m' = _loaders m -> agedHeap (heap m) (heap m') ->
  resolvingListed m -> resolvingListed m'.
Proof.
  intros Hl Hh Hlisted a l' Hl' Hr. rewrite Hl.
  destruct (Hh a l' Hl') as (l & El & _ & Hback).
  apply (Hlisted a l El). by apply Hback.
Qed.

Lemma agedHeap_refl h : agedHeap h h.
Proof. intros a l Hl. exists l. split; [done|]. split; [|done]. by eexists. Qed.

Lemma agedHeap_delete h a : agedHeap h (delete a h).
Proof.
  intros b l. rewrite lookup_delete_Some. intros [_ Hl]. by apply agedHeap_refl.
Qed.

Lemma agedHeap_op s h a op l l' log :
  h !! a = Some l -> applyOp s op l = Some (l', log) ->
  (forall d, op <> OpResolved d) ->
  agedHeap h (<[a := l']> h).
Proof.
  intros Hl Hop Hnot b l0. rewrite lookup_insert. case_decide as Hab.
  - intros [= <-]. subst b. exists l. split; [done|].
    destruct (applyOp_shape s op l l' log Hop) as (Hrank & _ & _ & Hleave).
    split.
    + intros r ed Hst.
      destruct (resolving l') eqn:Hr'.
      * pose proof (entityData_kept s op l l' log Hop) as Hed.
        unfold resolving in Hr'. unfold entityData, resolving in Hed.
        rewrite Hst in Hed. destruct (_state l') as [r' ed'| |]; try done.
        exists r'. f_equal. by apply Hed.
      * destruct Hleave as (d & -> & _); [by unfold resolving; rewrite Hst|done|].
        by destruct (Hnot d).
    + unfold resolving, rank in *.
      destruct (_state l'), (_state l); simpl in *; try done; lia.
  - intros Hb. by apply agedHeap_refl.
Qed.

End ManagerFrames.

Section ManagerInvariant.

Import CustomEmojiLoader CustomEmojiManager.

Lemma managerInv_init s : managerInv (init s).
Proof.
  split; [apply loadersOk_init|]. split; [apply registryOk_init|].
  split; [|split; [|split]].
  - unfold queueState. simpl. repeat split; try done; lia.
  - unfold queueOk, queued. simpl. split; [constructor|].
    split; [by intros k Hk; apply elem_of_nil in Hk|constructor].
  - intros k ws. simpl. by rewrite lookup_empty.
  - intros a l. simpl. by rewrite lookup_empty.
Qed.

Lemma managerInv_aged m m' :
  _instances m' = _instances m -> _loaders m' = _loaders m ->
  _pendingForRequest m' = _pendingForRequest m -> _requestId m' = _requestId m ->
  sent m' = sent m -> posted m' = posted m -> allocated m' = allocated m ->
  agedHeap (heap m) (heap m') ->
  managerInv m -> managerInv m'.
Proof.
  intros Hi Hl Hp Hr Hs Hpo Ha Hh (H1 & H2 & H3 & H4 & H5 & H6).
  split; [by apply (loadersOk_aged m)|].
  split; [by apply (registryOk_ext m)|].
  split; [by apply (queueState_ext m)|].
  split; [by apply (queueOk_ext m)|].
  split; [apply (waitersOk_aged m); [done|by rewrite (queued_ext m m')|done|done]|].
  by apply (resolvingListed_aged m).
Qed.

Lemma queued_registered m k :
  queueOk m -> _instances m !! k = None -> k ∉ queued m.
Proof.
  intros (_ & Hreg & _) Hnone Hin. destruct (Hreg k Hin) as [_ [a Ha]].
  congruence.
Qed.

Lemma pending_queued m k : k ∈ _pendingForRequest m -> k ∈ queued m.
Proof. unfold queued. rewrite elem_of_app. by right. Qed.

(** The fields after [create] has made an instance for a known document. *)
Lemma create_known data update m :
  id (ParseCustomEmojiData data) <> 0 ->
  _instances m !! id (ParseCustomEmojiData data) = None ->
  sticker (_owner m) (id (ParseCustomEmojiData data)) = true ->
  let m' := snd (create data update m) in
  _pendingForRequest m' = _pendingForRequest m
  /\ _requestId m' = _requestId m
  /\ sent m' = sent m
  /\ posted m' = posted m
  /\ _loaders m' = _loaders m
  /\ _instances m' = <[id (ParseCustomEmojiData data) := allocated m]> (_instances m)
  /\ heap m'
     = <[allocated m := fromId (_owner m) (ParseCustomEmojiData data) Normal]> (heap m)
  /\ allocated m' = S (allocated m)
  /\ resolving (fromId (_owner m) (ParseCustomEmojiData data) Normal) = false.
Proof.
  intros Hid Hnone Hst. unfold create.
  apply N.eqb_neq in Hid. rewrite Hid, Hnone.
  unfold resolving, fromId, InitialState. rewrite Hst. by simpl.
Qed.

(** The fields after [create] has made an instance for an unknown one. *)
Lemma create_unknown data update m :
  id (ParseCustomEmojiData data) <> 0 ->
  _instances m !! id (ParseCustomEmojiData data) = None ->
  sticker (_owner m) (id (ParseCustomEmojiData data)) = false ->
  let k := id (ParseCustomEmojiData data) in
  let m' := snd (create data update m) in
  _loaders m' = <[k := default [] (_loaders m !! k) ++ [allocated m]]> (_loaders m)
  /\ heap m'
     = <[allocated m
         := {| _state := Resolve None (SerializeCustomEmojiId (ParseCustomEmojiData data));
               _tag := Normal |}]> (heap m)
  /\ allocated m' = S (allocated m).
Proof.
  intros Hid Hnone Hst. unfold create.
  apply N.eqb_neq in Hid. rewrite Hid, Hnone.
  unfold resolving, fromId, InitialState. rewrite Hst. by simpl.
Qed.

Lemma queueState_enqueue k m m' :
  k ∉ _pendingForRequest m ->
  _pendingForRequest m' = emplace k (_pendingForRequest m) ->
  _requestId m' = _requestId m ->
  sent m' = sent m ->
  posted m'
  = (if Nat.eqb (_requestId m) 0
        && Nat.eqb (length (emplace k (_pendingForRequest m))) 1
     then S (posted m) else posted m) ->
  queueState m -> queueState m'.
Proof.
  intros Hk Hp Hr Hs Hpo (P1 & P2 & P3 & P4). unfold queueState.
  rewrite Hp, Hr, Hs, Hpo, (emplace_length _ _ Hk).
  pose proof (emplace_nonempty k (_pendingForRequest m)) as Hne.
  destruct (Nat.eqb_spec (_requestId m) 0) as [E|E]; simpl.
  - destruct (_pendingForRequest m) as [|x rest] eqn:Ep; simpl.
    + assert (posted m = 0%nat) as ->.
      { destruct (posted m) as [|[|n]]; [done| |lia]. by destruct P2. }
      repeat split; try done; lia.
    + assert (posted m = 1%nat) as ->.
      { destruct (posted m) as [|[|n]]; [|done|lia]. by specialize (P3 E eq_refl). }
      repeat split; try done; lia.
  - assert (posted m = 0%nat) as ->.
    { destruct (posted m) as [|[|n]]; [done| |lia]. by destruct P2. }
    repeat split; try done; lia.
Qed.

Lemma queueOk_register k a m m' :
  _pendingForRequest m' = _pendingForRequest m -> sent m' = sent m ->
  _instances m' = <[k := a]> (_instances m) ->
  queueOk m -> queueOk m'.
Proof.
  intros Hp Hs Hi (Q1 & Q2 & Q3). unfold queueOk.
  rewrite (queued_ext m m' Hp Hs), Hs, Hi.
  split; [done|]. split; [|done].
  intros k' Hk'. destruct (Q2 k' Hk') as [Hz Hsome]. split; [done|].
  rewrite lookup_insert. by case_decide.
Qed.

Lemma queued_enqueue k m m' :
  k ∉ queued m ->
  _pendingForRequest m' = emplace k (_pendingForRequest m) -> sent m' = sent m ->
  queued m' ≡ₚ k :: queued m.
Proof.
  intros Hk Hp Hs. unfold queued. rewrite Hp, Hs.
  rewrite emplace_perm by (intros Hin; by apply Hk, pending_queued).
  by rewrite Permutation_middle.
Qed.

Lemma queueOk_enqueue k a m m' :
  k <> 0 -> k ∉ queued m ->
  _pendingForRequest m' = emplace k (_pendingForRequest m) -> sent m' = sent m ->
  _instances m' = <[k := a]> (_instances m) ->
  queueOk m -> queueOk m'.
Proof.
  intros Hz Hk Hp Hs Hi (Q1 & Q2 & Q3).
  pose proof (queued_enqueue k m m' Hk Hp Hs) as Hperm.
  unfold queueOk. rewrite Hperm, Hs.
  split; [by apply NoDup_cons|]. split; [|done].
  intros k'. rewrite Hperm, elem_of_cons, Hi, lookup_insert.
  intros [->|Hin].
  - by rewrite decide_True.
  - destruct (Q2 k' Hin). by case_decide.
Qed.

Lemma managerInv_create data update m :
  managerInv m -> managerInv (snd (create data update m)).
Proof.
  intros (H1 & H2 & H3 & H4 & H5 & H6).
  split; [by apply loadersOk_create|]. split; [by apply registryOk_create|].
  destruct (N.eq_dec (id (ParseCustomEmojiData data)) 0) as [Hz|Hz].
  { by rewrite create_null. }
  destruct (_instances m !! id (ParseCustomEmojiData data)) as [i|] eqn:Ei.
  { unfold create. apply N.eqb_neq in Hz. by rewrite Hz, Ei. }
  pose proof (queued_registered m _ H4 Ei) as Hfresh.
  destruct (sticker (_owner m) (id (ParseCustomEmojiData data))) eqn:Est.
  - destruct (create_known data update m Hz Ei Est)
      as (Hp & Hr & Hs & Hpo & Hl & Hi & Hh & Ha & Hnr).
    split; [by apply (queueState_ext m)|].
    split; [by eapply (queueOk_register _ _ m)|].
    split.
    + intros k ws. rewrite Hl, (queued_ext m _ Hp Hs). intros Hws.
      destruct (H5 k ws Hws) as [Hk Hres]. split; [done|].
      intros w l Hw. destruct (H1 k ws Hws) as (_ & _ & Hlt & _).
      specialize (Hlt w Hw). rewrite Hh, lookup_insert_ne by lia. by apply Hres.
    + intros a l. rewrite Hh, Hl, lookup_insert. case_decide as Ea.
      * intros [= <-]. congruence.
      * apply H6.
  - destruct (create_fresh data update m Hz Est Ei)
      as (Hp & Hr & Hs & _ & Hi & Hpo).
    destruct (create_unknown data update m Hz Ei Est) as (Hl & Hh & Ha).
    pose proof (queued_enqueue _ m _ Hfresh Hp Hs) as Hperm.
    split.
    { apply (queueState_enqueue (id (ParseCustomEmojiData data)) m); try done.
      intros Hin. by apply Hfresh, pending_queued. }
    split; [by eapply (queueOk_enqueue _ _ m)|].
    split.
    + intros k ws. rewrite Hl, Hperm, lookup_insert. case_decide as Ek.
      * intros [= <-]. subst k. split; [by left|].
        intros w l. rewrite elem_of_app, list_elem_of_singleton, Hh.
        intros [Hw| ->].
        -- destruct (_loaders m !! id (ParseCustomEmojiData data)) as [old|] eqn:Eo;
             [|by apply elem_of_nil in Hw].
           destruct (H5 _ _ Eo) as [Hq _]. by destruct Hfresh.
        -- rewrite lookup_insert_eq. intros [= <-]. eexists _, _.
           split; [done|]. rewrite parse_of_serialized. simpl.
           apply toULongLong_number, parse_bound.
      * intros Hws. destruct (H5 k ws Hws) as [Hk Hres].
        split; [by right|]. intros w l Hw.
        destruct (H1 k ws Hws) as (_ & _ & Hlt & _). specialize (Hlt w Hw).
        rewrite Hh, lookup_insert_ne by lia. by apply Hres.
    + intros a l. rewrite Hh, Hl, lookup_insert. case_decide as Ea.
      * intros _ _. subst a. eexists _, _. rewrite lookup_insert_eq.
        split; [done|]. rewrite elem_of_app, list_elem_of_singleton. by right.
      * intros El Hres. destruct (H6 a l El Hres) as (k & ws & Hws & Hin).
        destruct (decide (k = id (ParseCustomEmojiData data))) as [->|Hne].
        -- eexists _, _. rewrite lookup_insert_eq. split; [done|].
           rewrite Hws. simpl. rewrite elem_of_app. by left.
        -- exists k, ws. by rewrite lookup_insert_ne.
Qed.

(** Sending a batch moves ids from the pending set to the requests sent. *)
Lemma queueOk_batch m m' :
  _pendingForRequest m <> [] ->
  sent m' = sent m ++ [take kMaxPerRequest (rev (_pendingForRequest m))] ->
  _pendingForRequest m' = rev (drop kMaxPerRequest (rev (_pendingForRequest m))) ->
  _instances m' = _instances m ->
  queueOk m -> queueOk m' /\ queued m' ≡ₚ queued m.
Proof.
  intros Hne Hs Hp Hi (Q1 & Q2 & Q3).
  assert (queued m' ≡ₚ queued m) as Hperm.
  { unfold queued. rewrite Hs, Hp, concat_app. simpl. rewrite app_nil_r, <- app_assoc.
    apply Permutation_app_head.
    rewrite <- (batch_split (_pendingForRequest m)) at 3.
    rewrite Permutation_app_comm. apply Permutation_app_head, Permutation_rev. }
  split; [|done]. unfold queueOk. rewrite Hperm, Hi, Hs.
  split; [done|]. split; [by setoid_rewrite Hperm|].
  apply Forall_app. split; [done|]. constructor; [|constructor].
  assert (length (take kMaxPerRequest (rev (_pendingForRequest m))) <> 0%nat)
    as Hlen.
  { intros E. by apply (take_rev_nonempty _ Hne), nil_length_inv. }
  unfold batchOk. rewrite length_take in *. unfold kMaxPerRequest in *. lia.
Qed.

Lemma runPosted_fields m :
  _loaders (runPosted m) = _loaders m /\ heap (runPosted m) = heap m
  /\ allocated (runPosted m) = allocated m /\ _instances (runPosted m) = _instances m
  /\ posted (runPosted m) = Nat.pred (posted m).
Proof.
  unfold runPosted.
  match goal with |- context [request ?m0] =>
    destruct (request_fields m0) as (-> & -> & -> & -> & _ & ->) end.
  done.
Qed.

Lemma requestFinished_rest m :
  _instances (requestFinished m) = _instances m
  /\ posted (requestFinished m) = posted m.
Proof.
  unfold requestFinished. simpl.
  destruct (_pendingForRequest m); [done|].
  match goal with |- context [request ?m0] =>
    destruct (request_fields m0) as (_ & _ & _ & -> & _ & ->) end.
  done.
Qed.

Lemma managerInv_runPosted m :
  (0 < posted m)%nat -> managerInv m -> managerInv (runPosted m).
Proof.
  intros Hpos (H1 & H2 & (P1 & P2 & P3 & P4) & H4 & H5 & H6).
  assert (posted m = 1%nat) as Hone by lia.
  destruct (P2 Hone) as [Hrid Hne].
  destruct (runPosted_spec m Hne) as (Hs & Hp & Hr).
  destruct (runPosted_fields m) as (Hl & Hh & Ha & Hi & Hpo).
  destruct (queueOk_batch m _ Hne Hs Hp Hi H4) as [H4' Hperm].
  split; [by apply loadersOk_runPosted|].
  split; [by apply (registryOk_ext m)|].
  split.
  { unfold queueState. rewrite Hr, Hs, Hpo, Hone, length_app. simpl.
    repeat split; try done; lia. }
  split; [done|]. split.
  - apply (waitersOk_aged m); [done| |rewrite Hh; apply agedHeap_refl|done].
    intros k. by rewrite Hperm.
  - apply (resolvingListed_aged m); [done| |done]. rewrite Hh. apply agedHeap_refl.
Qed.

Lemma managerInv_requestFinished m :
  posted m = 0%nat ->
  loadersOk m -> registryOk m -> queueOk m -> waitersOk m -> resolvingListed m ->
  managerInv (requestFinished m).
Proof.
  intros Hpo H1 H2 H4 H5 H6.
  destruct (requestFinished_fields m) as (Hl & Hh & Ha).
  destruct (requestFinished_rest m) as (Hi & Hpo').
  destruct (requestFinished_spec m) as [Hsome Hnone].
  split; [by apply loadersOk_requestFinished|].
  split; [by apply (registryOk_ext m)|].
  destruct (_pendingForRequest m) as [|x rest] eqn:Ep.
  - destruct (Hnone eq_refl) as (Hs & Hp & Hr).
    split.
    { unfold queueState. rewrite Hr, Hs, Hpo', Hpo, Hp. repeat split; try done; lia. }
    split; [apply (queueOk_ext m); [by rewrite Hp| |done|done]; done|].
    split.
    + apply (waitersOk_aged m); [done| |rewrite Hh; apply agedHeap_refl|done].
      intros k. rewrite (queued_ext m (requestFinished m)); [done| |done].
      by rewrite Hp.
    + apply (resolvingListed_aged m); [done| |done]. rewrite Hh. apply agedHeap_refl.
  - assert (_pendingForRequest m <> []) as Hne by (by rewrite Ep).
    rewrite <- Ep in Hsome. destruct (Hsome Hne) as (Hs & Hp & Hr).
    destruct (queueOk_batch m _ Hne Hs Hp Hi H4) as [H4' Hperm].
    split.
    { unfold queueState. rewrite Hr, Hs, Hpo', Hpo, length_app. simpl.
      repeat split; try done; lia. }
    split; [done|]. split.
    + apply (waitersOk_aged m); [done| |rewrite Hh; apply agedHeap_refl|done].
      intros k. by rewrite Hperm.
    + apply (resolvingListed_aged m); [done| |done]. rewrite Hh. apply agedHeap_refl.
Qed.

Lemma resolved_leaves s d l l' es :
  resolved s d l = Some (l', es) -> resolving l' = false.
Proof.
  unfold resolving.
  destruct l as [[requested ed|d0 [p|]|d0 [p|]] tag]; intros H; loader_cases.
Qed.

Lemma resolveWeak_done d w m m' l :
  resolveWeak d w m = Some m' -> heap m' !! w = Some l -> resolving l = false.
Proof.
  unfold resolveWeak. destruct (heap m !! w) as [strong|] eqn:E.
  - destruct (resolved (_owner m) d strong) as [[strong' es]|] eqn:R; [|done].
    intros [= <-]. simpl. rewrite lookup_insert_eq. intros [= <-].
    by apply (resolved_leaves _ _ _ _ _ R).
  - intros [= <-]. congruence.
Qed.

Lemma forEach_resolveWeak_done d ws m m' :
  NoDup ws ->
  (forall w l, w ∈ ws -> heap m !! w = Some l -> resolving l = true) ->
  forEach (resolveWeak d) ws m = Some m' ->
  forall a l, a ∈ ws -> heap m' !! a = Some l -> resolving l = false.
Proof.
  revert m. induction ws as [|w ws IH]; intros m Hnd Hres Hrun a l Ha.
  { by apply elem_of_nil in Ha. }
  apply NoDup_cons in Hnd as [Hw Hnd].
  destruct (resolveWeak_ok d w m) as (m1 & E1 & _ & _ & Hh1).
  { intros l0. apply Hres. by left. }
  simpl in Hrun. rewrite E1 in Hrun.
  assert (forall w' l0, w' ∈ ws -> heap m1 !! w' = Some l0 -> resolving l0 = true)
    as Hres1.
  { intros w' l0 Hw'. rewrite Hh1 by (intros ->; done). apply Hres. by right. }
  apply elem_of_cons in Ha as [->|Ha].
  - destruct (forEach_resolveWeak_ok d ws m1 Hnd Hres1) as (m2 & E2 & _ & _ & Hh2).
    rewrite Hrun in E2. injection E2 as <-. rewrite (Hh2 w Hw).
    by apply (resolveWeak_done d w m).
  - by apply (IH m1).
Qed.

(** Taking the loaders of a document, all of which leave the resolve
    state, keeps the other waiters and forgets nobody. *)
Lemma waiters_take d m m' :
  _loaders m' = delete d (_loaders m) ->
  queued m' = queued m ->
  (forall a, (forall ws, _loaders m !! d = Some ws -> a ∉ ws) ->
             heap m' !! a = heap m !! a) ->
  (forall a l ws, _loaders m !! d = Some ws -> a ∈ ws ->
                  heap m' !! a = Some l -> resolving l = false) ->
  loadersOk m -> waitersOk m -> resolvingListed m ->
  waitersOk m' /\ resolvingListed m'.
Proof.
  intros Hl Hq Hh Hleft H1 H5 H6. split.
  - intros k ws. rewrite Hl, Hq, lookup_delete_Some. intros [Hk Hws].
    destruct (H5 k ws Hws) as [Hin Hres]. split; [done|].
    intros w l Hw. rewrite Hh; [by apply Hres|].
    intros ws' Hws' Hin'. destruct (H1 k ws Hws) as (_ & _ & _ & Huniq).
    by destruct (Huniq d ws' w Hws' Hw Hin').
  - intros a l Hal Hres. rewrite Hl.
    destruct (_loaders m !! d) as [ws|] eqn:Ed.
    + destruct (decide (a ∈ ws)) as [Hin|Hin].
      { rewrite (Hleft a l ws eq_refl Hin Hal) in Hres. done. }
      rewrite Hh in Hal by (by intros ws' [= <-]).
      destruct (H6 a l Hal Hres) as (k & ws0 & Hws0 & Hin0).
      exists k, ws0. split; [|done]. apply lookup_delete_Some. split; [|done].
      intros <-. congruence.
    + rewrite Hh in Hal by done.
      destruct (H6 a l Hal Hres) as (k & ws0 & Hws0 & Hin0).
      exists k, ws0. split; [|done]. apply lookup_delete_Some. split; [|done].
      intros <-. congruence.
Qed.

Lemma processEntry_inv entry m :
  loadersOk m -> waitersOk m -> resolvingListed m ->
  exists m', processEntry entry m = Some m' /\ sameQueue m m'
    /\ loadersOk m' /\ waitersOk m' /\ resolvingListed m'.
Proof.
  intros H1 H5 H6.
  destruct (processEntry_ok entry m H1) as (m' & E & Hq & H1').
  exists m'. split; [done|]. split; [done|]. split; [done|].
  destruct Hq as (Hp & Hr & Hs & Hpo & Ha & Hi).
  revert E. unfold processEntry, processDocument.
  destruct (_loaders m !! entryId entry) as [ws|] eqn:Ews.
  - destruct (H1 _ _ Ews) as (Hnd & Hres & _).
    match goal with |- forEach _ ws ?m1 = _ -> _ =>
      destruct (forEach_resolveWeak_ok (entryId entry) ws m1 Hnd Hres)
        as (m2 & E2 & _ & Hl & Hh);
      pose proof (forEach_resolveWeak_done (entryId entry) ws m1) as Hdone
    end.
    rewrite E2. intros [= ->].
    apply (waiters_take (entryId entry) m); try done.
    + by apply queued_ext.
    + intros a Ha'. rewrite Hh; [done|]. by apply Ha'.
    + intros a l ws' Hws' Hin.
      pose proof (eq_trans (eq_sym Ews) Hws') as [= <-].
      by apply (Hdone m' Hnd Hres E2).
  - intros [= <-]. apply (waiters_take (entryId entry) m); try done.
    intros a l ws Hws. pose proof (eq_trans (eq_sym Ews) Hws). done.
Qed.

Lemma forEach_processEntry_inv result m :
  loadersOk m -> waitersOk m -> resolvingListed m ->
  exists m', forEach processEntry result m = Some m' /\ sameQueue m m'
    /\ loadersOk m' /\ waitersOk m' /\ resolvingListed m'.
Proof.
  revert m. induction result as [|entry result IH]; intros m H1 H5 H6.
  - exists m. split; [done|]. split; [apply sameQueue_refl|done].
  - destruct (processEntry_inv entry m H1 H5 H6) as (m1 & E1 & Hq1 & H1' & H5' & H6').
    destruct (IH m1 H1' H5' H6') as (m2 & E2 & Hq2 & Hrest).
    exists m2. simpl. rewrite E1. split; [done|].
    split; [by apply (sameQueue_trans _ m1)|done].
Qed.

Lemma managerInv_complete reply m :
  _requestId m <> 0%nat -> managerInv m ->
  exists m', complete reply m = Some m' /\ managerInv m'.
Proof.
  intros Hrid (H1 & H2 & (P1 & P2 & P3 & P4) & H4 & H5 & H6).
  assert (posted m = 0%nat) as Hpo.
  { destruct (posted m) as [|[|n]]; [done| |lia]. by destruct P2. }
  destruct reply as [result|]; simpl; unfold done, fail.
  - destruct (forEach_processEntry_inv result m H1 H5 H6)
      as (m1 & -> & (Hp & Hr & Hs & Hpo1 & Ha & Hi) & H1' & H5' & H6').
    eexists. split; [done|]. apply managerInv_requestFinished; try done.
    + congruence.
    + by apply (registryOk_ext m).
    + by apply (queueOk_ext m).
  - eexists. split; [done|]. by apply managerInv_requestFinished.
Qed.

Lemma managerInv_step e m m' :
  step e m = Some m' -> managerInv m -> managerInv m'.
Proof.
  destruct e as [data update| |reply|a op|a|s]; simpl.
  - intros [= <-]. apply managerInv_create.
  - destruct (Nat.ltb_spec 0 (posted m)) as [Hpos|]; [|done].
    intros [= <-]. by apply managerInv_runPosted.
  - destruct (Nat.eqb_spec (_requestId m) 0) as [|Hrid]; [done|].
    intros E Hinv. destruct (managerInv_complete reply m Hrid Hinv) as (m2 & E2 & H2).
    congruence.
  - unfold onLoader. intros E Hinv.
    destruct (heap m !! a) as [l|] eqn:El; [|by destruct op].
    destruct (applyOp (_owner m) op l) as [[l' es]|] eqn:Eop; [|by destruct op].
    assert (m' = setHeap m (<[a := l']> (heap m)) (map (pair a) es)
            /\ forall d, op <> OpResolved d) as [-> Hop].
    { destruct op; try done; by injection E as <-. }
    apply (managerInv_aged m); try done. simpl.
    by apply (agedHeap_op (_owner m) _ _ op l l' es).
  - intros [= <-]. apply (managerInv_aged m); try done. apply agedHeap_delete.
  - intros [= <-]. apply (managerInv_aged m); try done. apply agedHeap_refl.
Qed.

Lemma managerInv_run events m m' :
  run events m = Some m' -> managerInv m -> managerInv m'.
Proof.
  revert m. induction events as [|e rest IH]; intros m; simpl.
  - by intros [= <-].
  - destruct (step e m) as [m1|] eqn:E; [|done].
    intros Hrun Hinv. apply (IH m1 Hrun). by apply (managerInv_step e m).
Qed.

Lemma create_sent data update m : sent (snd (create data update m)) = sent m.
Proof. unfold create, enqueue. by repeat case_match. Qed.

Lemma request_sent m : exists later, sent (request m) = sent m ++ later.
Proof.
  unfold request. destruct (drain _ _ _) as [pending [|i ids]]; simpl.
  - exists []. by rewrite app_nil_r.
  - by eexists.
Qed.

Lemma step_sent e m m' :
  loadersOk m -> step e m = Some m' -> exists later, sent m' = sent m ++ later.
Proof.
  intros Hok. destruct e as [data update| |reply|a op|a|s]; simpl.
  - intros [= <-]. exists []. by rewrite create_sent, app_nil_r.
  - destruct (Nat.ltb 0 (posted m)); [|done]. intros [= <-]. unfold runPosted.
    match goal with |- context [request ?m0] => apply (request_sent m0) end.
  - destruct (Nat.eqb (_requestId m) 0); [done|]. intros E.
    destruct (complete_ok reply m Hok) as (m2 & E2 & _ & Hsome & Hnone).
    rewrite E in E2. injection E2 as <-.
    destruct (_pendingForRequest m) as [|x rest] eqn:Ep.
    + destruct (Hnone eq_refl) as (-> & _). exists []. by rewrite app_nil_r.
    + destruct Hsome as (-> & _); [done|]. by eexists.
  - unfold onLoader. intros E. exists []. rewrite app_nil_r.
    destruct (heap m !! a) as [l|]; [|by destruct op].
    destruct (applyOp (_owner m) op l) as [[l' es]|]; [|by destruct op].
    destruct op; try done; by injection E as <-.
  - intros [= <-]. exists []. by rewrite app_nil_r.
  - intros [= <-]. exists []. by rewrite app_nil_r.
Qed.

Lemma run_sent events m m' :
  managerInv m -> run events m = Some m' ->
  exists later, sent m' = sent m ++ later.
Proof.
  revert m. induction events as [|e rest IH]; intros m Hinv; simpl.
  - intros [= <-]. exists []. by rewrite app_nil_r.
  - destruct (step e m) as [m1|] eqn:E; [|done]. intros Hrun.
    destruct (step_sent e m m1 (proj1 Hinv) E) as (l1 & E1).
    destruct (IH m1 (managerInv_step e m m1 E Hinv) Hrun) as (l2 & E2).
    exists (l1 ++ l2). by rewrite E2, E1, app_assoc.
Qed.

Lemma logOf_app a log1 log2 : logOf a (log1 ++ log2) = logOf a log1 ++ logOf a log2.
Proof. unfold logOf. by rewrite List.filter_app, map_app. Qed.

Lemma logOf_same a es : logOf a (map (pair a) es) = es.
Proof.
  unfold logOf. induction es as [|e es IH]; simpl; [done|].
  rewrite Nat.eqb_refl. simpl. by rewrite IH.
Qed.

Lemma logOf_other a w es : w <> a -> logOf a (map (pair w) es) = [].
Proof.
  intros Hne. unfold logOf. induction es as [|e es IH]; simpl; [done|].
  by destruct (Nat.eqb_spec w a).
Qed.

(** What one step of the loop over the waiters does. *)
Lemma resolveWeak_at d w m m' :
  resolveWeak d w m = Some m' ->
  _owner m' = _owner m
  /\ (forall a, a <> w ->
        heap m' !! a = heap m !! a /\ effectsOf a m' = effectsOf a m)
  /\ match heap m !! w with
     | Some l =>
         exists l' es, resolved (_owner m) d l = Some (l', es)
           /\ heap m' !! w = Some l'
           /\ effectsOf w m' = effectsOf w m ++ es
     | None => heap m' !! w = None /\ effectsOf w m' = effectsOf w m
     end.
Proof.
  unfold resolveWeak. destruct (heap m !! w) as [l|] eqn:El.
  - destruct (resolved (_owner m) d l) as [[l' es]|] eqn:R; [|done].
    intros [= <-]. unfold effectsOf. simpl. split; [done|]. split.
    + intros a Ha. rewrite lookup_insert_ne by done.
      by rewrite logOf_app, logOf_other, app_nil_r.
    + exists l', es. rewrite lookup_insert_eq, logOf_app, logOf_same. done.
  - intros [= <-]. by rewrite El.
Qed.

(** What the loop over the waiters of a document does: each live waiter
    gets [resolved] once, on the object it was before the loop, and
    nothing else changes. *)
Lemma forEach_resolveWeak_at d ws m m' :
  NoDup ws -> forEach (resolveWeak d) ws m = Some m' ->
  _owner m' = _owner m
  /\ (forall a, a ∉ ws ->
        heap m' !! a = heap m !! a /\ effectsOf a m' = effectsOf a m)
  /\ (forall a, a ∈ ws ->
        match heap m !! a with
        | Some l =>
            exists l' es, resolved (_owner m) d l = Some (l', es)
              /\ heap m' !! a = Some l'
              /\ effectsOf a m' = effectsOf a m ++ es
        | None => heap m' !! a = None /\ effectsOf a m' = effectsOf a m
        end).
Proof.
  revert m. induction ws as [|w ws IH]; intros m Hnd; simpl.
  - intros [= <-]. split; [done|]. split; [done|].
    intros a Ha. by apply elem_of_nil in Ha.
  - apply NoDup_cons in Hnd as [Hw Hnd].
    destruct (resolveWeak d w m) as [m1|] eqn:E1; [|done]. intros Hrun.
    destruct (resolveWeak_at d w m m1 E1) as (Ho1 & Hframe1 & Hat1).
    destruct (IH m1 Hnd Hrun) as (Ho2 & Hframe2 & Hat2).
    split; [congruence|]. split.
    + intros a Ha. apply not_elem_of_cons in Ha as [Hne Ha].
      destruct (Hframe2 a Ha) as [-> ->]. by apply Hframe1.
    + intros a Ha. apply elem_of_cons in Ha as [->|Ha].
      * destruct (Hframe2 w Hw) as [Hh He]. rewrite Hh, He. exact Hat1.
      * assert (a <> w) as Hne by (by intros ->).
        destruct (Hframe1 a Hne) as [Hh He].
        specialize (Hat2 a Ha). by rewrite Hh, He, Ho1 in Hat2.
Qed.

(** What the body of the loop over a reply does. *)
Lemma processEntry_at entry m m' :
  loadersOk m -> processEntry entry m = Some m' ->
  _owner m' = snd (processDocument entry (_owner m))
  /\ _loaders m' = delete (entryId entry) (_loaders m)
  /\ sameQueue m m'
  /\ (forall a, a ∉ default [] (_loaders m !! entryId entry) ->
        heap m' !! a = heap m !! a /\ effectsOf a m' = effectsOf a m)
  /\ (forall a, a ∈ default [] (_loaders m !! entryId entry) ->
        match heap m !! a with
        | Some l =>
            exists l' es, resolved (_owner m') (entryId entry) l = Some (l', es)
              /\ heap m' !! a = Some l'
              /\ effectsOf a m' = effectsOf a m ++ es
        | None => heap m' !! a = None /\ effectsOf a m' = effectsOf a m
        end).
Proof.
  intros Hok E. destruct (processEntry_ok entry m Hok) as (m2 & E2 & Hq & _).
  rewrite E in E2. injection E2 as <-.
  revert E. unfold processEntry, processDocument.
  destruct (_loaders m !! entryId entry) as [ws|] eqn:Ews; simpl.
  - destruct (Hok _ _ Ews) as (Hnd & Hres & _). intros E.
    match type of E with forEach _ ws ?m1 = _ =>
      destruct (forEach_resolveWeak_ok (entryId entry) ws m1 Hnd Hres)
        as (m2 & E2 & _ & Hl & _);
      destruct (forEach_resolveWeak_at (entryId entry) ws m1 m' Hnd E)
        as (Ho & Hframe & Hat)
    end.
    rewrite E in E2. injection E2 as <-.
    simpl in *. split; [done|]. split; [done|]. split; [done|].
    split; [done|]. intros a Ha. specialize (Hat a Ha). by rewrite Ho.
  - intros [= <-]. simpl. split; [done|]. split; [done|]. split; [done|].
    split; [done|]. intros a Ha. by apply elem_of_nil in Ha.
Qed.

Lemma assetOf_kept s op l l' log :
  applyOp s op l = Some (l', log) -> (forall d, op <> OpResolved d) ->
  assetOf l' = assetOf l.
Proof.
  unfold assetOf.
  destruct l as [[requested ed|d [p|]|d [p|]] tag], op as [f| |d'|r|];
    intros H Hop; try (by destruct (Hop d')); loader_cases.
Qed.

Lemma assetOf_resolved s d l l' es :
  resolved s d l = Some (l', es) -> assetOf l' = d.
Proof.
  unfold assetOf.
  destruct l as [[requested ed|d0 [p|]|d0 [p|]] tag]; intros H; loader_cases.
Qed.

Lemma servesOk_init s : servesOk (init s).
Proof. intros k a. simpl. by rewrite lookup_empty. Qed.

Lemma servesOk_ext m m' :
  _instances m' = _instances m -> heap m' = heap m -> servesOk m -> servesOk m'.
Proof. intros Hi Hh Hok k a. rewrite Hi, Hh. apply Hok. Qed.

Lemma servesOk_allocate k loader m m' :
  0 < k <= uint64_max -> assetOf loader = k ->
  _instances m' = <[k := allocated m]> (_instances m) ->
  heap m' = <[allocated m := loader]> (heap m) ->
  registryOk m -> servesOk m -> servesOk m'.
Proof.
  intros Hk Hasset Hi Hh [Hlt _] Hok k' a. rewrite Hi, Hh, lookup_insert.
  case_decide as Ek.
  - intros [= <-]. subst k'. split; [done|]. intros l.
    rewrite lookup_insert_eq. by intros [= <-].
  - intros Ha. specialize (Hlt k' a Ha). rewrite lookup_insert_ne by lia.
    by apply Hok.
Qed.

Lemma servesOk_create data update m :
  registryOk m -> servesOk m -> servesOk (snd (create data update m)).
Proof.
  intros Hreg Hok.
  destruct (N.eq_dec (id (ParseCustomEmojiData data)) 0) as [Hz|Hz].
  { by rewrite create_null. }
  destruct (_instances m !! id (ParseCustomEmojiData data)) as [i|] eqn:Ei.
  { unfold create. apply N.eqb_neq in Hz. by rewrite Hz, Ei. }
  assert (0 < id (ParseCustomEmojiData data) <= uint64_max) as Hk.
  { split; [lia|apply parse_bound]. }
  destruct (sticker (_owner m) (id (ParseCustomEmojiData data))) eqn:Est.
  - destruct (create_known data update m Hz Ei Est)
      as (_ & _ & _ & _ & _ & Hi & Hh & _).
    refine (servesOk_allocate _ _ m _ Hk _ Hi Hh Hreg Hok).
    unfold assetOf, fromId, InitialState. by rewrite Est.
  - destruct (create_fresh data update m Hz Est Ei) as (_ & _ & _ & _ & Hi & _).
    destruct (create_unknown data update m Hz Ei Est) as (_ & Hh & _).
    refine (servesOk_allocate _ _ m _ Hk _ Hi Hh Hreg Hok).
    unfold assetOf. simpl. rewrite parse_of_serialized. simpl.
    apply toULongLong_number, parse_bound.
Qed.

Lemma servesOk_processEntry entry m m' :
  loadersOk m -> waitersOk m -> servesOk m ->
  processEntry entry m = Some m' -> servesOk m'.
Proof.
  intros H1 H5 Hok E.
  destruct (processEntry_at entry m m' H1 E) as (_ & _ & Hq & Hframe & Hat).
  destruct Hq as (_ & _ & _ & _ & _ & Hi).
  intros k a. rewrite Hi. intros Ha. destruct (Hok k a Ha) as [Hk Hserves].
  split; [done|]. intros l' Hl'.
  destruct (decide (a ∈ default [] (_loaders m !! entryId entry))) as [Hin|Hin].
  - specialize (Hat a Hin). destruct (heap m !! a) as [l|] eqn:El.
    + destruct Hat as (l2 & es & R & Hl2 & _).
      rewrite Hl' in Hl2. injection Hl2 as <-.
      rewrite (assetOf_resolved _ _ _ _ _ R).
      rewrite <- (Hserves l eq_refl).
      destruct (_loaders m !! entryId entry) as [ws|] eqn:Ews;
        [|by apply elem_of_nil in Hin].
      destruct (H5 _ _ Ews) as [_ Hres].
      destruct (Hres a l Hin El) as (r & ed & Hst & Hid).
      unfold assetOf. by rewrite Hst.
    + destruct Hat as [Hnone _]. congruence.
  - destruct (Hframe a Hin) as [Hh _]. rewrite Hh in Hl'. by apply Hserves.
Qed.

Lemma servesOk_forEach_processEntry result m m' :
  loadersOk m -> waitersOk m -> resolvingListed m -> servesOk m ->
  forEach processEntry result m = Some m' -> servesOk m'.
Proof.
  revert m. induction result as [|entry result IH]; intros m H1 H5 H6 Hok; simpl.
  - by intros [= <-].
  - destruct (processEntry entry m) as [m1|] eqn:E1; [|done].
    destruct (processEntry_inv entry m H1 H5 H6) as (m2 & E2 & _ & H1' & H5' & H6').
    rewrite E1 in E2. injection E2 as <-.
    apply (IH m1); try done. by apply (servesOk_processEntry entry m).
Qed.

Lemma servesOk_step e m m' :
  step e m = Some m' -> managerInv m -> servesOk m -> servesOk m'.
Proof.
  intros E (H1 & H2 & H3 & H4 & H5 & H6) Hok. revert E.
  destruct e as [data update| |reply|a op|a|s]; simpl.
  - intros [= <-]. by apply servesOk_create.
  - destruct (Nat.ltb 0 (posted m)); [|done]. intros [= <-].
    destruct (runPosted_fields m) as (_ & Hh & _ & Hi & _).
    by apply (servesOk_ext m).
  - destruct (Nat.eqb (_requestId m) 0); [done|].
    destruct reply as [result|]; simpl; unfold done, fail.
    + destruct (forEach processEntry result m) as [m1|] eqn:E1; [|done].
      intros [= <-].
      destruct (requestFinished_fields m1) as (_ & Hh & _).
      destruct (requestFinished_rest m1) as (Hi & _).
      apply (servesOk_ext m1); try done.
      by apply (servesOk_forEach_processEntry result m).
    + intros [= <-].
      destruct (requestFinished_fields m) as (_ & Hh & _).
      destruct (requestFinished_rest m) as (Hi & _).
      by apply (servesOk_ext m).
  - unfold onLoader. intros E.
    destruct (heap m !! a) as [l|] eqn:El; [|by destruct op].
    destruct (applyOp (_owner m) op l) as [[l' es]|] eqn:Eop; [|by destruct op].
    assert (m' = setHeap m (<[a := l']> (heap m)) (map (pair a) es)
            /\ forall d, op <> OpResolved d) as [-> Hop].
    { destruct op; try done; by injection E as <-. }
    intros k b. simpl. intros Hb. destruct (Hok k b Hb) as [Hk Hserves].
    split; [done|]. intros l0. rewrite lookup_insert. case_decide as Eab.
    + intros [= <-]. subst b. rewrite (assetOf_kept _ _ _ _ _ Eop Hop).
      by apply Hserves.
    + apply Hserves.
  - intros [= <-]. intros k b. simpl. intros Hb.
    destruct (Hok k b Hb) as [Hk Hserves]. split; [done|].
    intros l. rewrite lookup_delete_Some. intros [_ Hl]. by apply Hserves.
  - intros [= <-]. by apply (servesOk_ext m).
Qed.

Lemma servesOk_run events m m' :
  run events m = Some m' -> managerInv m -> servesOk m -> servesOk m'.
Proof.
  revert m. induction events as [|e rest IH]; intros m; simpl.
  - by intros [= <-].
  - destruct (step e m) as [m1|] eqn:E; [|done].
    intros Hrun Hinv Hok. apply (IH m1 Hrun).
    + by apply (managerInv_step e m).
    + by apply (servesOk_step e m).
Qed.


Lemma entityData_asset s l :
  assetOf l <= uint64_max -> id (ParseCustomEmojiData (entityData s l)) = assetOf l.
Proof.
  unfold entityData, assetOf. destruct (_state l) as [r ed|d p|d p]; [done| |];
    apply parse_serialized_id.
Qed.




End ManagerInvariant.



(** X13.  The request queue of a manager is always in one of three
    states: idle with nothing pending, one call of [request] posted and
    no request in flight, or one request in flight, which is the last one
    sent, and no call posted.  Never are two calls of [request] posted,
    and pending ids are never stranded. *)
Theorem X13_one_request_at_a_time (events : list Event) (s : Session)
    (m : CustomEmojiManager.Manager) :
  run events (CustomEmojiManager.init s) = Some m ->
  (CustomEmojiManager.posted m <= 1)%nat
  /\ (CustomEmojiManager._requestId m <> 0%nat ->
      CustomEmojiManager.posted m = 0%nat
      /\ CustomEmojiManager._requestId m = length (CustomEmojiManager.sent m))
  /\ (CustomEmojiManager.posted m = 1%nat ->
      CustomEmojiManager._pendingForRequest m <> [])
  /\ (CustomEmojiManager._pendingForRequest m <> [] ->
      CustomEmojiManager.posted m = 1%nat
      \/ CustomEmojiManager._requestId m <> 0%nat).
Proof.
  intros Hrun.
  pose proof (managerInv_run _ _ _ Hrun (managerInv_init s))
    as (_ & _ & (P1 & P2 & P3 & P4) & _).
  split; [done|]. split; [|split].
  - intros Hrid. split; [|by apply P4].
    destruct (CustomEmojiManager.posted m) as [|[|n]]; [done| |lia].
    by destruct P2.
  - intros Hone. by destruct P2.
  - intros Hne.
    destruct (Nat.eq_dec (CustomEmojiManager._requestId m) 0%nat) as [E|E]; [|by right].
    left. destruct (CustomEmojiManager.posted m) as [|[|n]]; [|done|lia].
    by destruct Hne; apply P3.
Qed.

Lemma X13_one_request_witness :
  exists m, run sampleEvents (CustomEmojiManager.init blankSession) = Some m
    /\ (CustomEmojiManager.posted m <= 1)%nat.
Proof.
  destruct (run sampleEvents (CustomEmojiManager.init blankSession)) as [m|] eqn:E;
    [|by vm_compute in E].
  exists m. split; [done|].
  exact (proj1 (X13_one_request_at_a_time sampleEvents blankSession m E)).
Defined.

(** X14.  No id is asked for twice: over all the batches a manager has
    sent and its pending set together, every id occurs once, and each is
    a non-zero id that has an instance in the registry. *)
Theorem X14_no_id_queued_twice (events : list Event) (s : Session)
    (m : CustomEmojiManager.Manager) :
  run events (CustomEmojiManager.init s) = Some m ->
  NoDup (queued m)
  /\ forall k, k ∈ queued m ->
       k <> 0 /\ is_Some (CustomEmojiManager._instances m !! k).
Proof.
  intros Hrun.
  pose proof (managerInv_run _ _ _ Hrun (managerInv_init s))
    as (_ & _ & _ & (Q1 & Q2 & _) & _).
  by split.
Qed.

Lemma X14_no_id_queued_twice_witness :
  exists m, run sampleEvents (CustomEmojiManager.init blankSession) = Some m
    /\ NoDup (queued m).
Proof.
  destruct (run sampleEvents (CustomEmojiManager.init blankSession)) as [m|] eqn:E;
    [|by vm_compute in E].
  exists m. split; [done|].
  exact (proj1 (X14_no_id_queued_twice sampleEvents blankSession m E)).
Defined.

(** X15.  No request is sent empty or over the limit: every batch a
    manager has ever sent holds between 1 and 100 ids, no id twice, and a
    request in flight is one of them. *)
Theorem X15_every_batch_well_formed (events : list Event) (s : Session)
    (m : CustomEmojiManager.Manager) :
  run events (CustomEmojiManager.init s) = Some m ->
  (forall batch, batch ∈ CustomEmojiManager.sent m ->
     (0 < length batch <= CustomEmojiManager.kMaxPerRequest)%nat
     /\ NoDup batch)
  /\ (CustomEmojiManager._requestId m <> 0%nat ->
      exists batch, last (CustomEmojiManager.sent m) = Some batch).
Proof.
  intros Hrun.
  pose proof (managerInv_run _ _ _ Hrun (managerInv_init s))
    as (_ & _ & (_ & _ & _ & P4) & (Q1 & _ & Q3) & _).
  split.
  - intros batch Hin. split; [by apply (proj1 (Forall_forall _ _) Q3)|].
    apply list_elem_of_split in Hin as (before & after & Hsent).
    unfold queued in Q1. rewrite Hsent, concat_app in Q1. simpl in Q1.
    apply NoDup_app in Q1 as (Q1 & _). apply NoDup_app in Q1 as (_ & _ & Q1).
    by apply NoDup_app in Q1 as (Q1 & _).
  - intros Hrid. specialize (P4 Hrid).
    destruct (CustomEmojiManager.sent m) as [|b rest] using rev_ind; [done|].
    exists b. by rewrite last_snoc.
Qed.

Lemma X15_every_batch_witness :
  exists m batch,
    run sampleEvents (CustomEmojiManager.init blankSession) = Some m
    /\ batch ∈ CustomEmojiManager.sent m
    /\ (0 < length batch <= 100)%nat.
Proof.
  destruct (run sampleEvents (CustomEmojiManager.init blankSession)) as [m|] eqn:E;
    [|by vm_compute in E].
  assert ([9; 5] ∈ CustomEmojiManager.sent m) as Hin.
  { vm_compute in E. injection E as <-. by left. }
  exists m, [9; 5]. split; [done|]. split; [done|].
  exact (proj1 (proj1 (X15_every_batch_well_formed sampleEvents blankSession m E)
                  [9; 5] Hin)).
Defined.

(** X16.  No loader is left resolving unnoticed: a live loader in the
    resolve state is listed in [_loaders] under the id its token parses
    to, under no other id, and that id has been sent in a request or is
    pending. *)
Theorem X16_resolving_loaders_wait (events : list Event) (s : Session)
    (m : CustomEmojiManager.Manager) (a : nat) (l : CustomEmojiLoader.Loader)
    (requested : Fn) (token : QString) :
  run events (CustomEmojiManager.init s) = Some m ->
  CustomEmojiManager.heap m !! a = Some l ->
  CustomEmojiLoader._state l = CustomEmojiLoader.Resolve requested token ->
  (exists ws,
     CustomEmojiManager._loaders m !! id (ParseCustomEmojiData token) = Some ws
     /\ a ∈ ws)
  /\ (forall k ws, CustomEmojiManager._loaders m !! k = Some ws -> a ∈ ws ->
                   k = id (ParseCustomEmojiData token))
  /\ id (ParseCustomEmojiData token) ∈ queued m.
Proof.
  intros Hrun Hl Hst.
  pose proof (managerInv_run _ _ _ Hrun (managerInv_init s))
    as (H1 & _ & _ & _ & H5 & H6).
  destruct (H6 a l Hl) as (k & ws & Hws & Hin).
  { unfold CustomEmojiLoader.resolving. by rewrite Hst. }
  destruct (H5 k ws Hws) as [Hq Hres].
  destruct (Hres a l Hin Hl) as (r & ed & Hst' & Hid).
  rewrite Hst in Hst'. injection Hst' as -> ->. subst k.
  split; [by exists ws|]. split; [|done].
  intros k' ws' Hws' Hin'. destruct (H1 _ _ Hws) as (_ & _ & _ & Huniq).
  symmetry. by apply (Huniq k' ws' a).
Qed.

Lemma X16_resolving_loaders_witness :
  exists m l,
    run (take 5 sampleEvents) (CustomEmojiManager.init blankSession) = Some m
    /\ CustomEmojiManager.heap m !! 0%nat = Some l
    /\ 5 ∈ queued m.
Proof.
  destruct (run (take 5 sampleEvents) (CustomEmojiManager.init blankSession))
    as [m|] eqn:E; [|by vm_compute in E].
  destruct (CustomEmojiManager.heap m !! 0%nat) as [l|] eqn:El.
  2: { vm_compute in E. injection E as <-. by vm_compute in El. }
  exists m, l. split; [done|]. split; [done|].
  refine (proj2 (proj2 (X16_resolving_loaders_wait (take 5 sampleEvents)
                          blankSession m 0%nat l (Some 3%nat) "5:7" E El _))).
  vm_compute in E. injection E as <-. vm_compute in El. by injection El as <-.
Defined.

(** X17.  An id that has gone out in a request is never asked for again,
    whether that request succeeded or failed and whatever happens later:
    the batches sent only grow, and no later batch and no later pending
    set holds the id. *)
Theorem X17_sent_ids_never_retried (before after : list Event) (s : Session)
    (m m' : CustomEmojiManager.Manager) :
  run before (CustomEmojiManager.init s) = Some m ->
  run after m = Some m' ->
  exists later,
    CustomEmojiManager.sent m' = CustomEmojiManager.sent m ++ later
    /\ forall k, k ∈ concat (CustomEmojiManager.sent m) ->
         (k ∉ concat later) /\ (k ∉ CustomEmojiManager._pendingForRequest m').
Proof.
  intros Hbefore Hafter.
  pose proof (managerInv_run _ _ _ Hbefore (managerInv_init s)) as Hinv.
  pose proof (managerInv_run _ _ _ Hafter Hinv) as (_ & _ & _ & (Q1 & _) & _).
  destruct (run_sent after m m' Hinv Hafter) as (later & Hs).
  exists later. split; [done|]. intros k Hk.
  unfold queued in Q1. rewrite Hs, concat_app, <- app_assoc in Q1.
  apply NoDup_app in Q1 as (_ & Hdisj & _). specialize (Hdisj k Hk).
  rewrite elem_of_app in Hdisj. tauto.
Qed.

Lemma X17_sent_ids_witness :
  exists m m',
    run (take 4 sampleEvents) (CustomEmojiManager.init blankSession) = Some m
    /\ run [EvReply CustomEmojiManager.Fail; EvCreate "5:1" 4%nat] m = Some m'
    /\ 5 ∉ CustomEmojiManager._pendingForRequest m'.
Proof.
  destruct (run (take 4 sampleEvents) (CustomEmojiManager.init blankSession))
    as [m|] eqn:E; [|by vm_compute in E].
  destruct (run [EvReply CustomEmojiManager.Fail; EvCreate "5:1" 4%nat] m)
    as [m'|] eqn:E'.
  2: { vm_compute in E. injection E as <-. by vm_compute in E'. }
  exists m, m'. split; [done|]. split; [done|].
  destruct (X17_sent_ids_never_retried _ _ _ _ _ E E') as (later & _ & Hnot).
  apply (Hnot 5). vm_compute in E. injection E as <-. vm_compute.
  apply list_elem_of_In. simpl. tauto.
Defined.

(** X18.  The loader of an instance always works for the key of the
    instance: in every state a manager can reach, a key of the registry is
    a non-zero 64-bit id, and the loader made for it, while it lives,
    resolves a token with that id or has the document with that id, so
    that the token it reports parses to the key in any session. *)
Theorem X18_loader_serves_its_key (events : list Event) (s s' : Session)
    (m : CustomEmojiManager.Manager) (k : N) (a : nat)
    (l : CustomEmojiLoader.Loader) :
  run events (CustomEmojiManager.init s) = Some m ->
  CustomEmojiManager._instances m !! k = Some a ->
  CustomEmojiManager.heap m !! a = Some l ->
  0 < k <= uint64_max
  /\ assetOf l = k
  /\ (forall d, documentOf l = Some d -> d = k)
  /\ id (ParseCustomEmojiData (CustomEmojiLoader.entityData s' l)) = k.
Proof.
  intros Hrun Ha Hl.
  pose proof (managerInv_run _ _ _ Hrun (managerInv_init s)) as Hinv.
  pose proof (servesOk_run _ _ _ Hrun (managerInv_init s) (servesOk_init s)) as Hok.
  destruct (Hok k a Ha) as [Hk Hserves]. specialize (Hserves l Hl).
  split; [done|]. split; [done|]. split.
  - unfold documentOf, assetOf in *. intros d.
    destruct (CustomEmojiLoader._state l); [done| |]; by intros [= <-].
  - rewrite entityData_asset; [done|]. rewrite Hserves. apply Hk.
Qed.

Lemma X18_loader_serves_witness :
  exists m l,
    run sampleEvents (CustomEmojiManager.init blankSession) = Some m
    /\ CustomEmojiManager.heap m !! 0%nat = Some l
    /\ assetOf l = 5.
Proof.
  destruct (run sampleEvents (CustomEmojiManager.init blankSession))
    as [m|] eqn:E; [|by vm_compute in E].
  destruct (CustomEmojiManager.heap m !! 0%nat) as [l|] eqn:El.
  2: { vm_compute in E. injection E as <-. by vm_compute in El. }
  exists m, l. split; [done|]. split; [done|].
  refine (proj1 (proj2 (X18_loader_serves_its_key sampleEvents blankSession
                          blankSession m 5 0%nat l E _ El))).
  vm_compute in E. injection E as <-. by vm_compute.
Defined.





(** ** The repaint members in every reachable state *)

Section RepaintRuns.

Import CustomEmojiManager.

Local Open Scope Z_scope.

Lemma repaintLater_fields instance request r :
  _repaints (repaintLater instance request r) = upsert instance request (_repaints r)
  /\ _repaintNext (repaintLater instance request r) = _repaintNext r
  /\ _repaintTimer (repaintLater instance request r) = _repaintTimer r
  /\ _repaintTimerScheduled (repaintLater instance request r) = true
  /\ repainted (repaintLater instance request r) = repainted r.
Proof.
  unfold repaintLater, scheduleRepaintTimer. simpl.
  by destruct (_repaintTimerScheduled r).
Qed.

Lemma wake_step e r r' :
  requestPositive e -> repaintStep e r = Some r' ->
  timerConsistent r -> duePositive (_repaints r) ->
  timerConsistent r' /\ duePositive (_repaints r') /\ wakeOk r'.
Proof.
  destruct e as [instance request|alive now|alive now]; simpl; intros Hpos.
  - intros [= <-] Hc Hd.
    destruct (repaintLater_fields instance request r) as (Hr & Hn & Ht & Hs & _).
    split; [|split].
    + unfold timerConsistent. by rewrite Hn, Ht.
    + rewrite Hr. by apply upsert_duePositive.
    + intros _. by left.
  - destruct (_repaintTimerScheduled r); [|done]. intros [= <-] Hc Hd.
    destruct (postponed_spec alive now r Hc Hd) as (Hc' & Hd' & Hle & _ & Hnone).
    split; [done|]. split; [done|]. intros Hne.
    destruct (_repaintTimer (postponed alive now r)) as [t|] eqn:Et.
    + right. exists t. split; [done|]. intros entry. by apply Hle.
    + left. by apply Hnone.
  - destruct (_repaintTimer r) as [t|]; [|done].
    destruct (t <=? now); [|done]. intros [= <-] Hc Hd.
    destruct (timerFires_spec alive now r) as (Hr & _ & Hn & Ht & Hs).
    split; [|split].
    + unfold timerConsistent. by rewrite Hn, Ht.
    + rewrite Hr. by apply filter_duePositive.
    + intros _. by left.
Qed.

Lemma wake_run events r r' :
  Forall requestPositive events -> repaintRun events r = Some r' ->
  timerConsistent r -> duePositive (_repaints r) -> wakeOk r ->
  timerConsistent r' /\ duePositive (_repaints r') /\ wakeOk r'.
Proof.
  revert r. induction events as [|e rest IH]; intros r Hpos; simpl.
  - by intros [= <-].
  - apply Forall_cons in Hpos as [He Hrest].
    destruct (repaintStep e r) as [r1|] eqn:E; [|done]. intros Hrun Hc Hd _.
    destruct (wake_step e r r1 He E Hc Hd) as (Hc1 & Hd1 & Hw1).
    by apply (IH r1).
Qed.

Lemma registered_upsert instance request reps target :
  count_occ Nat.eq_dec (registered (upsert instance request reps)) target
  = ((if Nat.eqb instance target then 1 else 0)
     + count_occ Nat.eq_dec (registered reps) target)%nat.
Proof.
  assert (count_occ Nat.eq_dec [instance] target
          = if Nat.eqb instance target then 1%nat else 0%nat) as Hone.
  { simpl. destruct (Nat.eq_dec instance target) as [->|Hne].
    - by rewrite Nat.eqb_refl.
    - by destruct (Nat.eqb_spec instance target). }
  unfold registered.
  induction reps as [|[d bunch] rest IH]; cbn [upsert flat_map].
  - cbn [snd touch instances]. rewrite !count_occ_app, Hone. simpl. lia.
  - destruct (req_duration request <? d); cbn [flat_map snd touch instances].
    + rewrite !count_occ_app, Hone. simpl. lia.
    + destruct (req_duration request =? d); cbn [flat_map snd touch instances].
      * rewrite !count_occ_app, Hone. lia.
      * rewrite !count_occ_app, IH. lia.
Qed.

Lemma registered_split now reps target :
  (count_occ Nat.eq_dec
     (registered (List.filter (fun entry => negb (elapsed now entry)) reps)) target
   + count_occ Nat.eq_dec (registrations now reps) target
   = count_occ Nat.eq_dec (registered reps) target)%nat.
Proof.
  unfold registered, registrations.
  induction reps as [|entry rest IH]; simpl; [done|].
  destruct (elapsed now entry); simpl; rewrite !count_occ_app; lia.
Qed.

(** Flushing loses the registrations of dead targets and no others. *)
Lemma invokeRepaints_counts alive now r target :
  let r' := invokeRepaints alive now r in
  (count_occ Nat.eq_dec (repainted r') target
   + count_occ Nat.eq_dec (registered (_repaints r')) target
   + (if alive target then 0
      else count_occ Nat.eq_dec (registrations now (_repaints r)) target)
   = count_occ Nat.eq_dec (repainted r) target
     + count_occ Nat.eq_dec (registered (_repaints r)) target)%nat.
Proof.
  unfold invokeRepaints. rewrite flush_spec.
  unfold scheduleRepaintTimer. simpl.
  assert (forall x : Repaints, _repaints (if _repaintTimerScheduled r then x else
            {| _repaints := _repaints x; _repaintNext := _repaintNext x;
               _repaintTimer := _repaintTimer x; _repaintTimerScheduled := true;
               repainted := repainted x |}) = _repaints x
          /\ repainted (if _repaintTimerScheduled r then x else
            {| _repaints := _repaints x; _repaintNext := _repaintNext x;
               _repaintTimer := _repaintTimer x; _repaintTimerScheduled := true;
               repainted := repainted x |}) = repainted x) as Hif.
  { intros x. by destruct (_repaintTimerScheduled r). }
  destruct (_repaintTimerScheduled r); simpl;
    rewrite count_occ_app, repaint_counts;
    pose proof (registered_split now (_repaints r) target);
    destruct (alive target); lia.
Qed.

Lemma count_step e r r' target :
  repaintStep e r = Some r' ->
  (count_occ Nat.eq_dec (repainted r') target
   + count_occ Nat.eq_dec (registered (_repaints r')) target
   <= count_occ Nat.eq_dec (repainted r) target
      + count_occ Nat.eq_dec (registered (_repaints r)) target
      + asked target [e])%nat
  /\ (aliveIn target e ->
      (count_occ Nat.eq_dec (repainted r') target
       + count_occ Nat.eq_dec (registered (_repaints r')) target
       = count_occ Nat.eq_dec (repainted r) target
         + count_occ Nat.eq_dec (registered (_repaints r)) target
         + asked target [e])%nat).
Proof.
  destruct e as [instance request|alive now|alive now]; simpl.
  - intros [= <-].
    destruct (repaintLater_fields instance request r) as (-> & _ & _ & _ & ->).
    rewrite registered_upsert. split; [lia|]. intros _. lia.
  - destruct (_repaintTimerScheduled r); [|done]. intros [= <-].
    unfold postponed.
    destruct (negb (soonest (_repaints r) =? 0)
              && ((_repaintNext r =? 0) || (_repaintNext r >? soonest (_repaints r))));
      [destruct (now >=? soonest (_repaints r))|]; simpl; try (split; [lia|intros _; lia]).
    match goal with |- context [invokeRepaints alive now ?r0] =>
      pose proof (invokeRepaints_counts alive now r0 target) as H end.
    simpl in H. split; [lia|]. intros Ha. rewrite Ha in H. lia.
  - destruct (_repaintTimer r) as [t|]; [|done].
    destruct (t <=? now); [|done]. intros [= <-]. unfold timerFires.
    match goal with |- context [invokeRepaints alive now ?r0] =>
      pose proof (invokeRepaints_counts alive now r0 target) as H end.
    simpl in H. split; [lia|]. intros Ha. rewrite Ha in H. lia.
Qed.

Lemma asked_cons e events target :
  asked target (e :: events) = (asked target [e] + asked target events)%nat.
Proof. destruct e; simpl; lia. Qed.

Lemma count_run events r r' target :
  repaintRun events r = Some r' ->
  (count_occ Nat.eq_dec (repainted r') target
   + count_occ Nat.eq_dec (registered (_repaints r')) target
   <= count_occ Nat.eq_dec (repainted r) target
      + count_occ Nat.eq_dec (registered (_repaints r)) target
      + asked target events)%nat
  /\ (Forall (aliveIn target) events ->
      (count_occ Nat.eq_dec (repainted r') target
       + count_occ Nat.eq_dec (registered (_repaints r')) target
       = count_occ Nat.eq_dec (repainted r) target
         + count_occ Nat.eq_dec (registered (_repaints r)) target
         + asked target events)%nat).
Proof.
  revert r. induction events as [|e rest IH]; intros r.
  - simpl. intros [= <-]. split; [lia|]. intros _. lia.
  - simpl repaintRun. destruct (repaintStep e r) as [r1|] eqn:E; [|done].
    intros Hrun. rewrite asked_cons.
    destruct (count_step e r r1 target E) as [Hle1 Heq1].
    destruct (IH r1 Hrun) as [Hle2 Heq2]. split; [lia|].
    intros Halive. apply Forall_cons in Halive as [He Hrest].
    specialize (Heq1 He). specialize (Heq2 Hrest). lia.
Qed.

End RepaintRuns.

(** X20.  No bunch is left without a wake-up: in every state the repaint
    members reach from the start, through any sequence of repaint
    requests (for times after the epoch), runs of the posted call and
    firings of the timer, whenever bunches are registered either the
    posted call is on its way or the timer is set for a time no later
    than the due time of every bunch; and the timer is set exactly when
    [_repaintNext] is not 0, for that time. *)
Theorem X20_bunches_always_have_a_wake_up (events : list RepaintEvent)
    (r : CustomEmojiManager.Repaints) :
  Forall requestPositive events ->
  repaintRun events CustomEmojiManager.noRepaints = Some r ->
  (CustomEmojiManager._repaints r <> [] ->
   CustomEmojiManager._repaintTimerScheduled r = true
   \/ exists t, CustomEmojiManager._repaintTimer r = Some t
        /\ forall entry, entry ∈ CustomEmojiManager._repaints r ->
                         (t <= CustomEmojiManager.when (snd entry))%Z)
  /\ CustomEmojiManager._repaintTimer r
     = (if (CustomEmojiManager._repaintNext r =? 0)%Z then None
        else Some (CustomEmojiManager._repaintNext r))
  /\ forall entry, entry ∈ CustomEmojiManager._repaints r ->
                   (0 < CustomEmojiManager.when (snd entry))%Z.
Proof.
  intros Hpos Hrun.
  destruct (wake_run events CustomEmojiManager.noRepaints r Hpos Hrun)
    as (Hc & Hd & Hw); try done.
  { constructor. }
  { intros Hne. by destruct Hne. }
  split; [done|]. split; [done|].
  intros entry. by apply (proj1 (Forall_forall _ _) Hd).
Qed.

Lemma X20_wake_up_witness :
  exists r,
    repaintRun sampleRepaints CustomEmojiManager.noRepaints = Some r
    /\ CustomEmojiManager._repaintTimer r
       = (if (CustomEmojiManager._repaintNext r =? 0)%Z then None
          else Some (CustomEmojiManager._repaintNext r)).
Proof.
  destruct (repaintRun sampleRepaints CustomEmojiManager.noRepaints) as [r|] eqn:E;
    [|by vm_compute in E].
  exists r. split; [done|].
  refine (proj1 (proj2 (X20_bunches_always_have_a_wake_up sampleRepaints r _ E))).
  repeat constructor.
Defined.

(** X21.  No repaint request is lost or served twice: after any sequence
    of repaint requests, runs of the posted call and firings of the
    timer, the repaints a target has got and its registrations still
    waiting in bunches together are at most the requests it made, and
    exactly as many when the target was alive at every flush. *)
Theorem X21_repaint_requests_conserved (events : list RepaintEvent)
    (r : CustomEmojiManager.Repaints) (target : nat) :
  repaintRun events CustomEmojiManager.noRepaints = Some r ->
  (count_occ Nat.eq_dec (CustomEmojiManager.repainted r) target
   + count_occ Nat.eq_dec (registered (CustomEmojiManager._repaints r)) target
   <= asked target events)%nat
  /\ (Forall (aliveIn target) events ->
      (count_occ Nat.eq_dec (CustomEmojiManager.repainted r) target
       + count_occ Nat.eq_dec (registered (CustomEmojiManager._repaints r)) target
       = asked target events)%nat).
Proof.
  intros Hrun.
  destruct (count_run events CustomEmojiManager.noRepaints r target Hrun)
    as [Hle Heq].
  simpl in Hle, Heq. split; [lia|]. intros Halive. specialize (Heq Halive). lia.
Qed.

Lemma X21_conserved_witness :
  exists r,
    repaintRun sampleRepaints CustomEmojiManager.noRepaints = Some r
    /\ (count_occ Nat.eq_dec (CustomEmojiManager.repainted r) 1%nat
        + count_occ Nat.eq_dec (registered (CustomEmojiManager._repaints r)) 1%nat
        = 2)%nat.
Proof.
  destruct (repaintRun sampleRepaints CustomEmojiManager.noRepaints) as [r|] eqn:E;
    [|by vm_compute in E].
  exists r. split; [done|].
  refine (proj2 (X21_repaint_requests_conserved sampleRepaints r 1%nat E) _).
  repeat constructor.
Defined.

(** ** The moderation box *)

Section ModerateOptions.

Import ModerateMessagesBox.

Local Open Scope Z_scope.

Lemma scan_spec peer b d items :
  match scan peer b d items with
  | Some (x, y) =>
      forallb (fun item => (peer =? historyPeer item)%N) items = true
      /\ x = b && allBan items /\ y = d && allDelete items
  | None =>
      forallb (fun item => (peer =? historyPeer item)%N) items = false
      \/ (b && allBan items = false /\ d && allDelete items = false)
  end.
Proof.
  revert b d. induction items as [|item rest IH]; intros b d; simpl.
  - by rewrite !andb_true_r.
  - destruct (negb b && negb d) eqn:Eboth.
    { right. by destruct b, d. }
    destruct (peer =? historyPeer item)%N; simpl; [|by left].
    specialize (IH (if negb (suggestBanReport item) then false else b)
                   (if negb (suggestDeleteAllReport item) then false else d)).
    destruct (scan _ _ _ rest) as [[x y]|];
      destruct (suggestBanReport item), (suggestDeleteAllReport item), b, d;
      simpl in *; tauto.
Qed.

Lemma has_flags (b d : bool) :
  has (Z.lor (Z.lor 0 (if b then Ban else 0)) (if d then DeleteAll else 0)) Ban = b
  /\ has (Z.lor (Z.lor 0 (if b then Ban else 0)) (if d then DeleteAll else 0))
       DeleteAll = d.
Proof. by destruct b, d. Qed.

(** The options in closed form. *)
Lemma CalculateModerateOptions_closed front rest :
  CalculateModerateOptions (front :: rest)
  = Some (if samePeer front (front :: rest)
          then Z.lor (Z.lor 0 (if allBan (front :: rest) then Ban else 0))
                 (if allDelete (front :: rest) then DeleteAll else 0)
          else 0).
Proof.
  unfold CalculateModerateOptions, samePeer.
  pose proof (scan_spec (historyPeer front) true true (front :: rest)) as H.
  destruct (scan _ _ _ (front :: rest)) as [[x y]|].
  - destruct H as (-> & -> & ->). by rewrite !andb_true_l.
  - rewrite !andb_true_l in H. destruct H as [->|[-> ->]]; [done|].
    by destruct (forallb _ _).
Qed.

Lemma samePeer_iff front items :
  samePeer front items = true
  <-> forall item, item ∈ items -> historyPeer item = historyPeer front.
Proof.
  unfold samePeer. rewrite forallb_forall. split.
  - intros H item Hin. apply list_elem_of_In in Hin.
    specialize (H item Hin). apply N.eqb_eq in H. done.
  - intros H item Hin. apply N.eqb_eq. symmetry. by apply H, list_elem_of_In.
Qed.

Lemma samePeer_any front front' items :
  front ∈ items -> front' ∈ items ->
  samePeer front items = samePeer front' items.
Proof.
  intros Hf Hf'.
  destruct (samePeer front items) eqn:E, (samePeer front' items) eqn:E';
    try done.
  - pose proof (proj1 (samePeer_iff _ _) E) as H.
    apply not_true_iff_false in E'. destruct E'.
    apply samePeer_iff. intros item Hin. by rewrite (H item Hin), (H front' Hf').
  - pose proof (proj1 (samePeer_iff _ _) E') as H.
    apply not_true_iff_false in E. destruct E.
    apply samePeer_iff. intros item Hin. by rewrite (H item Hin), (H front Hf).
Qed.

Lemma forallb_perm {A : Type} (f : A -> bool) (l l' : list A) :
  l ≡ₚ l' -> forallb f l = forallb f l'.
Proof.
  induction 1 as [|x l l' _ IH|x y l|l l' l'' _ IH1 _ IH2]; simpl.
  - done.
  - by rewrite IH.
  - by destruct (f x), (f y).
  - congruence.
Qed.

Lemma forallb_app_true {A : Type} (f : A -> bool) (l more : list A) :
  forallb f (l ++ more) = true -> forallb f l = true.
Proof. rewrite forallb_app. by intros [-> _]%andb_true_iff. Qed.

Lemma has_mono all some flag :
  Z.land all some = all -> has all flag = true -> has some flag = true.
Proof.
  unfold has. intros Hsub. rewrite <- Hsub.
  intros H. apply negb_true_iff, Z.eqb_neq in H. apply negb_true_iff, Z.eqb_neq.
  intros Hz. apply H. by rewrite <- Z.land_assoc, Hz, Z.land_0_r.
Qed.

End ModerateOptions.

(** X23.  [CalculateModerateOptions] fails its precondition on an empty
    list only; otherwise it offers to ban exactly when all items are of
    the peer of the first one and every item suggests the ban report, and
    to delete all exactly when all items are of that peer and every item
    suggests the delete-all report, sets no other bit, and
    [CanCreateModerateMessagesBox] holds exactly when one of the two is
    offered. *)
Theorem X23_moderate_options_characterised
    (front : ModerateMessagesBox.HistoryItem)
    (rest : ModerateMessagesBox.HistoryItemsList) :
  ModerateMessagesBox.CalculateModerateOptions [] = None
  /\ ModerateMessagesBox.CanCreateModerateMessagesBox [] = None
  /\ exists options,
       ModerateMessagesBox.CalculateModerateOptions (front :: rest) = Some options
       /\ ModerateMessagesBox.has options ModerateMessagesBox.Ban
          = samePeer front (front :: rest) && allBan (front :: rest)
       /\ ModerateMessagesBox.has options ModerateMessagesBox.DeleteAll
          = samePeer front (front :: rest) && allDelete (front :: rest)
       /\ options
          = Z.lor
              (if ModerateMessagesBox.has options ModerateMessagesBox.Ban
               then ModerateMessagesBox.Ban else 0%Z)
              (if ModerateMessagesBox.has options ModerateMessagesBox.DeleteAll
               then ModerateMessagesBox.DeleteAll else 0%Z)
       /\ ModerateMessagesBox.CanCreateModerateMessagesBox (front :: rest)
          = Some (samePeer front (front :: rest)
                  && (allBan (front :: rest) || allDelete (front :: rest))).
Proof.
  split; [done|]. split; [done|].
  eexists. split; [apply CalculateModerateOptions_closed|].
  unfold ModerateMessagesBox.CanCreateModerateMessagesBox.
  rewrite CalculateModerateOptions_closed.
  by destruct (samePeer front (front :: rest)), (allBan (front :: rest)),
       (allDelete (front :: rest)).
Qed.

(** X24.  The options do not depend on the order of the items, and more
    items never add an option: what is offered for a list with further
    items is offered for the list itself. *)
Theorem X24_moderate_options_order_and_growth
    (items items' more : ModerateMessagesBox.HistoryItemsList)
    (flag : ModerateMessagesBox.ModerateOptions) :
  items ≡ₚ items' ->
  ModerateMessagesBox.CalculateModerateOptions items
  = ModerateMessagesBox.CalculateModerateOptions items'
  /\ ModerateMessagesBox.CanCreateModerateMessagesBox items
     = ModerateMessagesBox.CanCreateModerateMessagesBox items'
  /\ forall all some,
       ModerateMessagesBox.CalculateModerateOptions (items ++ more) = Some all ->
       ModerateMessagesBox.CalculateModerateOptions items = Some some ->
       ModerateMessagesBox.has all flag = true ->
       ModerateMessagesBox.has some flag = true.
Proof.
  intros Hperm.
  assert (ModerateMessagesBox.CalculateModerateOptions items
          = ModerateMessagesBox.CalculateModerateOptions items') as Heq.
  { destruct items as [|front rest], items' as [|front' rest']; try done.
    - by apply Permutation_nil_l in Hperm.
    - by apply Permutation_nil_r in Hperm.
    - rewrite !CalculateModerateOptions_closed.
      assert (front' ∈ front :: rest) as Hin'.
      { rewrite Hperm. by left. }
      rewrite (samePeer_any front front' (front :: rest)) by (done || by left).
      unfold samePeer, allBan, allDelete.
      by rewrite !(forallb_perm _ _ _ Hperm). }
  split; [done|]. split.
  { unfold ModerateMessagesBox.CanCreateModerateMessagesBox. by rewrite Heq. }
  intros all some. destruct items as [|front rest]; [done|].
  rewrite <- app_comm_cons, !CalculateModerateOptions_closed.
  pose proof (forallb_app_true
                (fun item => ModerateMessagesBox.historyPeer front
                             =? ModerateMessagesBox.historyPeer item)
                (front :: rest) more) as Hpeer.
  pose proof (forallb_app_true ModerateMessagesBox.suggestBanReport
                (front :: rest) more) as Hban.
  pose proof (forallb_app_true ModerateMessagesBox.suggestDeleteAllReport
                (front :: rest) more) as Hdel.
  rewrite <- app_comm_cons in Hpeer, Hban, Hdel.
  fold (samePeer front (front :: rest ++ more)) in Hpeer.
  fold (samePeer front (front :: rest)) in Hpeer.
  fold (allBan (front :: rest ++ more)) in Hban.
  fold (allBan (front :: rest)) in Hban.
  fold (allDelete (front :: rest ++ more)) in Hdel.
  fold (allDelete (front :: rest)) in Hdel.
  destruct (samePeer front (front :: rest ++ more));
    [rewrite (Hpeer eq_refl)|];
    destruct (allBan (front :: rest ++ more));
    try rewrite (Hban eq_refl);
    destruct (allDelete (front :: rest ++ more));
    try rewrite (Hdel eq_refl);
    intros [= <-] [= <-]; apply has_mono; repeat case_match; done.
Qed.

Lemma X24_moderate_options_witness :
  ModerateMessagesBox.CalculateModerateOptions
    [{| ModerateMessagesBox.historyPeer := 7;
        ModerateMessagesBox.fromUser := Some 1;
        ModerateMessagesBox.suggestBanReport := true;
        ModerateMessagesBox.suggestDeleteAllReport := true |};
     {| ModerateMessagesBox.historyPeer := 7;
        ModerateMessagesBox.fromUser := Some 2;
        ModerateMessagesBox.suggestBanReport := true;
        ModerateMessagesBox.suggestDeleteAllReport := false |}]
  = ModerateMessagesBox.CalculateModerateOptions
      [{| ModerateMessagesBox.historyPeer := 7;
          ModerateMessagesBox.fromUser := Some 2;
          ModerateMessagesBox.suggestBanReport := true;
          ModerateMessagesBox.suggestDeleteAllReport := false |};
       {| ModerateMessagesBox.historyPeer := 7;
          ModerateMessagesBox.fromUser := Some 1;
          ModerateMessagesBox.suggestBanReport := true;
          ModerateMessagesBox.suggestDeleteAllReport := true |}].
Proof.
  refine (proj1 (X24_moderate_options_order_and_growth _ _ [] 0%Z _)).
  apply Permutation_swap.
Defined.

Section ModerateUsers.

Import ModerateMessagesBox.

(** The loop of [users] from a result so far. *)
Lemma users_from acc items :
  NoDup acc ->
  exists added,
    fold_left
      (fun result item =>
         match fromUser item with
         | Some user =>
             if bool_decide (user ∈ result) then result else result ++ [user]
         | None => result
         end)
      items acc = acc ++ added
    /\ NoDup (acc ++ added)
    /\ added `sublist_of` senders items
    /\ (forall user, user ∈ senders items -> user ∈ acc ++ added).
Proof.
  revert acc. induction items as [|item rest IH]; intros acc Hnd; simpl.
  - exists []. rewrite app_nil_r. split; [done|]. split; [done|].
    split; [done|]. intros user Hin. by apply elem_of_nil in Hin.
  - unfold senders. simpl. destruct (fromUser item) as [user|].
    + case_bool_decide as Hin.
      * destruct (IH acc Hnd) as (added & -> & Hnd' & Hsub & Hall).
        exists added. split; [done|]. split; [done|].
        split; [by apply sublist_cons|].
        intros u. rewrite elem_of_cons. intros [->|Hu]; [|by apply Hall].
        rewrite elem_of_app. by left.
      * destruct (IH (acc ++ [user])) as (added & -> & Hnd' & Hsub & Hall).
        { apply NoDup_app. split; [done|]. split; [|apply NoDup_singleton].
          intros u Hu. rewrite list_elem_of_singleton. by intros ->. }
        exists (user :: added). rewrite <- app_assoc in *. simpl in *.
        split; [done|]. split; [done|]. split; [by apply sublist_skip|].
        intros u. rewrite elem_of_cons. intros [->|Hu]; [|by apply Hall].
        rewrite elem_of_app, elem_of_cons. right. by left.
    + by apply IH.
Qed.

End ModerateUsers.

(** X25.  The users of the box are the senders of the items that are
    users, each once, in the order of their first messages: the list has
    no duplicates, holds exactly those senders, keeps their order, only
    grows at its end when items are added, and is empty (failing the
    assertion of the box) exactly when no item is from a user. *)
Theorem X25_users_are_the_senders_once
    (items more : ModerateMessagesBox.HistoryItemsList) :
  NoDup (ModerateMessagesBox.users items)
  /\ (forall user, user ∈ ModerateMessagesBox.users items <-> user ∈ senders items)
  /\ ModerateMessagesBox.users items `sublist_of` senders items
  /\ ModerateMessagesBox.users items
     `prefix_of` ModerateMessagesBox.users (items ++ more)
  /\ (ModerateMessagesBox.users items = [] <-> senders items = []).
Proof.
  destruct (users_from [] items) as (added & E & Hnd & Hsub & Hall);
    [constructor|].
  simpl in *. fold (ModerateMessagesBox.users items) in E.
  assert (forall user, user ∈ ModerateMessagesBox.users items
                       <-> user ∈ senders items) as Hiff.
  { intros user. rewrite E. split; [|by apply Hall].
    intros Hin. by apply (elem_of_sublist _ _ _ Hin Hsub). }
  split; [by rewrite E|]. split; [done|]. split; [by rewrite E|]. split.
  - unfold ModerateMessagesBox.users at 2. rewrite fold_left_app.
    fold (ModerateMessagesBox.users items).
    destruct (users_from (ModerateMessagesBox.users items) more)
      as (added' & -> & _); [by rewrite E|].
    by exists added'.
  - split.
    + intros Hnil. destruct (senders items) as [|user rest] eqn:Es; [done|].
      assert (user ∈ ModerateMessagesBox.users items) as Hin.
      { apply Hiff. by left. }
      rewrite Hnil in Hin. by apply elem_of_nil in Hin.
    + intros Hnil. rewrite Hnil in Hsub. rewrite E.
      by apply sublist_nil_r.
Qed.

Section ModerateRequests.

Import ModerateMessagesBox.

(** The checked users from index [i] on. *)
Lemma collectFrom_spec rounds : forall i users checkboxes result,
  length checkboxes = (i + rounds)%nat -> length users = length checkboxes ->
  collectFrom i rounds users checkboxes result
  = Some (result
          ++ map fst (List.filter snd (zip (drop i users) (drop i checkboxes)))).
Proof.
  induction rounds as [|rounds IH]; intros i users checkboxes result Hc Hu; simpl.
  - rewrite !drop_ge by lia. simpl. by rewrite app_nil_r.
  - destruct (lookup_lt_is_Some_2 checkboxes i) as [c Ec]; [lia|].
    destruct (lookup_lt_is_Some_2 users i) as [u Eu]; [lia|].
    rewrite Ec, Eu.
    rewrite (drop_S _ _ _ Ec), (drop_S _ _ _ Eu). simpl.
    destruct c; simpl; rewrite IH by lia; [|done].
    by rewrite <- app_assoc.
Qed.

Lemma omap_cons {A B : Type} (f : A -> option B) (x : A) (l : list A) :
  omap f (x :: l)
  = match f x with Some y => y :: omap f l | None => omap f l end.
Proof. done. Qed.

(** The timer from a state in which it exists. *)
Lemma sequentiallyRequest_from peerId userIds sessions : forall state,
  running state = true -> (counter state <= length userIds)%nat ->
  let state' := sequentiallyRequest peerId userIds sessions state in
  counter state' = min (counter state + length sessions) (length userIds)
  /\ running state'
     = bool_decide (counter state + length sessions <= length userIds)%nat
  /\ requests state'
     = requests state
       ++ omap (fun entry => requestAt peerId (fst entry) (snd entry))
            (zip sessions (drop (counter state) userIds)).
Proof.
  induction sessions as [|session rest IH]; intros state Hrun Hle;
    cbn [sequentiallyRequest length zip_with omap].
  - rewrite Nat.add_0_r, app_nil_r.
    split; [lia|]. split; [|done]. by rewrite bool_decide_true.
  - rewrite Hrun. unfold tick.
    destruct (userIds !! counter state) as [from|] eqn:Ef.
    + pose proof (lookup_lt_Some _ _ _ Ef) as Hlt.
      match goal with |- context [sequentiallyRequest _ _ rest ?st] =>
        destruct (IH st) as (Hc & Hr & Hq); [done|cbn; lia|] end.
      cbn [counter running requests] in Hc, Hr, Hq.
      rewrite Hc, Hr, Hq, (drop_S _ _ _ Ef).
      split; [lia|]. split.
      { apply bool_decide_ext. lia. }
      cbn [zip_with]. rewrite omap_cons. cbn [fst snd].
      assert (requestAt peerId session from
              = match asChannel session peerId, asUser session from with
                | Some channel, Some user => Some (user, channel)
                | _, _ => None
                end) as -> by done.
      destruct (asChannel session peerId), (asUser session from);
        by rewrite <- ?app_assoc.
    + apply lookup_ge_None in Ef.
      assert (counter state = length userIds) as Hc by lia.
      rewrite (drop_ge userIds) by lia.
      destruct rest as [|session' rest'];
        cbn [sequentiallyRequest running counter requests];
        (split; [cbn [length]; lia|]);
        (split; [|by rewrite <- (app_nil_r (requests state)) at 1]);
        symmetry; apply bool_decide_eq_false; cbn [length]; lia.
Qed.

End ModerateRequests.

(** X26.  On confirmation with several users the action is requested for
    the checked users, one per tick of the timer and in their order:
    [collectRequests] returns the users whose checkbox is checked, in the
    order of the list, and after any number of ticks the timer of
    [sequentiallyRequest] has made a request for each of the first users
    that the session at its tick knew as a user, the peer of the box being
    a channel then, and none else; the timer is destroyed at the tick
    after the last user and does nothing from then on. *)
Theorem X26_requests_one_user_per_tick (peerId : N) (users : list N)
    (checkboxes : list bool) (sessions : list ModerateMessagesBox.Peers) :
  length checkboxes = length users ->
  exists userIds,
    ModerateMessagesBox.collectRequests users checkboxes = Some userIds
    /\ userIds = map fst (List.filter snd (zip users checkboxes))
    /\ userIds `sublist_of` users
    /\ let state :=
         ModerateMessagesBox.sequentiallyRequest peerId userIds sessions
           ModerateMessagesBox.start in
       ModerateMessagesBox.counter state = min (length sessions) (length userIds)
       /\ ModerateMessagesBox.running state
          = bool_decide (length sessions <= length userIds)%nat
       /\ ModerateMessagesBox.requests state
          = omap (fun entry => requestAt peerId (fst entry) (snd entry))
              (zip sessions userIds).
Proof.
  intros Hlen. eexists. split.
  { unfold ModerateMessagesBox.collectRequests.
    rewrite collectFrom_spec by (simpl; lia). simpl. by rewrite !drop_0. }
  split; [done|]. split.
  { clear sessions. revert checkboxes Hlen.
    induction users as [|user users IH]; intros [|c checkboxes] Hlen; try done.
    simpl in *. destruct c; simpl.
    - apply sublist_skip, IH. lia.
    - apply sublist_cons, IH. lia. }
  destruct (sequentiallyRequest_from peerId
              (map fst (List.filter snd (zip users checkboxes))) sessions
              ModerateMessagesBox.start eq_refl) as (Hc & Hr & Hq).
  { simpl. lia. }
  simpl in *. by rewrite drop_0 in Hq.
Qed.

Lemma X26_requests_witness :
  exists userIds,
    ModerateMessagesBox.collectRequests [11; 12; 13] [true; false; true]
    = Some userIds
    /\ userIds = [11; 13].
Proof.
  destruct (X26_requests_one_user_per_tick 7 [11; 12; 13] [true; false; true] []
              eq_refl) as (userIds & E & -> & _).
  by exists [11; 13].
Defined.

Section ModerateRows.

Import ModerateMessagesBox.

Lemma existsb_const (b : bool) (l : list bool) :
  l <> [] -> existsb (fun c => c) (map (fun _ => b) l) = b.
Proof.
  induction l as [|x l IH]; [done|]. intros _. simpl.
  destruct b; [done|]. destruct l; [done|]. by apply IH.
Qed.

Lemma chosen_nil (users : list N) (checks : list bool) :
  length checks = length users ->
  map fst (List.filter snd (zip users checks)) = []
  <-> existsb (fun c => c) checks = false.
Proof.
  revert checks. induction users as [|user users IH]; intros [|c checks] Hlen;
    try done.
  simpl in *. destruct c; simpl; [done|]. apply IH. lia.
Qed.

(** A click keeps the checkbox of a row in step with those of the users. *)
Lemma click_inv c row row' :
  plainClick c -> click c row = Some row' ->
  checkboxes row <> [] ->
  checkbox row = existsb (fun c => c) (checkboxes row) ->
  wrapToggled row = button row ->
  length (checkboxes row') = length (checkboxes row)
  /\ checkbox row' = existsb (fun c => c) (checkboxes row')
  /\ wrapToggled row' = button row'.
Proof.
  intros Hplain E Hne Htop Hwrap. destruct c as [i| | |]; simpl in E.
  - destruct (checkboxes row !! i) as [checked|]; [|done].
    injection E as <-. simpl. by rewrite length_insert.
  - injection E as <-. by simpl.
  - injection E as <-. simpl. rewrite length_map.
    split; [done|]. split; [|done]. by rewrite existsb_const.
  - by destruct Hplain.
Qed.

Lemma clicks_inv cs : forall row row',
  Forall plainClick cs -> clicks cs row = Some row' ->
  checkboxes row <> [] ->
  checkbox row = existsb (fun c => c) (checkboxes row) ->
  wrapToggled row = button row ->
  length (checkboxes row') = length (checkboxes row)
  /\ checkbox row' = existsb (fun c => c) (checkboxes row')
  /\ wrapToggled row' = button row'.
Proof.
  induction cs as [|c rest IH]; intros row row' Hplain; simpl.
  - by intros [= <-].
  - apply Forall_cons in Hplain as [Hc Hrest].
    destruct (click c row) as [row1|] eqn:E; [|done].
    intros Hrun Hne Htop Hwrap.
    destruct (click_inv c row row1 Hc E Hne Htop Hwrap) as (Hlen & Htop1 & Hwrap1).
    destruct (IH row1 row' Hrest Hrun) as (Hlen' & Htop' & Hwrap'); try done.
    { intros Hnil. rewrite Hnil in Hlen. destruct (checkboxes row); done. }
    split; [congruence|done].
Qed.

Lemma confirmed_spec users row :
  length (checkboxes row) = length users ->
  confirmed users row
  = Some (if checkbox row
          then map fst (List.filter snd (zip users (checkboxes row)))
          else []).
Proof.
  intros Hlen. unfold confirmed, collectRequests.
  destruct (checkbox row); [|done].
  rewrite collectFrom_spec by (simpl; lia). simpl. by rewrite !drop_0.
Qed.

End ModerateRows.

(** X28.  With several users, the checkbox of a row follows the checkboxes
    of the users: after any clicks on the lines of the users, the expand
    button and the overlay of the row, starting from the row as it is
    built, the checkbox of the row is checked exactly when some user is
    checked, the list of the users is shown exactly when the expand button
    is checked, and on confirmation the action is requested for exactly
    the checked users, of which there is one at least when the row is
    checked.  A change of the restrictions, in the row of the ban, checks
    the row and no user: confirming then requests the action for nobody. *)
Theorem X28_row_follows_the_users (users : list N)
    (cs : list ModerateMessagesBox.Click) (row : ModerateMessagesBox.Row) :
  users <> [] ->
  Forall plainClick cs ->
  ModerateMessagesBox.clicks cs (ModerateMessagesBox.emptyRow (length users))
  = Some row ->
  length (ModerateMessagesBox.checkboxes row) = length users
  /\ ModerateMessagesBox.checkbox row
     = existsb (fun c => c) (ModerateMessagesBox.checkboxes row)
  /\ ModerateMessagesBox.wrapToggled row = ModerateMessagesBox.button row
  /\ (exists chosen,
        ModerateMessagesBox.confirmed users row = Some chosen
        /\ (ModerateMessagesBox.checkbox row = true ->
            chosen = map fst (List.filter snd
                                (zip users (ModerateMessagesBox.checkboxes row))))
        /\ (chosen <> [] <-> ModerateMessagesBox.checkbox row = true))
  /\ (exists row',
        ModerateMessagesBox.click ModerateMessagesBox.RestrictionsChanged
          (ModerateMessagesBox.emptyRow (length users)) = Some row'
        /\ ModerateMessagesBox.checkbox row' = true
        /\ ModerateMessagesBox.confirmed users row' = Some []).
Proof.
  intros Hne Hplain Hrun.
  assert (replicate (length users) false <> []) as Hne'.
  { destruct users; done. }
  assert (existsb (fun c => c) (replicate (length users) false) = false) as Hnone.
  { clear. induction (length users) as [|n IH]; [done|]. simpl. exact IH. }
  destruct (clicks_inv cs _ row Hplain Hrun) as (Hlen & Htop & Hwrap);
    try done.
  simpl in Hlen. rewrite length_replicate in Hlen.
  split; [done|]. split; [done|]. split; [done|]. split.
  - eexists. split; [by apply confirmed_spec|].
    split; [by intros ->|].
    pose proof (chosen_nil users (ModerateMessagesBox.checkboxes row) Hlen) as Hnil.
    rewrite <- Htop in Hnil.
    destruct (ModerateMessagesBox.checkbox row); split; try done.
    + intros _ Hempty. apply Hnil in Hempty. done.
  - eexists. split; [done|]. split; [done|].
    rewrite confirmed_spec by (simpl; by rewrite length_replicate). simpl.
    f_equal. apply chosen_nil; [by rewrite length_replicate|done].
Qed.

Lemma X28_row_witness :
  exists row,
    ModerateMessagesBox.clicks
      [ModerateMessagesBox.ClickOverlay; ModerateMessagesBox.ClickButton;
       ModerateMessagesBox.ClickLine 1]
      (ModerateMessagesBox.emptyRow 3) = Some row
    /\ ModerateMessagesBox.confirmed [11; 12; 13] row = Some [11; 13].
Proof.
  destruct (ModerateMessagesBox.clicks
              [ModerateMessagesBox.ClickOverlay; ModerateMessagesBox.ClickButton;
               ModerateMessagesBox.ClickLine 1]
              (ModerateMessagesBox.emptyRow 3)) as [row|] eqn:E;
    [|by vm_compute in E].
  exists row. split; [done|].
  destruct (X28_row_follows_the_users [11; 12; 13]
              [ModerateMessagesBox.ClickOverlay; ModerateMessagesBox.ClickButton;
               ModerateMessagesBox.ClickLine 1] row)
    as (_ & _ & _ & (chosen & -> & Hchosen & _) & _).
  - done.
  - repeat constructor; discriminate.
  - exact E.
  - vm_compute in E. injection E as <-. f_equal. by apply Hchosen.
Defined.
